(** * SideBySideEditor: a shallow embedding of
      [src/vs/workbench/browser/parts/editor/sideBySideEditor.ts]

    The editor hosts two child editors (details on the left, master on the
    right) separated by a vertical sash.  The embedding keeps the class the
    way it is written: its private fields are a record, its methods are
    computations in a state-and-exception monad over that record and the
    DOM, and the promises it creates are entries of a table that the
    environment settles one at a time.

    Numbers ([Dimension], sash positions, style lengths) are what
    [number] is in the source: IEEE 754 binary64 values, subtracted with
    rounding to nearest, ties to even. *)

From Stdlib Require Import ZArith QArith SpecFloat.
From stdpp Require Import base option list gmap.

(** ** Numbers *)

(** A [number] of the source: a binary64 value (53 bits of precision,
    exponents below 1024), with its signed zeros, its infinities and
    NaN. *)
Definition number : Type := spec_float.

(** [x - y] as the source computes it. *)
Definition subtract (x y : number) : number := SFsub 53 1024 x y.


(** The number an integer literal denotes. *)
Definition px (z : Z) : number := binary_normalize 53 1024 z 0 false.



(** [z] shifted left by [n] bits. *)
Definition shl (z : positive) (n : nat) : positive := Nat.iter n xO z.

(** The integer of sign [s] and magnitude [z]. *)
Definition signed (s : bool) (z : positive) : Z :=
  if s then Z.neg z else Z.pos z.

(** The number of sign [s] and magnitude [z], for [z] of at most 53
    bits: the mantissa is [z] shifted to 53 bits. *)
Definition normal (s : bool) (z : positive) : number :=
  S754_finite s (shl z (53 - Pos.to_nat (digits2_pos z)))
    (Z.pos (digits2_pos z) - 53).

(** ** Values exchanged with the collaborators *)

(** Child editors and DOM elements are objects with an identity; the host
    only ever holds references to them. *)
Abbreviation Editor := nat (only parsing).
Abbreviation HTMLElement := nat (only parsing).
Abbreviation EditorInput := nat (only parsing).
Abbreviation EditorOptions := nat (only parsing).
Abbreviation EditorDescriptor := nat (only parsing).

Inductive Position := LEFT | CENTER | RIGHT.

Record Dimension := { width : number; height : number }.

Record SideBySideEditorInput := { details : EditorInput; master : EditorInput }.

Inductive Error :=
| NoEditorError (i : EditorInput)
    (* 'Can not find a registered editor for the input {0}' *)
| ChildError (code : nat)
    (* whatever createInstance or a child's own setInput fails with *)
| TypeError
    (* a property of null or undefined is read *)
| NotFoundError.
    (* removeChild of a node that is not a child *)

(** Inline style of a container, lengths in px. *)
Inductive CssPosition := static | absolute.

Record Style := {
  style_position : CssPosition;
  style_width : option number;
  style_height : option number;
  style_left : option number
}.

Definition noStyle : Style :=
  {| style_position := static; style_width := None;
     style_height := None; style_left := None |}.

(** Calls the host makes on its collaborators, in the order it makes them. *)
Inductive Event :=
| Dispose (e : Editor)
| SetVisible (e : Editor) (v : bool)
| Focus (e : Editor)
| Layout (e : Editor) (d : Dimension)
| Create (e : Editor) (c : option HTMLElement)
| SetInput (e : Editor) (i : EditorInput) (o : option EditorOptions)
| CreateInstance (d : EditorDescriptor)
| AppendChild (c : HTMLElement)
| RemoveChild (c : HTMLElement).

(** ** Promises *)

(** Index of a promise in the array given to [TPromise.join]. *)
Inductive Side := DetailsSide | MasterSide.

(** What a pending promise is waiting for.  [AwaitInstance] is the promise
    of [createInstance(descriptor).then(editor => ...)] before the instance
    exists, [AwaitInput] a promise that follows a child's own
    [setInput]. *)
Inductive Chain :=
| AwaitInstance (i : EditorInput) (c : option HTMLElement) (o : option EditorOptions)
| AwaitInput (e : Editor)
| Settled (r : Error + Editor).

Record Pending := {
  chain : Chain;
  listener : option (nat * Side)  (* the join that chained on it, if any *)
}.

(** The promise [_createEditor] hands back. *)
Inductive EditorPromise :=
| WrapError (e : Error)
| Chained (p : nat).

Record Join := {
  joinDetails : option (Error + Editor);
  joinMaster : option (Error + Editor);
  joinResult : option (list Error + unit)
}.

(** The promise [setInput] hands back to the workbench. *)
Inductive TPromise :=
| Fulfilled
| Rejected (errs : list Error)
| Joined (j : nat).

(** What running a method body ends with: a value, or an exception. *)
Inductive Result (A : Type) :=
| Return (a : A)
| Throw (e : Error).
Arguments Return {A} a.
Arguments Throw {A} e.

(** ** Collaborators that are not part of the unit

    - [matches] is [SideBySideEditorInput.matches], defined in
      vs/workbench/common/editor;
    - [getEditor] is
      [Registry.as<IEditorRegistry>(EditorExtensions.Editors).getEditor];
    - [VSash], defined in vs/base/browser/ui/sash/sash, is taken with the
      position it reports and with what [setDimenesion] does to it,
      together with the positions it fires through [onPositionChange]. *)
Class Collaborators := {
  matches : SideBySideEditorInput -> option SideBySideEditorInput -> bool;
  getEditor : EditorInput -> option EditorDescriptor;
  VSash : Type;
  getVerticalSashLeft : VSash -> number;
  setDimenesion : VSash -> Dimension -> VSash * list number
}.

Section SideBySideEditor.

Context `{Collaborators}.

(** ** State *)

(** The fields of the class, with those it inherits from [BaseEditor]
    ([input], [options], [visible], [position]). *)
Record Host := {
  input : option SideBySideEditorInput;
  options : option EditorOptions;
  visible : bool;
  position : option Position;
  dimension : option Dimension;
  masterEditor : option Editor;
  masterEditorContainer : option HTMLElement;
  detailsEditor : option Editor;
  detailsEditorContainer : option HTMLElement;
  sash : VSash
}.

(** The parent element of the editor: its child nodes, and the inline
    styles of the elements created so far. *)
Record Dom := {
  childNodes : list HTMLElement;
  styles : gmap nat Style;
  nextElement : nat
}.

Record World := {
  host : Host;
  dom : Dom;
  trace : list Event;
  nextEditor : nat;
  promises : list Pending;
  joins : list Join
}.

Definition set_input v (h : Host) : Host :=
  {| input := v; options := options h; visible := visible h;
     position := position h; dimension := dimension h;
     masterEditor := masterEditor h;
     masterEditorContainer := masterEditorContainer h;
     detailsEditor := detailsEditor h;
     detailsEditorContainer := detailsEditorContainer h; sash := sash h |}.

Definition set_options v (h : Host) : Host :=
  {| input := input h; options := v; visible := visible h;
     position := position h; dimension := dimension h;
     masterEditor := masterEditor h;
     masterEditorContainer := masterEditorContainer h;
     detailsEditor := detailsEditor h;
     detailsEditorContainer := detailsEditorContainer h; sash := sash h |}.

Definition set_visible v (h : Host) : Host :=
  {| input := input h; options := options h; visible := v;
     position := position h; dimension := dimension h;
     masterEditor := masterEditor h;
     masterEditorContainer := masterEditorContainer h;
     detailsEditor := detailsEditor h;
     detailsEditorContainer := detailsEditorContainer h; sash := sash h |}.

Definition set_position v (h : Host) : Host :=
  {| input := input h; options := options h; visible := visible h;
     position := v; dimension := dimension h;
     masterEditor := masterEditor h;
     masterEditorContainer := masterEditorContainer h;
     detailsEditor := detailsEditor h;
     detailsEditorContainer := detailsEditorContainer h; sash := sash h |}.

Definition set_dimension v (h : Host) : Host :=
  {| input := input h; options := options h; visible := visible h;
     position := position h; dimension := v;
     masterEditor := masterEditor h;
     masterEditorContainer := masterEditorContainer h;
     detailsEditor := detailsEditor h;
     detailsEditorContainer := detailsEditorContainer h; sash := sash h |}.

Definition set_masterEditor v (h : Host) : Host :=
  {| input := input h; options := options h; visible := visible h;
     position := position h; dimension := dimension h;
     masterEditor := v;
     masterEditorContainer := masterEditorContainer h;
     detailsEditor := detailsEditor h;
     detailsEditorContainer := detailsEditorContainer h; sash := sash h |}.

Definition set_masterEditorContainer v (h : Host) : Host :=
  {| input := input h; options := options h; visible := visible h;
     position := position h; dimension := dimension h;
     masterEditor := masterEditor h;
     masterEditorContainer := v;
     detailsEditor := detailsEditor h;
     detailsEditorContainer := detailsEditorContainer h; sash := sash h |}.

Definition set_detailsEditor v (h : Host) : Host :=
  {| input := input h; options := options h; visible := visible h;
     position := position h; dimension := dimension h;
     masterEditor := masterEditor h;
     masterEditorContainer := masterEditorContainer h;
     detailsEditor := v;
     detailsEditorContainer := detailsEditorContainer h; sash := sash h |}.

Definition set_detailsEditorContainer v (h : Host) : Host :=
  {| input := input h; options := options h; visible := visible h;
     position := position h; dimension := dimension h;
     masterEditor := masterEditor h;
     masterEditorContainer := masterEditorContainer h;
     detailsEditor := detailsEditor h;
     detailsEditorContainer := v; sash := sash h |}.

Definition set_sash v (h : Host) : Host :=
  {| input := input h; options := options h; visible := visible h;
     position := position h; dimension := dimension h;
     masterEditor := masterEditor h;
     masterEditorContainer := masterEditorContainer h;
     detailsEditor := detailsEditor h;
     detailsEditorContainer := detailsEditorContainer h; sash := v |}.

Definition with_host (f : Host -> Host) (w : World) : World :=
  {| host := f (host w); dom := dom w; trace := trace w;
     nextEditor := nextEditor w; promises := promises w; joins := joins w |}.

Definition with_dom (f : Dom -> Dom) (w : World) : World :=
  {| host := host w; dom := f (dom w); trace := trace w;
     nextEditor := nextEditor w; promises := promises w; joins := joins w |}.

Definition with_trace (f : list Event -> list Event) (w : World) : World :=
  {| host := host w; dom := dom w; trace := f (trace w);
     nextEditor := nextEditor w; promises := promises w; joins := joins w |}.

Definition with_nextEditor (n : nat) (w : World) : World :=
  {| host := host w; dom := dom w; trace := trace w;
     nextEditor := n; promises := promises w; joins := joins w |}.

Definition with_promises (f : list Pending -> list Pending) (w : World) : World :=
  {| host := host w; dom := dom w; trace := trace w;
     nextEditor := nextEditor w; promises := f (promises w); joins := joins w |}.

Definition with_joins (f : list Join -> list Join) (w : World) : World :=
  {| host := host w; dom := dom w; trace := trace w;
     nextEditor := nextEditor w; promises := promises w; joins := f (joins w) |}.

(** ** The monad of a method body: state, and exceptions that keep the
    state reached when they are thrown. *)

Definition M (A : Type) : Type := World -> World * Result A.

Definition ret {A} (a : A) : M A := fun w => (w, Return a).
Definition throw {A} (e : Error) : M A := fun w => (w, Throw e).
Definition bind {A B} (m : M A) (k : A -> M B) : M B :=
  fun w => match m w with
           | (w', Return a) => k a w'
           | (w', Throw e) => (w', Throw e)
           end.

Notation "'let*' x ':=' m 'in' k" := (bind m (fun x => k))
  (at level 10, x name, m at level 100, k at level 200).
Notation "m '>>' k" := (bind m (fun _ => k))
  (at level 90, right associativity).

Definition get {A} (f : Host -> A) : M A := fun w => (w, Return (f (host w))).
Definition put (f : Host -> Host) : M unit := fun w => (with_host f w, Return tt).
Definition emit (ev : Event) : M unit :=
  fun w => (with_trace (fun t => t ++ [ev]) w, Return tt).

(** Reading a property of [o]: a [TypeError] when [o] is null. *)
Definition deref {A} (o : option A) : M A :=
  match o with Some a => ret a | None => throw TypeError end.

Definition when_some {A} (o : option A) (k : A -> M unit) : M unit :=
  match o with Some a => k a | None => ret tt end.

(** ** DOM *)

(** [DOM.append(parentElement, DOM.$(...))]: a new element, appended. *)
Definition append_new : M HTMLElement :=
  fun w =>
    let c := nextElement (dom w) in
    let w1 := with_dom (fun d => {| childNodes := childNodes d ++ [c];
                                    styles := <[c := noStyle]> (styles d);
                                    nextElement := S c |}) w in
    (with_trace (fun t => t ++ [AppendChild c]) w1, Return c).

Definition remove_first (c : nat) : list nat -> list nat :=
  fix go l := match l with
              | [] => []
              | x :: r => if Nat.eqb x c then r else x :: go r
              end.

(** [parentContainer.removeChild(c)]. *)
Definition removeChild (c : HTMLElement) : M unit :=
  fun w =>
    if existsb (Nat.eqb c) (childNodes (dom w)) then
      let w1 := with_dom (fun d => {| childNodes := remove_first c (childNodes d);
                                      styles := styles d;
                                      nextElement := nextElement d |}) w in
      (with_trace (fun t => t ++ [RemoveChild c]) w1, Return tt)
    else (w, Throw NotFoundError).

Definition styleOf (c : HTMLElement) (d : Dom) : Style :=
  default noStyle (styles d !! c).

Definition setStyle (c : HTMLElement) (f : Style -> Style) : M unit :=
  fun w => (with_dom (fun d => {| childNodes := childNodes d;
                                  styles := <[c := f (styleOf c d)]> (styles d);
                                  nextElement := nextElement d |}) w, Return tt).

Definition st_position v (s : Style) : Style :=
  {| style_position := v; style_width := style_width s;
     style_height := style_height s; style_left := style_left s |}.
Definition st_width v (s : Style) : Style :=
  {| style_position := style_position s; style_width := Some v;
     style_height := style_height s; style_left := style_left s |}.
Definition st_height v (s : Style) : Style :=
  {| style_position := style_position s; style_width := style_width s;
     style_height := Some v; style_left := style_left s |}.
Definition st_left v (s : Style) : Style :=
  {| style_position := style_position s; style_width := style_width s;
     style_height := style_height s; style_left := Some v |}.

(** ** Calls on the collaborators *)

(** A promise nobody has settled yet is a new entry of the table. *)
Definition newPromise (c : Chain) : M nat :=
  fun w => (with_promises (fun ps => ps ++ [ {| chain := c; listener := None |} ]) w,
            Return (length (promises w))).

(** [editor.setInput(editorInput, options)]: the call, and the promise the
    child answers with. *)
Definition child_setInput (e : Editor) (i : EditorInput) (o : option EditorOptions)
  : M nat :=
  emit (SetInput e i o) >> newPromise (AwaitInput e).

(** ** Methods of [BaseEditor] the class calls through [super] *)

(** Modelled from the spec: [BaseEditor.setInput], which is not part of the
    unit, records the pair as the current input and answers with a
    promise that is already complete. *)
Definition BaseEditor_setInput (newInput : SideBySideEditorInput)
    (opts : option EditorOptions) : M unit :=
  put (set_input (Some newInput)) >> put (set_options opts).

(** Modelled from the spec: [BaseEditor.clearInput] clears the current
    input. *)
Definition BaseEditor_clearInput : M unit :=
  put (set_input None) >> put (set_options None).

(** Modelled from the spec: [BaseEditor.setEditorVisible] records the
    visibility and the position. *)
Definition BaseEditor_setEditorVisible (v : bool) (pos : option Position) : M unit :=
  put (set_visible v) >> put (set_position pos).

(** ** Methods of [SideBySideEditor], in the order of the source *)

Definition setEditorVisible (v : bool) (pos : option Position) : M unit :=
  (let* m := get masterEditor in when_some m (fun e => emit (SetVisible e v))) >>
  (let* d := get detailsEditor in when_some d (fun e => emit (SetVisible e v))) >>
  BaseEditor_setEditorVisible v pos.

Definition focus : M unit :=
  let* m := get masterEditor in when_some m (fun e => emit (Focus e)).

Definition dolayout (splitPoint : number) : M unit :=
  let* d := get detailsEditor in
  let* m := get masterEditor in
  match d, m with
  | Some detailsE, Some masterE =>
      let* dim := (let* o := get dimension in deref o) in
      let masterEditorWidth := subtract (width dim) splitPoint in
      let detailsEditorWidth := subtract (width dim) masterEditorWidth in
      let* dc := (let* o := get detailsEditorContainer in deref o) in
      setStyle dc (st_width detailsEditorWidth) >>
      setStyle dc (st_height (height dim)) >>
      setStyle dc (st_left (px 0)) >>
      let* mc := (let* o := get masterEditorContainer in deref o) in
      setStyle mc (st_width masterEditorWidth) >>
      setStyle mc (st_height (height dim)) >>
      setStyle mc (st_left splitPoint) >>
      emit (Layout detailsE {| width := detailsEditorWidth; height := height dim |}) >>
      emit (Layout masterE {| width := masterEditorWidth; height := height dim |})
  | _, _ => ret tt
  end.

(** [layout]: the sash answers [setDimenesion] by firing the positions the
    constructor subscribed [dolayout] to. *)
Definition layout (dim : Dimension) : M unit :=
  put (set_dimension (Some dim)) >>
  let* s := get sash in
  let (s', fired) := setDimenesion s dim in
  put (set_sash s') >>
  foldr (fun pos k => dolayout pos >> k) (ret tt) fired.

(** The sash was dragged: it is in state [s'] and fires [pos]. *)
Definition onPositionChange (s' : VSash) (pos : number) : M unit :=
  put (set_sash s') >> dolayout pos.

(** [disposeEditors], as written: the block guarded by [masterEditor]
    assigns [this.detailsEditor = null] (line 169 of the source). *)
Definition disposeEditors : M unit :=
  (let* d := get detailsEditor in
   when_some d (fun e => emit (Dispose e) >> put (set_detailsEditor None))) >>
  (let* m := get masterEditor in
   when_some m (fun e => emit (Dispose e) >> put (set_detailsEditor None))) >>
  (let* dc := get detailsEditorContainer in
   when_some dc (fun c => removeChild c >> put (set_detailsEditorContainer None))) >>
  (let* mc := get masterEditorContainer in
   when_some mc (fun c => removeChild c >> put (set_masterEditorContainer None))).

Definition clearInput : M unit :=
  disposeEditors >> BaseEditor_clearInput.

Definition createEditorContainers : M unit :=
  let* dc := append_new in
  put (set_detailsEditorContainer (Some dc)) >>
  setStyle dc (st_position absolute) >>
  let* mc := append_new in
  put (set_masterEditorContainer (Some mc)) >>
  setStyle mc (st_position absolute).

Definition onEditorsCreated (detailsE masterE : Editor) : M unit :=
  put (set_detailsEditor (Some detailsE)) >>
  put (set_masterEditor (Some masterE)) >>
  (let* v := get visible in
   let* pos := get position in
   setEditorVisible v pos) >>
  (let* s := get sash in dolayout (getVerticalSashLeft s)) >>
  focus.

(** [_createEditor]: the container is the element the caller read from the
    field when it made the call. *)
Definition _createEditor (editorInput : EditorInput) (container : option HTMLElement)
    (opts : option EditorOptions) : M EditorPromise :=
  match getEditor editorInput with
  | None => ret (WrapError (NoEditorError editorInput))
  | Some descriptor =>
      emit (CreateInstance descriptor) >>
      let* p := newPromise (AwaitInstance editorInput container opts) in
      ret (Chained p)
  end.

(** The errors a settled member of a join contributes. *)
Definition errorsOf (r : Error + Editor) : list Error :=
  match r with inl e => [e] | inr _ => [] end.

Definition setResult (j : nat) (r : list Error + unit) : World -> World :=
  with_joins (alter (fun jn => {| joinDetails := joinDetails jn;
                                  joinMaster := joinMaster jn;
                                  joinResult := Some r |}) j).

Definition setSide (s : Side) (r : Error + Editor) (jn : Join) : Join :=
  match s with
  | DetailsSide => {| joinDetails := Some r; joinMaster := joinMaster jn;
                      joinResult := joinResult jn |}
  | MasterSide => {| joinDetails := joinDetails jn; joinMaster := Some r;
                     joinResult := joinResult jn |}
  end.

(** Modelled from the spec: [TPromise.join], which is not part of the unit,
    completes once every promise of the array is settled: with the array
    of results when all of them succeeded, with the errors of those that
    failed otherwise.  A continuation chained on a promise runs in the
    same turn in which the promise is settled, and an exception it throws
    is the error of the promise it produces.  Here the continuation is
    [.then(result => this.onEditorsCreated(result[0], result[1]))]. *)
Definition tryComplete (j : nat) (w : World) : World :=
  match joins w !! j with
  | Some {| joinDetails := Some d; joinMaster := Some m; joinResult := None |} =>
      match d, m with
      | inr detailsE, inr masterE =>
          match onEditorsCreated detailsE masterE w with
          | (w', Return _) => setResult j (inr tt) w'
          | (w', Throw e) => setResult j (inl [e]) w'
          end
      | _, _ => setResult j (inl (errorsOf d ++ errorsOf m)) w
      end
  | _ => w
  end.

(** How a member of the array stands when the join is built. *)
Definition memberState (pr : EditorPromise) (w : World) : option (Error + Editor) :=
  match pr with
  | WrapError e => Some (inl e)
  | Chained p => match chain <$> promises w !! p with
                 | Some (Settled r) => Some r
                 | _ => None
                 end
  end.

(** The join chains on a member that is still pending. *)
Definition listen (pr : EditorPromise) (l : nat * Side) : World -> World :=
  match pr with
  | WrapError _ => id
  | Chained p => with_promises (alter (fun pd => {| chain := chain pd;
                                                    listener := Some l |}) p)
  end.

(** [TPromise.join([pd, pm]).then(...)]: the promise [setNewInput]
    returns. *)
Definition join (pd pm : EditorPromise) : M TPromise :=
  fun w =>
    let j := length (joins w) in
    let jn := {| joinDetails := memberState pd w; joinMaster := memberState pm w;
                 joinResult := None |} in
    let w1 := with_joins (fun js => js ++ [jn]) w in
    let w2 := listen pm (j, MasterSide) (listen pd (j, DetailsSide) w1) in
    (tryComplete j w2, Return (Joined j)).

Definition setNewInput (newInput : SideBySideEditorInput)
    (opts : option EditorOptions) : M TPromise :=
  let* dc := get detailsEditorContainer in
  let* pd := _createEditor (details newInput) dc None in
  let* mc := get masterEditorContainer in
  let* pm := _createEditor (master newInput) mc opts in
  join pd pm.

(** [updateInput]: the second branch returns nothing, so the promise of
    the enclosing [then] completes with [undefined]. *)
Definition updateInput (oldInput : option SideBySideEditorInput)
    (newInput : SideBySideEditorInput) (opts : option EditorOptions) : M TPromise :=
  if negb (matches newInput oldInput) then
    when_some oldInput (fun _ => disposeEditors) >>
    createEditorContainers >>
    setNewInput newInput opts
  else
    (let* d := (let* o := get detailsEditor in deref o) in
     child_setInput d (details newInput) None) >>
    (let* m := (let* o := get masterEditor in deref o) in
     child_setInput m (master newInput) opts) >>
    ret Fulfilled.

(** [setInput]: [super.setInput] is complete when it returns, so
    [updateInput] runs in the same turn. *)
Definition setInput (newInput : SideBySideEditorInput)
    (opts : option EditorOptions) (w : World) : World * TPromise :=
  let oldInput := input (host w) in
  match (BaseEditor_setInput newInput opts >>
         updateInput oldInput newInput opts) w with
  | (w', Return p) => (w', p)
  | (w', Throw e) => (w', Rejected [e])
  end.

(** How a promise of [setInput] stands in a world: [None] while pending. *)
Definition outcome (p : TPromise) (w : World) : option (list Error + unit) :=
  match p with
  | Fulfilled => Some (inr tt)
  | Rejected errs => Some (inl errs)
  | Joined j => joins w !! j ≫= joinResult
  end.

(** ** The environment settles promises *)

(** Promise [p] ends with [r]: the join that chained on it, if any, is
    told, and completes in the same turn when [p] was its last pending
    member. *)
Definition finish (p : nat) (l : option (nat * Side)) (r : Error + Editor)
    (w : World) : World :=
  let w1 := with_promises (<[p := {| chain := Settled r; listener := l |}]>) w in
  match l with
  | Some (j, s) => tryComplete j (with_joins (alter (setSide s r) j) w1)
  | None => w1
  end.

(** [settle p r]: promise [p] is settled by its producer, with an error
    or with success.  When [createInstance] succeeds the continuation of
    [_createEditor] runs: the new editor is created inside the container
    and given its input.  [None] when [p] is not pending. *)
Definition settle (p : nat) (r : Error + unit) (w : World) : option World :=
  match promises w !! p with
  | Some {| chain := AwaitInstance i c o; listener := l |} =>
      match r with
      | inl err => Some (finish p l (inl err) w)
      | inr _ =>
          let e := nextEditor w in
          Some (with_promises (<[p := {| chain := AwaitInput e; listener := l |}]>)
                  (with_trace (fun t => t ++ [Create e c; SetInput e i o])
                     (with_nextEditor (S e) w)))
      end
  | Some {| chain := AwaitInput e; listener := l |} =>
      Some (finish p l (match r with inl err => inl err | inr _ => inr e end) w)
  | _ => None
  end.

(** Promises settled one after the other. *)
Fixpoint settleAll (sched : list (nat * (Error + unit))) (w : World) : option World :=
  match sched with
  | [] => Some w
  | (p, r) :: rest => settle p r w ≫= settleAll rest
  end.

(** The editor after [createEditor], before any input: [s] is the sash
    [new VSash(parentElement, 220)] built. *)
Definition created (s : VSash) : World :=
  {| host := {| input := None; options := None; visible := false;
                position := None; dimension := None;
                masterEditor := None; masterEditorContainer := None;
                detailsEditor := None; detailsEditorContainer := None;
                sash := s |};
     dom := {| childNodes := []; styles := ∅; nextElement := 0 |};
     trace := []; nextEditor := 0; promises := []; joins := [] |}.

(** ** Vocabulary of the statements *)

(** A succession of [setInput] calls, each made when the previous one has
    returned, and the promises they return. *)
Fixpoint setInputs (calls : list (SideBySideEditorInput * option EditorOptions))
    (w : World) : World * list TPromise :=
  match calls with
  | [] => (w, [])
  | (i, o) :: rest =>
      let (w1, p) := setInput i o w in
      let (w2, ps) := setInputs rest w1 in
      (w2, p :: ps)
  end.

(** Every call of the succession brings a pair that matches the input
    current when it is made. *)
Fixpoint eachMatches (cur : option SideBySideEditorInput)
    (calls : list (SideBySideEditorInput * option EditorOptions)) : Prop :=
  match calls with
  | [] => True
  | (i, _) :: rest => matches i cur = true /\ eachMatches (Some i) rest
  end.

(** What the reuse branch of [updateInput] asks of the two children. *)
Definition delivered (d m : Editor)
    (call : SideBySideEditorInput * option EditorOptions) : list Event :=
  [SetInput d (details call.1) None; SetInput m (master call.1) call.2].

(** The rectangle a container has been given: its [left], [width] and
    [height] styles, once all three are set. *)
Record Region := { left : number; rwidth : number; rheight : number }.

Definition regionOf (c : HTMLElement) (d : Dom) : option Region :=
  let s := styleOf c d in
  match style_left s, style_width s, style_height s with
  | Some l, Some w, Some h => Some {| left := l; rwidth := w; rheight := h |}
  | _, _, _ => None
  end.

(** An event other than the disposal of a child. *)
Definition notDispose (ev : Event) : Prop :=
  match ev with Dispose _ => False | _ => True end.

Definition isDispose (e : Editor) (ev : Event) : bool :=
  match ev with Dispose e' => Nat.eqb e e' | _ => false end.

(** How often child [e] has been disposed. *)
Definition disposals (e : Editor) (t : list Event) : nat :=
  length (List.filter (isDispose e) t).

(** The child a call is made on. *)
Definition subject (ev : Event) : option Editor :=
  match ev with
  | Dispose e | SetVisible e _ | Focus e | Layout e _ | Create e _
  | SetInput e _ _ => Some e
  | CreateInstance _ | AppendChild _ | RemoveChild _ => None
  end.

(** The calls made on child [e], in order. *)
Definition callsOn (e : Editor) (t : list Event) : list Event :=
  List.filter (fun ev => match subject ev with
                         | Some e' => Nat.eqb e e'
                         | None => false
                         end) t.

Definition isShown (e : Editor) (ev : Event) : bool :=
  match ev with SetVisible e' true => Nat.eqb e e' | _ => false end.

(** [stable R m]: [R] relates every world to the world [m] leaves. *)
Definition stable {A} (R : relation World) (m : M A) : Prop :=
  forall w, R w (fst (m w)).

(** A relation between worlds that tolerates everything a method body can
    do except the events [permits] rules out and the field updates
    [keeps] rules out. *)
Class Frame (R : relation World) (permits : Event -> Prop)
    (keeps : (Host -> Host) -> Prop) := {
  frame_preorder :: PreOrder R;
  frame_dom f w : R w (with_dom f w);
  frame_promises f w : R w (with_promises f w);
  frame_joins f w : R w (with_joins f w);
  frame_emit ev w : permits ev -> R w (with_trace (fun t => t ++ [ev]) w);
  frame_put f w : keeps f -> R w (with_host f w)
}.

(** [grows P w w']: from [w] to [w'] the sash is untouched and the trace
    has grown by events that all satisfy [P]. *)
Definition grows (P : Event -> Prop) (w w' : World) : Prop :=
  sash (host w') = sash (host w) /\
  exists evs, trace w' = trace w ++ evs /\ Forall P evs.

(** [samePair w w']: the current input and the two child slots are the
    same in [w'] as in [w]. *)
Definition samePair (w w' : World) : Prop :=
  input (host w') = input (host w) /\
  detailsEditor (host w') = detailsEditor (host w) /\
  masterEditor (host w') = masterEditor (host w).

(** [sameMaster w w']: the master slot holds the same reference in [w']
    as in [w]. *)
Definition sameMaster (w w' : World) : Prop :=
  masterEditor (host w') = masterEditor (host w).

Definition keepsMaster (f : Host -> Host) : Prop :=
  forall h, masterEditor (f h) = masterEditor h.

Definition keepsSash (f : Host -> Host) : Prop := forall h, sash (f h) = sash h.

Definition keepsPair (f : Host -> Host) : Prop :=
  forall h, input (f h) = input h /\ detailsEditor (f h) = detailsEditor h /\
            masterEditor (f h) = masterEditor h.

(** The second half of [disposeEditors] (the two containers) followed by
    what [updateInput] does next on its first branch. *)
Definition afterChildrenDisposed (newInput : SideBySideEditorInput)
    (opts : option EditorOptions) : M TPromise :=
  ((let* dc := get detailsEditorContainer in
    when_some dc (fun c => removeChild c >> put (set_detailsEditorContainer None))) >>
   (let* mc := get masterEditorContainer in
    when_some mc (fun c => removeChild c >> put (set_masterEditorContainer None)))) >>
  createEditorContainers >>
  setNewInput newInput opts.

(** The world in which the rest of a non-matching [setInput] runs once
    the two old children have been disposed. *)
Definition childrenDisposed (newInput : SideBySideEditorInput)
    (opts : option EditorOptions) (d m : Editor) (w : World) : World :=
  with_trace (fun t => t ++ [Dispose d; Dispose m])
    (with_host (fun h => set_detailsEditor None
                           (set_options opts (set_input (Some newInput) h))) w).

(** The result a pending promise ends with when its producer answers [r];
    [None] when the answer does not end it (a new instance still has to
    take its input) or when it has ended already. *)
Definition settledAs (c : Chain) (r : Error + unit) : option (Error + Editor) :=
  match c, r with
  | AwaitInstance _ _ _, inl err => Some (inl err)
  | AwaitInstance _ _ _, inr _ => None
  | AwaitInput _, inl err => Some (inl err)
  | AwaitInput e, inr _ => Some (inr e)
  | Settled _, _ => None
  end.

(** A join of which both sides are settled and that has not completed. *)
Definition bothSettled (rd rm : Error + Editor) : Join :=
  {| joinDetails := Some rd; joinMaster := Some rm; joinResult := None |}.

(** The promise [_createEditor] returns for the input of side [s]. *)
Definition sideInput (s : Side) (i : SideBySideEditorInput) : EditorInput :=
  match s with DetailsSide => details i | MasterSide => master i end.

Definition sideResult (s : Side) (jn : Join) : option (Error + Editor) :=
  match s with DetailsSide => joinDetails jn | MasterSide => joinMaster jn end.

(** What [onEditorsCreated] does once the two children are stored and
    given the visibility of the host: layout at the sash, then focus. *)
Definition afterCommit : M unit :=
  (let* s := get sash in dolayout (getVerticalSashLeft s)) >> focus.

(** The world in which [afterCommit] runs. *)
Definition committed (d m : Editor) (w : World) : World :=
  with_trace (fun t => t ++ [SetVisible m (visible (host w));
                             SetVisible d (visible (host w))])
    (with_host (fun h => set_masterEditor (Some m) (set_detailsEditor (Some d) h)) w).

(** ** The rest of the class, and the vocabulary of its properties *)

(** [getControl]: the control of the master child, [null] without one.
    The control of a child is named by the child. *)
Definition getControl : M (option Editor) := get masterEditor.

(** The last two blocks of [disposeEditors]: the two containers. *)
Definition removeContainers : M unit :=
  (let* dc := get detailsEditorContainer in
   when_some dc (fun c => removeChild c >> put (set_detailsEditorContainer None))) >>
  (let* mc := get masterEditorContainer in
   when_some mc (fun c => removeChild c >> put (set_masterEditorContainer None))).

(** What the workbench, the sash and the producers of promises can do to
    the editor. *)
Inductive Action :=
| ASetInput (i : SideBySideEditorInput) (o : option EditorOptions)
| AClearInput
| ASetEditorVisible (v : bool) (pos : option Position)
| AFocus
| ALayout (dim : Dimension)
| ADrag (s' : VSash) (pos : number)
| ASettle (p : nat) (r : Error + unit).

(** One action; [None] when a promise that is not pending is settled. *)
Definition act (a : Action) (w : World) : option World :=
  match a with
  | ASetInput i o => Some (fst (setInput i o w))
  | AClearInput => Some (fst (clearInput w))
  | ASetEditorVisible v pos => Some (fst (setEditorVisible v pos w))
  | AFocus => Some (fst (focus w))
  | ALayout dim => Some (fst (layout dim w))
  | ADrag s' pos => Some (fst (onPositionChange s' pos w))
  | ASettle p r => settle p r w
  end.

Fixpoint run (acts : list Action) (w : World) : option World :=
  match acts with
  | [] => Some w
  | a :: rest => act a w ≫= run rest
  end.

(** The actions that concern the geometry: a resize and a drag. *)
Definition isResize (a : Action) : bool :=
  match a with ALayout _ | ADrag _ _ => true | _ => false end.

(** The part of a world the containers live in: the two container fields,
    the child nodes of the parent and the next fresh element. *)
Definition shapeOf (w : World)
  : option HTMLElement * option HTMLElement * list HTMLElement * nat :=
  (detailsEditorContainer (host w), masterEditorContainer (host w),
   childNodes (dom w), nextElement (dom w)).

Definition keepsShape {A} (m : M A) : Prop :=
  forall w, shapeOf (fst (m w)) = shapeOf w.

Definition keepsContainers (f : Host -> Host) : Prop :=
  forall h, detailsEditorContainer (f h) = detailsEditorContainer h /\
            masterEditorContainer (f h) = masterEditorContainer h.

(** The containers the host holds are child nodes of the parent, distinct
    from each other; the child nodes are distinct and older than the next
    fresh element. *)
Record wfDom (w : World) : Prop := {
  wf_nodup : NoDup (childNodes (dom w));
  wf_fresh : Forall (fun c => c < nextElement (dom w)) (childNodes (dom w));
  wf_details : forall c, detailsEditorContainer (host w) = Some c ->
                         c ∈ childNodes (dom w);
  wf_master : forall c, masterEditorContainer (host w) = Some c ->
                        c ∈ childNodes (dom w);
  wf_distinct : forall a b, detailsEditorContainer (host w) = Some a ->
                            masterEditorContainer (host w) = Some b -> a <> b
}.

Definition preservesWf {A} (m : M A) : Prop :=
  forall w, wfDom w -> wfDom (fst (m w)).

(** [sameGeometry w w']: the stored dimension and the sash are the same
    in [w'] as in [w]. *)
Definition sameGeometry (w w' : World) : Prop :=
  sash (host w') = sash (host w) /\ dimension (host w') = dimension (host w).

Definition keepsGeometry (f : Host -> Host) : Prop :=
  forall h, sash (f h) = sash h /\ dimension (f h) = dimension h.

Definition anyEvent (ev : Event) : Prop := True.

(** The two rectangles of a host of dimension [dim] split at [p], with
    the widths as [dolayout] computes them. *)
Definition detailsRegion (dim : Dimension) (p : number) : Region :=
  {| left := px 0;
     rwidth := subtract (width dim) (subtract (width dim) p);
     rheight := height dim |}.

Definition masterRegion (dim : Dimension) (p : number) : Region :=
  {| left := p; rwidth := subtract (width dim) p; rheight := height dim |}.

(** The calls [dolayout p] makes on the two children. *)
Definition layoutCalls (d m : Editor) (dim : Dimension) (p : number) : list Event :=
  [Layout d {| width := subtract (width dim) (subtract (width dim) p);
               height := height dim |};
   Layout m {| width := subtract (width dim) p; height := height dim |}].

(** The child nodes once the element a field refers to, if any, is
    removed. *)
Definition without (o : option HTMLElement) (l : list HTMLElement)
  : list HTMLElement :=
  match o with Some c => remove_first c l | None => l end.

(** The calls of a teardown on a host [h], in the order of
    [disposeEditors]. *)
Definition teardownCalls (h : Host) : list Event :=
  match detailsEditor h with Some e => [Dispose e] | None => [] end ++
  match masterEditor h with Some e => [Dispose e] | None => [] end ++
  match detailsEditorContainer h with Some c => [RemoveChild c] | None => [] end ++
  match masterEditorContainer h with Some c => [RemoveChild c] | None => [] end.

(** The world [createEditorContainers] leaves: statement by statement,
    the details container appended, stored and positioned, then the
    master container. *)
Definition containersCreated (w : World) : World :=
  let nx := nextElement (dom w) in
  let w1 := with_trace (fun t => t ++ [AppendChild nx])
              (with_dom (fun d => {| childNodes := childNodes d ++ [nx];
                                     styles := <[nx := noStyle]> (styles d);
                                     nextElement := S nx |}) w) in
  let w2 := with_host (set_detailsEditorContainer (Some nx)) w1 in
  let w3 := fst (setStyle nx (st_position absolute) w2) in
  let w4 := with_trace (fun t => t ++ [AppendChild (S nx)])
              (with_dom (fun d => {| childNodes := childNodes d ++ [S nx];
                                     styles := <[S nx := noStyle]> (styles d);
                                     nextElement := S (S nx) |}) w3) in
  let w5 := with_host (set_masterEditorContainer (Some (S nx))) w4 in
  fst (setStyle (S nx) (st_position absolute) w5).

(** The world one layout pass at [p] leaves when the host has both
    children [d] and [m], the dimension [dim] and the containers [dc]
    and [mc]. *)
Definition laidOut (d m : Editor) (dim : Dimension) (p : number)
    (dc mc : HTMLElement) (w : World) : World :=
  let mw := subtract (width dim) p in
  let dw := subtract (width dim) mw in
  let w1 := fst (setStyle dc (st_width dw) w) in
  let w2 := fst (setStyle dc (st_height (height dim)) w1) in
  let w3 := fst (setStyle dc (st_left (px 0)) w2) in
  let w4 := fst (setStyle mc (st_width mw) w3) in
  let w5 := fst (setStyle mc (st_height (height dim)) w4) in
  let w6 := fst (setStyle mc (st_left p) w5) in
  with_trace (fun t => t ++ [Layout m {| width := mw; height := height dim |}])
    (with_trace (fun t => t ++ [Layout d {| width := dw; height := height dim |}])
       w6).

(** [sameInput w w']: the current input and its options are the same in
    [w'] as in [w]. *)
Definition sameInput (w w' : World) : Prop :=
  input (host w') = input (host w) /\ options (host w') = options (host w).

Definition keepsInput (f : Host -> Host) : Prop :=
  forall h, input (f h) = input h /\ options (f h) = options h.

(** The actions that concern the current input. *)
Definition isInputChange (a : Action) : bool :=
  match a with ASetInput _ _ | AClearInput => true | _ => false end.

(** The containers a host holds, details before master. *)
Definition heldContainers (h : Host) : list HTMLElement :=
  option_list (detailsEditorContainer h) ++ option_list (masterEditorContainer h).

(** The parent holds the containers of the host and nothing else, and a
    host without current input holds none. *)
Record tidy (w : World) : Prop := {
  tidy_nodes : childNodes (dom w) = heldContainers (host w);
  tidy_idle : input (host w) = None ->
              detailsEditorContainer (host w) = None /\
              masterEditorContainer (host w) = None
}.

(** [slotsKept w w']: a master slot that is set in [w] is set in [w'],
    and if in [w] the details slot is only set together with the master
    slot, so it is in [w']. *)
Definition slotsKept (w w' : World) : Prop :=
  (is_Some (masterEditor (host w)) -> is_Some (masterEditor (host w'))) /\
  ((is_Some (detailsEditor (host w)) -> is_Some (masterEditor (host w))) ->
   is_Some (detailsEditor (host w')) -> is_Some (masterEditor (host w'))).

Definition keepsSlots (f : Host -> Host) : Prop :=
  forall h, masterEditor (f h) = masterEditor h /\
            (detailsEditor (f h) = detailsEditor h \/ detailsEditor (f h) = None).

(** The result a promise of the table holds once it is settled. *)
Definition resultOf (c : Chain) : option (Error + Editor) :=
  match c with Settled r => Some r | _ => None end.

(** [creating pd pm j sd sm w]: join [j] has not completed and listens to
    the promises [pd] (details side) and [pm] (master side), which stand
    at [sd] and [sm]. *)
Record creating (pd pm j : nat) (sd sm : Chain) (w : World) : Prop := {
  cr_details : promises w !! pd
               = Some {| chain := sd; listener := Some (j, DetailsSide) |};
  cr_master : promises w !! pm
              = Some {| chain := sm; listener := Some (j, MasterSide) |};
  cr_distinct : pd <> pm;
  cr_join : joins w !! j
            = Some {| joinDetails := resultOf sd; joinMaster := resultOf sm;
                      joinResult := None |}
}.

(** The orders in which the producers can answer for the two promises
    [pd] (details side) and [pm] (master side) of one [setNewInput]: each
    is answered twice, for the instance and for its input. *)
Definition settlementOrders (pd pm : nat) : list (list Action) :=
  let d := ASettle pd (inr tt) in
  let m := ASettle pm (inr tt) in
  [[d; d; m; m]; [d; m; d; m]; [d; m; m; d];
   [m; m; d; d]; [m; d; m; d]; [m; d; d; m]].

End SideBySideEditor.

Notation "'let*' x ':=' m 'in' k" := (bind m (fun x => k))
  (at level 10, x name, m at level 100, k at level 200).
Notation "m '>>' k" := (bind m (fun _ => k))
  (at level 90, right associativity).

(** ** A workbench to run the editor in *)

(** Modelled from the spec: the [matches] of the pair, which is not part
    of the unit, is value equality of the two descriptors; no pair
    matches an absent input. *)
Definition valueEquality (a : SideBySideEditorInput)
    (b : option SideBySideEditorInput) : bool :=
  match b with
  | Some b => Nat.eqb (details a) (details b) && Nat.eqb (master a) (master b)
  | None => false
  end.

(** A registry that knows an editor for the inputs below 100 only. *)
Definition registry (i : EditorInput) : option EditorDescriptor :=
  if Nat.ltb i 100 then Some (1000 + i) else None.

(** A sash that is its position, and fires it whenever it is resized. *)
Definition workbench : Collaborators :=
  {| matches := valueEquality; getEditor := registry; VSash := number;
     getVerticalSashLeft := fun s => s;
     setDimenesion := fun s _ => (s, [s]) |}.

Definition exec {A} (m : @M workbench A) (w : @World workbench) : @World workbench :=
  fst (m w).

Definition settled (sched : list (nat * (Error + unit))) (w : @World workbench)
  : @World workbench :=
  default w (settleAll sched w).

Definition ok : Error + unit := inr tt.

Definition pairA : SideBySideEditorInput := {| details := 1; master := 2 |}.
Definition pairB : SideBySideEditorInput := {| details := 3; master := 4 |}.
(** A pair whose details input has no registered editor. *)
Definition pairU : SideBySideEditorInput := {| details := 100; master := 5 |}.

(** The editor created, made visible and laid out at 800 x 600 with the
    sash at 220. *)
Definition opened : @World workbench :=
  exec (layout {| width := px 800; height := px 600 |})
    (exec (setEditorVisible true (Some LEFT)) (@created workbench (px 220))).

(** [pairA] is shown: its two children (editors 0 and 1) are created in
    the containers 0 and 1. *)
Definition showingA : @World workbench :=
  settled [(0, ok); (1, ok); (0, ok); (1, ok)]
    (fst (setInput pairA (Some 7) opened)).

(** [setInput pairA] then [setInput pairB] before any promise is settled;
    the four promises of [pairB] (2 and 3, twice) are settled first, so
    that its children (editors 0 and 1) are committed, then all promises
    of [pairA] but the last. *)
Definition raceBcommitted : @World workbench :=
  settled [(2, ok); (3, ok); (2, ok); (3, ok)]
    (fst (setInput pairB None (fst (setInput pairA (Some 7) opened)))).

Definition raceBeforeLast : @World workbench :=
  settled [(0, ok); (1, ok); (0, ok)] raceBcommitted.

(** The same race with every promise settled. *)
Definition raceOver : @World workbench := settled [(1, ok)] raceBeforeLast.

(** [setInput pairU] on the editor that shows [pairA]; then the instance
    for its master side exists and is taking its input (promise 2). *)
Definition askedU : @World workbench := fst (setInput pairU None showingA).

Definition askedUcreated : @World workbench := settled [(2, ok)] askedU.

(** [setInput] again with [pairA] on the editor that shows [pairA]: the
    reuse branch; the promises 2 and 3 are those of the two children. *)
Definition reusedA : @World workbench := fst (setInput pairA (Some 8) showingA).

(** A child created by a superseded call is discarded: disposed, in no
    slot of the host, never made visible. *)
Definition discarded (e : Editor) (w : @World workbench) : Prop :=
  disposals e (trace w) = 1 /\
  detailsEditor (host w) <> Some e /\
  masterEditor (host w) <> Some e /\
  existsb (isShown e) (trace w) = false.

(** The actions that lead from [createEditor] to [opened], and on to
    [showingA]. *)
Definition opening : list (@Action workbench) :=
  [ASetEditorVisible true (Some LEFT); ALayout {| width := px 800; height := px 600 |}].

Definition showing : list (@Action workbench) :=
  opening ++ [ASetInput pairA (Some 7); ASettle 0 ok; ASettle 1 ok;
              ASettle 0 ok; ASettle 1 ok].

(** The world a succession of actions leaves. *)
Definition after (acts : list (@Action workbench)) (w : @World workbench)
  : @World workbench :=
  default w (run acts w).

(** [setInput pairA] on the opened editor, no promise settled yet. *)
Definition askedA : @World workbench := fst (setInput pairA (Some 7) opened).

(** All promises of [pairA] are settled but the last. *)
Definition beforeLastA : @World workbench :=
  settled [(0, ok); (1, ok); (0, ok)] askedA.

(** The same on an editor that has never been laid out. *)
Definition unsizedBeforeLastA : @World workbench :=
  settled [(0, ok); (1, ok); (0, ok)]
    (fst (setInput pairA (Some 7) (@created workbench (px 220)))).

(** Things that happen to the editor that shows [pairA]: another pair is
    asked for and one of its instances arrives, the input is cleared; and
    a resize, a drag and a change of visibility. *)
Definition replacing : list (@Action workbench) :=
  [ASetInput pairB None; ASettle 2 ok; AClearInput; AFocus].

Definition resizing : list (@Action workbench) :=
  [ALayout {| width := px 1024; height := px 768 |}; AFocus;
   @ADrag workbench (px 300) (px 300);
   ASetEditorVisible false None].




(** [setInput pairA], then [clearInput] before any promise is settled,
    then the four promises of [pairA] are settled: its children (editors
    0 and 1) are committed on an editor without current input. *)
Definition orphaning : list (@Action workbench) :=
  opening ++ [ASetInput pairA (Some 7); AClearInput; ASettle 0 ok; ASettle 1 ok;
              ASettle 0 ok; ASettle 1 ok].

Definition orphaned : @World workbench := after orphaning (@created workbench (px 220)).

(** [setInput pairB] on it, and its four promises (2 and 3) settled. *)
Definition orphanedThenB : @World workbench :=
  settled [(2, ok); (3, ok); (2, ok); (3, ok)]
    (fst (setInput pairB None orphaned)).

(** Symbolic execution of a method body. *)
Ltac mrun :=
  cbv [bind get put emit ret throw deref when_some setStyle
       with_host with_dom with_trace with_promises with_joins with_nextEditor];
  simpl.

(** Execution of a method body that leaves the maps and the arithmetic
    alone. *)
Ltac run_cbv :=
  cbv [bind get put emit ret throw deref when_some setStyle append_new newPromise
       with_host with_dom with_trace with_promises with_joins with_nextEditor
       host dom trace nextEditor promises joins
       input options visible position dimension masterEditor masterEditorContainer
       detailsEditor detailsEditorContainer sash childNodes styles nextElement
       set_input set_options set_visible set_position set_dimension
       set_masterEditor set_masterEditorContainer set_detailsEditor
       set_detailsEditorContainer set_sash fst snd].

(** The four answers of one order, each by the lemma of its step. *)
Ltac four_answers l1 l2 l3 l4 Hc :=
  edestruct l1 as (w1 & Hs1 & Hc1 & Hh1 & Hd1 & Ht1 & Hn1);
    [exact Hc|try reflexivity..|];
  edestruct l2 as (w2 & Hs2 & Hc2 & Hh2 & Hd2 & Ht2 & Hn2);
    [exact Hc1|try reflexivity..|];
  edestruct l3 as (w3 & Hs3 & Hc3 & Hh3 & Hd3 & Ht3 & Hn3);
    [exact Hc2|try reflexivity..|];
  edestruct l4 as (w4 & Hs4 & Ho & Hh4 & Ht4 & Hrd & Hrm & Hn4);
    [exact Hc3|rewrite ?Hh3, ?Hh2, ?Hh1; eassumption..|];
  exists w4; eexists _, _, _;
  split; [cbn [run act]; rewrite Hs1; cbn [mbind option_bind];
          rewrite Hs2; cbn [mbind option_bind];
          rewrite Hs3; cbn [mbind option_bind];
          rewrite Hs4; reflexivity|];
  split; [exact Ho|];
  rewrite Hh4, Ht4, Hrd, Hrm, Hn4, ?Hd3, ?Hd2, ?Hd1, ?Hh3, ?Ht3, ?Hn3,
    ?Hh2, ?Ht2, ?Hn2, ?Hh1, ?Ht1, ?Hn1.

#[global] Hint Mode Frame - ! - - : typeclass_instances.

(** ** Whole numbers in the arithmetic of the source

    Rounding leaves a whole number of at most 53 bits as it is, so that
    on such numbers [subtract] and [plus] are the subtraction and the
    addition of integers. *)

Section Arithmetic.

Lemma iter_pos_iter {A} (f : A -> A) n : forall x,
  SpecFloat.iter_pos f n x = Nat.iter (Pos.to_nat n) f x.
Proof.
  induction n as [n IH|n IH|]; intros x; cbn [SpecFloat.iter_pos].
  - rewrite !IH, Pos2Nat.inj_xI, Nat.iter_succ_r.
    replace (2 * Pos.to_nat n) with (Pos.to_nat n + Pos.to_nat n) by lia.
    by rewrite Nat.iter_add.
  - rewrite !IH, Pos2Nat.inj_xO.
    replace (2 * Pos.to_nat n) with (Pos.to_nat n + Pos.to_nat n) by lia.
    by rewrite Nat.iter_add.
  - reflexivity.
Qed.

Lemma pos_iter_shl z d : Pos.iter xO z d = shl z (Pos.to_nat d).
Proof. unfold shl. apply Pos2Nat.inj_iter. Qed.

Lemma digits_shl z n :
  Z.pos (digits2_pos (shl z n)) = (Z.pos (digits2_pos z) + Z.of_nat n)%Z.
Proof.
  unfold shl. induction n as [|n IH]; [simpl; lia|].
  rewrite Nat.iter_succ. cbn [digits2_pos]. lia.
Qed.

Lemma shl_add z a b : shl (shl z a) b = shl z (a + b).
Proof. unfold shl. by rewrite Nat.add_comm, Nat.iter_add. Qed.

Lemma shr_shl z n :
  Nat.iter n shr_1 {| shr_m := Z.pos (shl z n); shr_r := false; shr_s := false |}
  = {| shr_m := Z.pos z; shr_r := false; shr_s := false |}.
Proof.
  revert z. induction n as [|n IH]; intros z; [done|].
  rewrite Nat.iter_succ_r. unfold shl. rewrite Nat.iter_succ. simpl shr_1.
  apply IH.
Qed.

Lemma fexp_normal d : (1 <= d)%Z -> fexp 53 1024 d = (d - 53)%Z.
Proof. unfold fexp, emin. lia. Qed.

Lemma binary_round_aux_shl s T n e :
  Z.pos (digits2_pos T) = 53%Z -> (-1074 <= e <= 971)%Z ->
  binary_round_aux 53 1024 s (Z.pos (shl T n)) (e - Z.of_nat n) loc_Exact
  = S754_finite s T e.
Proof.
  intros HT He. unfold binary_round_aux.
  assert (Hfirst : shr_fexp 53 1024 (Z.pos (shl T n)) (e - Z.of_nat n) loc_Exact
                   = ({| shr_m := Z.pos T; shr_r := false; shr_s := false |}, e)).
  { unfold shr_fexp. cbn [Zdigits2 shr_record_of_loc].
    rewrite digits_shl, HT.
    replace (53 + Z.of_nat n + (e - Z.of_nat n))%Z with (53 + e)%Z by lia.
    unfold fexp, emin.
    replace (Z.max (53 + e - 53) (3 - 1024 - 53) - (e - Z.of_nat n))%Z
      with (Z.of_nat n) by lia.
    destruct n as [|n].
    - simpl. f_equal. lia.
    - change (Z.of_nat (S n)) with (Z.pos (Pos.of_succ_nat n)).
      cbn [shr]. rewrite iter_pos_iter, SuccNat2Pos.id_succ, shr_shl.
      f_equal. lia. }
  rewrite Hfirst. cbn [shr_m loc_of_shr_record round_nearest_even].
  assert (Hsecond : shr_fexp 53 1024 (Z.pos T) e loc_Exact
                    = ({| shr_m := Z.pos T; shr_r := false; shr_s := false |}, e)).
  { unfold shr_fexp. cbn [Zdigits2 shr_record_of_loc]. rewrite HT.
    unfold fexp, emin.
    replace (Z.max (53 + e - 53) (3 - 1024 - 53) - e)%Z with 0%Z by lia.
    reflexivity. }
  rewrite Hsecond. cbn [shr_m].
  destruct (Z.leb_spec e (1024 - 53)); [done|lia].
Qed.

Lemma binary_round_shl s z k :
  (Z.pos (digits2_pos z) <= 53)%Z ->
  binary_round 53 1024 s (shl z k) (- Z.of_nat k) = normal s z.
Proof.
  intros Hz. unfold binary_round, normal.
  set (D := Pos.to_nat (digits2_pos z)).
  assert (HD : Z.of_nat D = Z.pos (digits2_pos z)) by (subst D; lia).
  set (T := shl z (53 - D)).
  assert (HT : Z.pos (digits2_pos T) = 53%Z) by (subst T; rewrite digits_shl; lia).
  rewrite digits_shl.
  replace (Z.pos (digits2_pos z) + Z.of_nat k + - Z.of_nat k)%Z
    with (Z.pos (digits2_pos z)) by lia.
  rewrite fexp_normal by lia. unfold shl_align.
  destruct (Z.pos (digits2_pos z) - 53 - - Z.of_nat k)%Z as [|n|d] eqn:E.
  - replace (shl z k) with (shl T (k - (53 - D)))
      by (subst T; rewrite shl_add; f_equal; lia).
    replace (- Z.of_nat k)%Z
      with (Z.pos (digits2_pos z) - 53 - Z.of_nat (k - (53 - D)))%Z by lia.
    apply binary_round_aux_shl; [done|lia].
  - replace (shl z k) with (shl T (k - (53 - D)))
      by (subst T; rewrite shl_add; f_equal; lia).
    replace (- Z.of_nat k)%Z
      with (Z.pos (digits2_pos z) - 53 - Z.of_nat (k - (53 - D)))%Z by lia.
    apply binary_round_aux_shl; [done|lia].
  - rewrite pos_iter_shl, shl_add.
    replace (k + Pos.to_nat d) with (53 - D) by lia. fold T.
    replace (Z.pos (digits2_pos z) - 53)%Z
      with (Z.pos (digits2_pos z) - 53 - Z.of_nat 0)%Z at 1 by lia.
    change T with (shl T 0) at 1.
    apply binary_round_aux_shl; [done|lia].
Qed.

Lemma px_pos z : (Z.pos (digits2_pos z) <= 53)%Z -> px (Z.pos z) = normal false z.
Proof. intros Hz. apply (binary_round_shl false z 0 Hz). Qed.

Lemma px_neg z : (Z.pos (digits2_pos z) <= 53)%Z -> px (Z.neg z) = normal true z.
Proof. intros Hz. apply (binary_round_shl true z 0 Hz). Qed.

Lemma digits_bound z : (Z.pos z < 2 ^ 53)%Z -> (Z.pos (digits2_pos z) <= 53)%Z.
Proof.
  intros Hz.
  assert (Hsize : digits2_pos z = Pos.size z).
  { clear Hz. induction z as [z IH|z IH|]; simpl; congruence. }
  rewrite Hsize.
  pose proof (Pos.size_le z) as Hle.
  destruct (Z.le_gt_cases (Z.pos (Pos.size z)) 53) as [|Hgt]; [done|exfalso].
  assert (2 ^ 54 <= 2 ^ Z.pos (Pos.size z))%Z by (apply Z.pow_le_mono_r; lia).
  assert (Z.pos (2 ^ Pos.size z) = 2 ^ Z.pos (Pos.size z))%Z
    by (by rewrite Pos2Z.inj_pow).
  assert (Z.pos (2 ^ Pos.size z) <= Z.pos z~0)%Z by (apply Pos2Z.pos_le_pos, Hle).
  lia.
Qed.

Lemma shl_pow z n : Z.pos (shl z n) = (Z.pos z * 2 ^ Z.of_nat n)%Z.
Proof.
  unfold shl. induction n as [|n IH]; [simpl; lia|].
  rewrite Nat.iter_succ, Pos2Z.inj_xO, IH, Nat2Z.inj_succ, Z.pow_succ_r by lia.
  lia.
Qed.

Lemma shl_align_normal z e :
  (Z.pos (digits2_pos z) <= 53)%Z -> (e <= Z.pos (digits2_pos z) - 53)%Z ->
  shl_align (shl z (53 - Pos.to_nat (digits2_pos z)))
    (Z.pos (digits2_pos z) - 53) e
  = (shl z (Z.to_nat (- e)), e).
Proof.
  intros Hz He. unfold shl_align.
  destruct (e - (Z.pos (digits2_pos z) - 53))%Z as [|n|d] eqn:E; [|lia|].
  - f_equal; [f_equal|]; lia.
  - rewrite pos_iter_shl, shl_add. f_equal. f_equal. lia.
Qed.

Lemma px_signed s z : (Z.pos (digits2_pos z) <= 53)%Z -> px (signed s z) = normal s z.
Proof. destruct s; [apply px_neg|apply px_pos]. Qed.

Lemma subtract_normal sa za sb zb :
  (Z.pos (digits2_pos za) <= 53)%Z -> (Z.pos (digits2_pos zb) <= 53)%Z ->
  (Z.abs (signed sa za - signed sb zb) < 2 ^ 53)%Z ->
  subtract (normal sa za) (normal sb zb) = px (signed sa za - signed sb zb).
Proof.
  intros Ha Hb Hab. unfold subtract, normal. cbn [SFsub].
  set (ez := Z.min _ _).
  rewrite !shl_align_normal by (subst ez; lia). cbn [fst].
  set (K := Z.to_nat (- ez)).
  assert (HK : ez = (- Z.of_nat K)%Z) by (subst K ez; lia).
  assert (Hdiff : (cond_Zopp sa (Z.pos (shl za K)) - cond_Zopp sb (Z.pos (shl zb K))
                   = (signed sa za - signed sb zb) * 2 ^ Z.of_nat K)%Z).
  { rewrite !shl_pow. destruct sa, sb; simpl; lia. }
  rewrite Hdiff. clear Hdiff.
  destruct (signed sa za - signed sb zb)%Z as [|c|c] eqn:E.
  - reflexivity.
  - assert (Hc : (Z.pos (digits2_pos c) <= 53)%Z) by (apply digits_bound; lia).
    rewrite <- shl_pow. cbn [binary_normalize]. rewrite HK.
    rewrite binary_round_shl by done. symmetry. by apply px_pos.
  - assert (Hc : (Z.pos (digits2_pos c) <= 53)%Z) by (apply digits_bound; lia).
    replace (Z.neg c * 2 ^ Z.of_nat K)%Z with (Z.neg (shl c K))
      by (rewrite <- !Pos2Z.opp_pos, shl_pow; lia).
    cbn [binary_normalize]. rewrite HK.
    rewrite binary_round_shl by done. symmetry. by apply px_neg.
Qed.

(** On whole numbers of magnitude below 2^53 whose difference is below
    2^53, the subtraction of the source is the subtraction of integers. *)
Lemma subtract_px a b :
  (Z.abs a < 2 ^ 53)%Z -> (Z.abs b < 2 ^ 53)%Z -> (Z.abs (a - b) < 2 ^ 53)%Z ->
  subtract (px a) (px b) = px (a - b).
Proof.
  intros Ha Hb Hab.
  destruct a as [|za|za], b as [|zb|zb]; try reflexivity.
  - rewrite (px_pos zb) by (apply digits_bound; lia).
    change (0 - Z.pos zb)%Z with (Z.neg zb).
    rewrite (px_neg zb) by (apply digits_bound; lia). reflexivity.
  - rewrite (px_neg zb) by (apply digits_bound; lia).
    change (0 - Z.neg zb)%Z with (Z.pos zb).
    rewrite (px_pos zb) by (apply digits_bound; lia). reflexivity.
  - change (Z.pos za - 0)%Z with (Z.pos za).
    rewrite (px_pos za) by (apply digits_bound; lia). reflexivity.
  - rewrite (px_pos za), (px_pos zb) by (apply digits_bound; lia).
    apply (subtract_normal false za false zb); [apply digits_bound; lia..|done].
  - rewrite (px_pos za), (px_neg zb) by (apply digits_bound; lia).
    apply (subtract_normal false za true zb); [apply digits_bound; lia..|done].
  - change (Z.neg za - 0)%Z with (Z.neg za).
    rewrite (px_neg za) by (apply digits_bound; lia). reflexivity.
  - rewrite (px_neg za), (px_pos zb) by (apply digits_bound; lia).
    apply (subtract_normal true za false zb); [apply digits_bound; lia..|done].
  - rewrite (px_neg za), (px_neg zb) by (apply digits_bound; lia).
    apply (subtract_normal true za true zb); [apply digits_bound; lia..|done].
Qed.




End Arithmetic.

Section Properties.

Context `{Collaborators}.

(** ** Geometry *)

Lemma styleOf_insert_eq c s (st : gmap nat Style) cn ne :
  styleOf c {| childNodes := cn; styles := <[c := s]> st; nextElement := ne |} = s.
Proof. unfold styleOf; simpl. by rewrite lookup_insert_eq. Qed.

Lemma styleOf_insert_ne c c' s (st : gmap nat Style) cn ne :
  c <> c' ->
  styleOf c' {| childNodes := cn; styles := <[c := s]> st; nextElement := ne |}
  = styleOf c' {| childNodes := cn; styles := st; nextElement := ne |}.
Proof. intros Hne. unfold styleOf; simpl. by rewrite lookup_insert_ne. Qed.


(** ** Frames: what a computation leaves alone *)

Section Frames.

Context {R : relation World} {permits : Event -> Prop}
  {keeps : (Host -> Host) -> Prop} `{!Frame R permits keeps}.

Lemma stable_ret {A} (a : A) : stable R (ret a).
Proof. intros w. reflexivity. Qed.

Lemma stable_throw {A} e : stable R (@throw _ A e).
Proof. intros w. reflexivity. Qed.

Lemma stable_bind {A B} (m : M A) (k : A -> M B) :
  stable R m -> (forall a, stable R (k a)) -> stable R (bind m k).
Proof.
  intros Hm Hk w. unfold bind. specialize (Hm w).
  destruct (m w) as [w1 [a|e]]; simpl in *; [|done].
  etrans; [exact Hm|apply Hk].
Qed.

Lemma stable_get {A} (f : Host -> A) : stable R (get f).
Proof. intros w. reflexivity. Qed.

Lemma stable_put (f : Host -> Host) : keeps f -> stable R (put f).
Proof. intros Hf w. by apply frame_put. Qed.

Lemma stable_emit ev : permits ev -> stable R (emit ev).
Proof. intros Hev w. by apply frame_emit. Qed.

Lemma stable_deref {A} (o : option A) : stable R (deref o).
Proof. destruct o; [apply stable_ret|apply stable_throw]. Qed.

Lemma stable_when_some {A} (o : option A) (k : A -> M unit) :
  (forall a, stable R (k a)) -> stable R (when_some o k).
Proof. intros Hk. destruct o; [apply Hk|apply stable_ret]. Qed.

Lemma stable_setStyle c f : stable R (setStyle c f).
Proof. intros w. apply frame_dom. Qed.

Lemma stable_newPromise c : stable R (newPromise c).
Proof. intros w. apply frame_promises. Qed.

Lemma stable_append_new : (forall c, permits (AppendChild c)) -> stable R append_new.
Proof.
  intros Hp w. unfold append_new; simpl.
  etrans; [apply frame_dom|]. by apply (frame_emit (AppendChild _)).
Qed.

Lemma stable_removeChild c : permits (RemoveChild c) -> stable R (removeChild c).
Proof.
  intros Hp w. unfold removeChild.
  destruct (existsb _ _); simpl; [|reflexivity].
  etrans; [apply frame_dom|]. by apply (frame_emit (RemoveChild c)).
Qed.

End Frames.

Lemma grows_same P w w' :
  sash (host w') = sash (host w) -> trace w' = trace w -> grows P w w'.
Proof. intros Hs Ht. split; [done|]. exists []. by rewrite app_nil_r. Qed.

#[local] Instance grows_frame P : Frame (grows P) P keepsSash.
Proof.
  split.
  - split.
    + intros w. by apply grows_same.
    + intros w1 w2 w3 [Hs1 (e1 & Ht1 & Hp1)] [Hs2 (e2 & Ht2 & Hp2)].
      split; [congruence|].
      exists (e1 ++ e2). rewrite Ht2, Ht1, <- app_assoc. split; [done|].
      by apply Forall_app.
  - intros f w. by apply grows_same.
  - intros f w. by apply grows_same.
  - intros f w. by apply grows_same.
  - intros ev w Hev. split; [done|]. exists [ev]. split; [done|]. by constructor.
  - intros f w Hf. apply grows_same; [apply Hf|done].
Qed.

#[local] Instance samePair_frame : Frame samePair (fun _ => True) keepsPair.
Proof.
  split; [split|..]; unfold samePair.
  - by intros w.
  - intros w1 w2 w3 (?&?&?) (?&?&?). repeat split; congruence.
  - by intros f w.
  - by intros f w.
  - by intros f w.
  - by intros ev w _.
  - intros f w Hf. apply Hf.
Qed.

#[local] Instance sameMaster_frame : Frame sameMaster (fun _ => True) keepsMaster.
Proof.
  split; [split|..]; unfold sameMaster.
  - by intros w.
  - intros w1 w2 w3 H12 H23. congruence.
  - by intros f w.
  - by intros f w.
  - by intros f w.
  - by intros ev w _.
  - intros f w Hf. apply Hf.
Qed.

Create HintDb stable.
#[local] Hint Extern 1 (stable _ (ret _)) => apply stable_ret : stable.
#[local] Hint Extern 1 (stable _ (throw _)) => apply stable_throw : stable.
#[local] Hint Extern 1 (stable _ (get _)) => apply stable_get : stable.
#[local] Hint Extern 1 (stable _ (deref _)) => apply stable_deref : stable.
#[local] Hint Extern 1 (stable _ (setStyle _ _)) => apply stable_setStyle : stable.
#[local] Hint Extern 1 (stable _ (newPromise _)) => apply stable_newPromise : stable.
#[local] Hint Extern 1 (stable _ (bind _ _)) => apply stable_bind; [|intros] : stable.
#[local] Hint Extern 1 (stable _ (when_some _ _)) =>
  apply stable_when_some; intros : stable.
#[local] Hint Extern 1 (stable _ (put _)) =>
  apply stable_put; intros []; simpl; auto : stable.
#[local] Hint Extern 1 (stable _ (emit _)) => apply stable_emit; simpl; tauto : stable.
#[local] Hint Extern 1 (stable _ append_new) =>
  apply stable_append_new; intros; simpl; tauto : stable.
#[local] Hint Extern 1 (stable _ (removeChild _)) =>
  apply stable_removeChild; simpl; tauto : stable.

(** ** No method but [disposeEditors] disposes a child or moves the sash *)

Lemma stable_dolayout splitPoint : stable (grows notDispose) (dolayout splitPoint).
Proof.
  unfold dolayout.
  apply stable_bind; [auto with stable|intros d].
  apply stable_bind; [auto with stable|intros m].
  destruct d, m; auto 20 with stable.
Qed.

Lemma stable_onEditorsCreated d m :
  stable (grows notDispose) (onEditorsCreated d m).
Proof.
  unfold onEditorsCreated, setEditorVisible, focus, BaseEditor_setEditorVisible.
  pose proof stable_dolayout. auto 30 with stable.
Qed.

Lemma stable_createEditorContainers {R permits keeps} `{!Frame R permits keeps} :
  (forall c, permits (AppendChild c)) ->
  keeps (set_detailsEditorContainer None) ->
  (forall c, keeps (set_detailsEditorContainer (Some c))) ->
  (forall c, keeps (set_masterEditorContainer (Some c))) ->
  stable R createEditorContainers.
Proof.
  intros Hp H0 Hd Hm. unfold createEditorContainers.
  apply stable_bind; [by apply stable_append_new|intros dc].
  apply stable_bind; [by apply stable_put|intros _].
  apply stable_bind; [apply stable_setStyle|intros _].
  apply stable_bind; [by apply stable_append_new|intros mc].
  apply stable_bind; [by apply stable_put|intros _].
  apply stable_setStyle.
Qed.

Lemma stable__createEditor {R permits keeps} `{!Frame R permits keeps} i c o :
  (forall d, permits (CreateInstance d)) -> stable R (_createEditor i c o).
Proof.
  intros Hp. unfold _createEditor. destruct (getEditor i); [|apply stable_ret].
  apply stable_bind; [by apply stable_emit|intros _].
  apply stable_bind; [apply stable_newPromise|intros p]. apply stable_ret.
Qed.

Lemma grows_setResult P j r w : grows P w (setResult j r w).
Proof. by apply grows_same. Qed.

Lemma grows_listen P pr l w : grows P w (listen pr l w).
Proof. destruct pr; by apply grows_same. Qed.

Lemma grows_tryComplete j w : grows notDispose w (tryComplete j w).
Proof.
  unfold tryComplete.
  destruct (joins w !! j) as [[[d|] [m|] [res|]]|]; try reflexivity.
  destruct d as [ed|d], m as [em|m]; try apply grows_setResult.
  pose proof (stable_onEditorsCreated d m w) as Hc.
  destruct (onEditorsCreated d m w) as [w' [u|e]]; simpl in Hc;
    (etrans; [exact Hc|apply grows_setResult]).
Qed.

Lemma stable_join pd pm : stable (grows notDispose) (join pd pm).
Proof.
  intros w. unfold join; simpl.
  etrans; [|apply grows_tryComplete].
  etrans; [|apply grows_listen].
  etrans; [|apply grows_listen].
  by apply grows_same.
Qed.

Lemma stable_setNewInput newInput opts :
  stable (grows notDispose) (setNewInput newInput opts).
Proof.
  unfold setNewInput.
  apply stable_bind; [auto with stable|intros dc].
  apply stable_bind; [by apply stable__createEditor|intros pd].
  apply stable_bind; [auto with stable|intros mc].
  apply stable_bind; [by apply stable__createEditor|intros pm].
  apply stable_join.
Qed.

Lemma stable_removeContainers {R permits keeps} `{!Frame R permits keeps} :
  (forall c, permits (RemoveChild c)) ->
  keeps (set_detailsEditorContainer None) ->
  keeps (set_masterEditorContainer None) ->
  stable R
    ((let* dc := get detailsEditorContainer in
      when_some dc (fun c => removeChild c >> put (set_detailsEditorContainer None))) >>
     (let* mc := get masterEditorContainer in
      when_some mc (fun c => removeChild c >> put (set_masterEditorContainer None)))).
Proof.
  intros Hp Hd Hm.
  apply stable_bind; [|intros _].
  - apply stable_bind; [apply stable_get|intros dc].
    apply stable_when_some; intros c.
    apply stable_bind; [by apply stable_removeChild|intros _]. by apply stable_put.
  - apply stable_bind; [apply stable_get|intros mc].
    apply stable_when_some; intros c.
    apply stable_bind; [by apply stable_removeChild|intros _]. by apply stable_put.
Qed.

Lemma stable_afterChildrenDisposed newInput opts :
  stable (grows notDispose) (afterChildrenDisposed newInput opts).
Proof.
  unfold afterChildrenDisposed.
  apply stable_bind; [by apply stable_removeContainers|intros _].
  apply stable_bind; [by apply stable_createEditorContainers|intros _].
  apply stable_setNewInput.
Qed.

Lemma grows_finish p l r w : grows notDispose w (finish p l r w).
Proof.
  unfold finish. destruct l as [[j s]|]; [|by apply grows_same].
  etrans; [|apply grows_tryComplete]. by apply grows_same.
Qed.

(** Settling a promise never disposes a child and never moves the sash. *)
Lemma grows_settle p r w w' : settle p r w = Some w' -> grows notDispose w w'.
Proof.
  unfold settle. intros Hs.
  destruct (promises w !! p) as [[[i c o|e|r0] l]|]; [| | done | done].
  - destruct r as [err|u]; simplify_eq; [apply grows_finish|].
    split; [done|]. eexists [_; _]. split; [done|]. by repeat constructor.
  - simplify_eq. apply grows_finish.
Qed.

Lemma grows_settleAll sched : forall w w',
  settleAll sched w = Some w' -> grows notDispose w w'.
Proof.
  induction sched as [|[p r] rest IH]; intros w w' Hs; simpl in Hs.
  - simplify_eq. reflexivity.
  - destruct (settle p r w) as [w1|] eqn:E; [|done]. simpl in Hs.
    etrans; [eapply grows_settle, E|by apply IH].
Qed.

(** ** The reuse branch *)

Lemma setInput_matching w newInput opts d m :
  matches newInput (input (host w)) = true ->
  detailsEditor (host w) = Some d ->
  masterEditor (host w) = Some m ->
  setInput newInput opts w =
    ({| host := set_options opts (set_input (Some newInput) (host w));
        dom := dom w;
        trace := trace w ++ delivered d m (newInput, opts);
        nextEditor := nextEditor w;
        promises := promises w ++ [ {| chain := AwaitInput d; listener := None |};
                                    {| chain := AwaitInput m; listener := None |} ];
        joins := joins w |}, Fulfilled).
Proof.
  intros Hm Hd Hma.
  destruct w as [h dm tr ne ps js]; destruct h; simpl in *; subst.
  unfold setInput, updateInput, BaseEditor_setInput, child_setInput, newPromise.
  simpl. rewrite Hm. mrun.
  by rewrite <- !app_assoc.
Qed.

(** C10. On the reuse branch the details child is given its input first
    and without options, the master child second and with the options of
    the caller. *)
Theorem reuse_details_first_without_options w newInput opts d m :
  matches newInput (input (host w)) = true ->
  detailsEditor (host w) = Some d ->
  masterEditor (host w) = Some m ->
  trace (fst (setInput newInput opts w))
  = trace w ++ [SetInput d (details newInput) None;
                SetInput m (master newInput) opts].
Proof.
  intros Hm Hd Hma. by rewrite (setInput_matching _ _ _ d m).
Qed.

(** C3. Through any succession of [setInput] calls in which every pair
    matches the current input, a host that has both children keeps them:
    the only calls it makes are the deliveries of the new inputs to those
    two children, so nothing is disposed, instantiated or created, no
    container is added or removed, no join is started, every call
    answers with a complete promise, and both children are still in
    place at the end. *)
Theorem matching_inputs_reuse_children calls : forall w d m w' ps,
  detailsEditor (host w) = Some d ->
  masterEditor (host w) = Some m ->
  eachMatches (input (host w)) calls ->
  setInputs calls w = (w', ps) ->
  trace w' = trace w ++ concat (delivered d m <$> calls) /\
  ps = replicate (length calls) Fulfilled /\
  detailsEditor (host w') = Some d /\
  masterEditor (host w') = Some m /\
  detailsEditorContainer (host w') = detailsEditorContainer (host w) /\
  masterEditorContainer (host w') = masterEditorContainer (host w) /\
  dom w' = dom w /\
  joins w' = joins w /\
  nextEditor w' = nextEditor w.
Proof.
  induction calls as [|[i o] rest IH]; intros w d m w' ps Hd Hm Hall Hrun;
    simpl in *.
  - simplify_eq. by rewrite app_nil_r.
  - destruct Hall as [Hmatch Hall].
    rewrite (setInput_matching _ _ _ d m) in Hrun by done.
    destruct (setInputs rest _) as [w2 ps2] eqn:E. simplify_eq.
    apply IH with (d := d) (m := m) in E; [|by destruct w as [[] ?]..].
    destruct E as (Ht & Hps & Hd' & Hm' & Hdc & Hmc & Hdom & Hj & Hne).
    rewrite Ht, Hps. simpl in *. rewrite <- app_assoc.
    destruct w as [[] ?]; simpl in *. done.
Qed.

(** ** Teardown and recreation *)

Lemma fst_setInput newInput opts w :
  fst (setInput newInput opts w)
  = fst ((BaseEditor_setInput newInput opts >>
          updateInput (input (host w)) newInput opts) w).
Proof. unfold setInput. by destruct (bind _ _ w) as [w' [p|e]]. Qed.

Lemma setInput_recreate_run w newInput opts old d m :
  input (host w) = Some old ->
  matches newInput (Some old) = false ->
  detailsEditor (host w) = Some d ->
  masterEditor (host w) = Some m ->
  fst (setInput newInput opts w)
  = fst (afterChildrenDisposed newInput opts (childrenDisposed newInput opts d m w)).
Proof.
  intros Hin Hmatch Hd Hm.
  destruct w as [h dm tr ne ps js]; destruct h; simpl in *; subst.
  rewrite fst_setInput. unfold updateInput; simpl; rewrite Hmatch.
  unfold afterChildrenDisposed, childrenDisposed, disposeEditors, BaseEditor_setInput.
  mrun. rewrite <- app_assoc. reflexivity.
Qed.

(** C4, as the code has it.  When the host has a current input, the new
    pair does not match it and both children exist, the call disposes
    the old details child and the old master child, in this order and
    before anything else it does; nothing
    that follows in the call (removing and adding containers, asking for
    the new instances) and nothing that happens when promises are settled
    afterwards disposes a child again, and none of it moves the sash. *)
Theorem recreate_disposes_old_pair_first w newInput opts old d m :
  input (host w) = Some old ->
  matches newInput (Some old) = false ->
  detailsEditor (host w) = Some d ->
  masterEditor (host w) = Some m ->
  let w' := fst (setInput newInput opts w) in
  (exists evs,
     trace w' = trace w ++ Dispose d :: Dispose m :: evs /\
     Forall notDispose evs) /\
  sash (host w') = sash (host w) /\
  forall sched w'', settleAll sched w' = Some w'' -> grows notDispose w' w''.
Proof.
  intros Hin Hmatch Hd Hm w'.
  assert (Hw' : w' = fst (afterChildrenDisposed newInput opts
                            (childrenDisposed newInput opts d m w)))
    by (by apply setInput_recreate_run with (old := old)).
  destruct (stable_afterChildrenDisposed newInput opts
              (childrenDisposed newInput opts d m w)) as [Hs (evs & Ht & Hp)].
  rewrite <- Hw' in Hs, Ht.
  split; [|split].
  - exists evs. split; [|done]. rewrite Ht. simpl. by rewrite <- app_assoc.
  - rewrite Hs. by destruct w as [[] ?].
  - intros sched w''. apply grows_settleAll.
Qed.

(** ** Completion of a join *)

Lemma stable_afterCommit {R permits keeps} `{!Frame R permits keeps} :
  (forall e d, permits (Layout e d)) -> (forall e, permits (Focus e)) ->
  stable R afterCommit.
Proof.
  intros Hl Hf. unfold afterCommit, focus.
  apply stable_bind; [|intros _].
  - apply stable_bind; [apply stable_get|intros s]. unfold dolayout.
    apply stable_bind; [apply stable_get|intros d].
    apply stable_bind; [apply stable_get|intros m].
    destruct d as [d|], m as [m|]; try apply stable_ret.
    apply stable_bind; [|intros dim].
    { apply stable_bind; [apply stable_get|intros o; apply stable_deref]. }
    apply stable_bind; [|intros dc].
    { apply stable_bind; [apply stable_get|intros o; apply stable_deref]. }
    do 3 (apply stable_bind; [apply stable_setStyle|intros _]).
    apply stable_bind; [|intros mc].
    { apply stable_bind; [apply stable_get|intros o; apply stable_deref]. }
    do 3 (apply stable_bind; [apply stable_setStyle|intros _]).
    apply stable_bind; [by apply stable_emit|intros _]. by apply stable_emit.
  - apply stable_bind; [apply stable_get|intros m].
    apply stable_when_some; intros e. by apply stable_emit.
Qed.

Lemma onEditorsCreated_run d m w :
  fst (onEditorsCreated d m w) = fst (afterCommit (committed d m w)).
Proof.
  destruct w as [h dm tr ne ps js]; destruct h.
  unfold onEditorsCreated, afterCommit, committed, setEditorVisible,
    BaseEditor_setEditorVisible.
  mrun. rewrite <- app_assoc. reflexivity.
Qed.

(** Whatever the host holds, [onEditorsCreated d m] stores [d] and [m] in
    the two slots and applies the visibility of the host to them; it
    disposes nothing. *)
Lemma onEditorsCreated_commits d m w :
  let w' := fst (onEditorsCreated d m w) in
  detailsEditor (host w') = Some d /\
  masterEditor (host w') = Some m /\
  exists evs,
    trace w' = trace w ++ SetVisible m (visible (host w))
                            :: SetVisible d (visible (host w)) :: evs /\
    Forall notDispose evs.
Proof.
  intros w'. subst w'. rewrite onEditorsCreated_run.
  destruct (stable_afterCommit (R := samePair) (fun _ _ => I) (fun _ => I)
              (committed d m w)) as (_ & Hd & Hm).
  destruct (stable_afterCommit (R := grows notDispose) (fun _ _ => I) (fun _ => I)
              (committed d m w)) as (_ & evs & Ht & Hp).
  rewrite Hd, Hm, Ht. repeat split; [by destruct w as [[] ?]..|].
  exists evs. split; [|done]. simpl. by rewrite <- app_assoc.
Qed.

Lemma tryComplete_commit j w d m :
  joins w !! j = Some (bothSettled (inr d) (inr m)) ->
  host (tryComplete j w) = host (fst (onEditorsCreated d m w)) /\
  trace (tryComplete j w) = trace (fst (onEditorsCreated d m w)).
Proof.
  intros Hj. unfold tryComplete. rewrite Hj. simpl.
  by destruct (onEditorsCreated d m w) as [w' [u|e]].
Qed.

Lemma tryComplete_reject j w rd rm err :
  joins w !! j = Some (bothSettled rd rm) ->
  rd = inl err \/ rm = inl err ->
  tryComplete j w = setResult j (inl (errorsOf rd ++ errorsOf rm)) w.
Proof.
  intros Hj Herr. unfold tryComplete. rewrite Hj. simpl.
  destruct rd, rm; try done. by destruct Herr.
Qed.

Lemma finish_joins_lookup p s res w j jn :
  joins w !! j = Some jn ->
  joins (with_joins (alter (setSide s res) j)
           (with_promises (<[p := {| chain := Settled res;
                                     listener := Some (j, s) |}]>) w)) !! j
  = Some (setSide s res jn).
Proof. intros Hj. simpl. by rewrite list_lookup_alter_eq, Hj. Qed.

(** Once both sides of a join are settled and one of them failed, the
    join is rejected with the errors of the sides that failed; nothing is
    stored in the host and no call is made on any child. *)
Lemma settle_rejects w p j s c r res jn rd rm err :
  promises w !! p = Some {| chain := c; listener := Some (j, s) |} ->
  settledAs c r = Some res ->
  joins w !! j = Some jn ->
  setSide s res jn = bothSettled rd rm ->
  rd = inl err \/ rm = inl err ->
  exists w',
    settle p r w = Some w' /\
    outcome (Joined j) w' = Some (inl (errorsOf rd ++ errorsOf rm)) /\
    host w' = host w /\ trace w' = trace w /\ dom w' = dom w.
Proof.
  intros Hp Hres Hj Hside Herr.
  assert (Hs : settle p r w = Some (finish p (Some (j, s)) res w)).
  { unfold settle. rewrite Hp.
    destruct c as [i cn o|e|r0], r as [e'|u]; simpl in Hres; by simplify_eq. }
  eexists; split; [exact Hs|].
  unfold finish.
  rewrite (tryComplete_reject _ _ rd rm err);
    [|by rewrite (finish_joins_lookup _ _ _ _ _ jn), Hside|done].
  repeat split. simpl.
  rewrite list_lookup_alter_eq, list_lookup_alter_eq, Hj.
  cbv [fmap option_fmap option_map]. by rewrite Hside.
Qed.

(** C1, as the code has it.  There is no generation guard: when the last
    pending side of a join is settled and both sides succeeded, the two
    children of that join are stored in the slots of the host and given
    the visibility of the host, whatever input the host has taken in the
    meantime and whatever children it holds; none of them is disposed. *)
Theorem stale_creation_is_committed w p j s e jn d m :
  promises w !! p = Some {| chain := AwaitInput e; listener := Some (j, s) |} ->
  joins w !! j = Some jn ->
  setSide s (inr e) jn = bothSettled (inr d) (inr m) ->
  exists w',
    settle p (inr tt) w = Some w' /\
    detailsEditor (host w') = Some d /\
    masterEditor (host w') = Some m /\
    exists evs,
      trace w' = trace w ++ SetVisible m (visible (host w))
                              :: SetVisible d (visible (host w)) :: evs /\
      Forall notDispose evs.
Proof.
  intros Hp Hj Hside.
  eexists; split; [unfold settle; rewrite Hp; reflexivity|].
  unfold finish.
  set (w1 := with_joins _ _).
  destruct (tryComplete_commit j w1 d m) as [Hh Ht].
  { subst w1. by rewrite (finish_joins_lookup _ _ _ _ _ jn), Hside. }
  rewrite Hh, Ht.
  destruct (onEditorsCreated_commits d m w1) as (Hd & Hm & evs & Hevs & Hnd).
  repeat split; [done..|]. by exists evs.
Qed.

(** C5, as the code has it.  When the two sides of a join are settled and
    exactly one of them failed, the promise of [setInput] is rejected with
    the error of the side that failed and nothing is stored in the host;
    the child that the other side created is not disposed: settling makes
    no call on any child and leaves the DOM as it is. *)
Theorem partial_failure_rejects_without_disposal w p j s c r res jn rd rm err :
  promises w !! p = Some {| chain := c; listener := Some (j, s) |} ->
  settledAs c r = Some res ->
  joins w !! j = Some jn ->
  setSide s res jn = bothSettled rd rm ->
  (rd = inl err /\ exists e, rm = inr e) \/ ((exists e, rd = inr e) /\ rm = inl err) ->
  exists w',
    settle p r w = Some w' /\
    outcome (Joined j) w' = Some (inl [err]) /\
    host w' = host w /\ trace w' = trace w /\ dom w' = dom w.
Proof.
  intros Hp Hres Hj Hside Hone.
  destruct (settle_rejects w p j s c r res jn rd rm err) as (w' & Hs & Ho & Hrest);
    [done..|by destruct Hone as [[? _]|[_ ?]]; [left|right]|].
  exists w'. split; [done|]. split; [|done].
  rewrite Ho. by destruct Hone as [[-> [e ->]]|[[e ->] ->]].
Qed.

(** ** A side without a registered editor *)

Lemma bind_inv {A B} (m : M A) (k : A -> M B) w w' b :
  bind m k w = (w', Return b) ->
  exists w1 a, m w = (w1, Return a) /\ k a w1 = (w', Return b).
Proof.
  unfold bind. destruct (m w) as [w1 [a|e]]; [|done]. intros Hk. by exists w1, a.
Qed.

Lemma _createEditor_no_editor i c o w :
  getEditor i = None ->
  _createEditor i c o w = (w, Return (WrapError (NoEditorError i))).
Proof. intros Hn. unfold _createEditor. by rewrite Hn. Qed.

Lemma joins_listen pr l w : joins (listen pr l w) = joins w.
Proof. by destruct pr. Qed.

Lemma host_listen pr l w : host (listen pr l w) = host w.
Proof. by destruct pr. Qed.

Lemma join_failed pd pm s e w :
  match s with DetailsSide => pd | MasterSide => pm end = WrapError e ->
  snd (join pd pm w) = Return (Joined (length (joins w))) /\
  host (fst (join pd pm w)) = host w /\
  exists jn,
    joins (fst (join pd pm w)) !! length (joins w) = Some jn /\
    sideResult s jn = Some (inl e) /\
    (joinResult jn = None \/
     exists errs, joinResult jn = Some (inl errs) /\ e ∈ errs).
Proof.
  intros Hs.
  assert (Hm : memberState (match s with DetailsSide => pd | MasterSide => pm end) w
               = Some (inl e)) by (by rewrite Hs).
  clear Hs. unfold join; simpl. split; [done|].
  set (jn := {| joinDetails := memberState pd w; joinMaster := memberState pm w;
                joinResult := None |}).
  set (w2 := listen pm _ (listen pd _ _)).
  assert (Hj : joins w2 !! length (joins w) = Some jn).
  { subst w2. rewrite !joins_listen. simpl. by apply list_lookup_middle. }
  assert (Hh : host w2 = host w) by (subst w2; by rewrite !host_listen).
  assert (Hside : sideResult s jn = Some (inl e)) by (by destruct s).
  unfold tryComplete. rewrite Hj. subst jn.
  destruct (memberState pd w) as [rd|] eqn:Ed, (memberState pm w) as [rm|] eqn:Em;
    simpl in *; try (split; [done|]; eexists; split; [exact Hj|]; by split; [|left]).
  assert (Hrej : rd = inl e \/ rm = inl e) by (destruct s; simplify_eq; auto).
  clear Hside.
  replace (match rd with inl _ | _ => _ end)
    with (setResult (length (joins w)) (inl (errorsOf rd ++ errorsOf rm)) w2)
    by (destruct rd, rm; try done; by destruct Hrej).
  split; [exact Hh|]. eexists; split.
  { simpl. rewrite list_lookup_alter_eq, Hj. reflexivity. }
  split; [destruct s; simpl; congruence|].
  right. eexists; split; [reflexivity|].
  destruct Hrej; subst; simpl; set_solver.
Qed.

Lemma _createEditor_run i c o w :
  exists w1 pr,
    _createEditor i c o w = (w1, Return pr) /\
    joins w1 = joins w /\ host w1 = host w /\
    (getEditor i = None -> pr = WrapError (NoEditorError i)).
Proof.
  unfold _createEditor. destruct (getEditor i) as [descriptor|].
  - eexists _, _. split; [unfold newPromise; mrun; reflexivity|]. by simpl.
  - by eexists _, _.
Qed.

Lemma setNewInput_no_editor newInput opts s w w' r :
  getEditor (sideInput s newInput) = None ->
  setNewInput newInput opts w = (w', r) ->
  r = Return (Joined (length (joins w))) /\
  samePair w w' /\
  exists jn,
    joins w' !! length (joins w) = Some jn /\
    sideResult s jn = Some (inl (NoEditorError (sideInput s newInput))) /\
    (joinResult jn = None \/
     exists errs, joinResult jn = Some (inl errs) /\
                  NoEditorError (sideInput s newInput) ∈ errs).
Proof.
  intros Hn Hrun. unfold setNewInput, bind, get in Hrun.
  destruct (_createEditor_run (details newInput) (detailsEditorContainer (host w))
              None w) as (w1 & pd & E1 & Hj1 & Hh1 & Hd).
  rewrite E1 in Hrun.
  destruct (_createEditor_run (master newInput) (masterEditorContainer (host w1))
              opts w1) as (w2 & pm & E2 & Hj2 & Hh2 & Hm).
  rewrite E2 in Hrun.
  assert (Hw : match s with DetailsSide => pd | MasterSide => pm end
               = WrapError (NoEditorError (sideInput s newInput)))
    by (destruct s; auto).
  destruct (join_failed pd pm s _ w2 Hw) as (Hr & Hh & jn & Hl & Hs & Hres).
  rewrite Hrun in Hr, Hh, Hl. simpl in Hr, Hh, Hl.
  rewrite Hj2, Hj1 in Hr, Hl.
  split; [done|]. split; [|by exists jn].
  unfold samePair. by rewrite Hh, Hh2, Hh1.
Qed.

Lemma setInput_Joined_inv w newInput opts w' j :
  matches newInput (input (host w)) = false ->
  setInput newInput opts w = (w', Joined j) ->
  exists w1, setNewInput newInput opts w1 = (w', Return (Joined j)).
Proof.
  intros Hmatch Hrun. unfold setInput in Hrun.
  destruct (bind _ _ w) as [w'' [p|e]] eqn:E; [|by simplify_eq].
  simplify_eq.
  apply bind_inv in E as (wa & [] & _ & E).
  unfold updateInput in E. rewrite Hmatch in E. simpl in E.
  apply bind_inv in E as (wb & [] & _ & E).
  apply bind_inv in E as (wc & [] & _ & E).
  by exists wc.
Qed.

Lemma samePair_setNewInput newInput opts s :
  getEditor (sideInput s newInput) = None ->
  stable samePair (setNewInput newInput opts).
Proof.
  intros Hn w. destruct (setNewInput newInput opts w) as [w' r] eqn:E.
  by apply (setNewInput_no_editor _ _ s) in E as (_ & Hsame & _).
Qed.

Lemma samePair_afterChildrenDisposed newInput opts s :
  getEditor (sideInput s newInput) = None ->
  stable samePair (afterChildrenDisposed newInput opts).
Proof.
  intros Hn. unfold afterChildrenDisposed.
  apply stable_bind; [by apply stable_removeContainers|intros _].
  apply stable_bind; [by apply stable_createEditorContainers|intros _].
  by apply samePair_setNewInput with (s := s).
Qed.

Lemma setInput_first_run w newInput opts :
  input (host w) = None ->
  matches newInput None = false ->
  fst (setInput newInput opts w)
  = fst ((createEditorContainers >> setNewInput newInput opts)
           (with_host (fun h => set_options opts (set_input (Some newInput) h)) w)).
Proof.
  intros Hin Hmatch.
  destruct w as [h dm tr ne ps js]; destruct h; simpl in *; subst.
  rewrite fst_setInput. unfold updateInput; simpl; rewrite Hmatch.
  unfold BaseEditor_setInput. reflexivity.
Qed.

(** C6, as the code has it.  For a side whose input has no registered
    editor, [_createEditor] answers with the no-editor error and asks for
    no instance; the join of the call holds that error on that side, and
    when its other side is settled the promise of [setInput] is rejected
    with it, nothing being stored in the host.  The host is not left as
    it was, though: a pair that was shown has been disposed before the
    creation started, the details slot is empty and the current input is
    the new pair.  A host without input keeps its two slots as they are. *)
Theorem no_editor_rejects_after_teardown w newInput opts s :
  matches newInput (input (host w)) = false ->
  getEditor (sideInput s newInput) = None ->
  let err := NoEditorError (sideInput s newInput) in
  let w' := fst (setInput newInput opts w) in
  (forall c o w0,
     _createEditor (sideInput s newInput) c o w0 = (w0, Return (WrapError err))) /\
  (forall j,
     snd (setInput newInput opts w) = Joined j ->
     exists jn,
       joins w' !! j = Some jn /\
       sideResult s jn = Some (inl err) /\
       (joinResult jn = None \/
        exists errs, joinResult jn = Some (inl errs) /\ err ∈ errs)) /\
  (forall w1 p c s' r res jn j rd rm,
     promises w1 !! p = Some {| chain := c; listener := Some (j, s') |} ->
     settledAs c r = Some res ->
     joins w1 !! j = Some jn ->
     sideResult s jn = Some (inl err) ->
     s' <> s ->
     setSide s' res jn = bothSettled rd rm ->
     exists w2,
       settle p r w1 = Some w2 /\
       (exists errs, outcome (Joined j) w2 = Some (inl errs) /\ err ∈ errs) /\
       host w2 = host w1 /\ trace w2 = trace w1) /\
  (forall old d m,
     input (host w) = Some old ->
     detailsEditor (host w) = Some d ->
     masterEditor (host w) = Some m ->
     (exists evs, trace w' = trace w ++ Dispose d :: Dispose m :: evs) /\
     detailsEditor (host w') = None /\
     input (host w') = Some newInput) /\
  (input (host w) = None ->
     detailsEditor (host w') = detailsEditor (host w) /\
     masterEditor (host w') = masterEditor (host w) /\
     input (host w') = Some newInput).
Proof.
  intros Hmatch Hn err w'. split; [|split; [|split; [|split]]].
  - intros c o w0. by apply _createEditor_no_editor.
  - intros j Hrun.
    assert (Hrun' : setInput newInput opts w = (w', Joined j))
      by (subst w'; rewrite <- Hrun; apply surjective_pairing).
    destruct (setInput_Joined_inv _ _ _ _ _ Hmatch Hrun') as (w1 & E).
    destruct (setNewInput_no_editor _ _ s _ _ _ Hn E) as (Hr & _ & jn & Hl & Hs & Hres).
    simplify_eq. by exists jn.
  - intros w1 p c s' r res jn j rd rm Hp Hres Hj Hside Hne Hboth.
    assert (Herr : rd = inl err \/ rm = inl err).
    { destruct s, s', jn as [jd jm jr]; simpl in *; unfold bothSettled in Hboth;
        simplify_eq; auto. }
    destruct (settle_rejects w1 p j s' c r res jn rd rm err)
      as (w2 & Hs & Ho & Hh & Ht & _); [done..|].
    exists w2. repeat split; [done| |done..].
    eexists; split; [exact Ho|]. destruct Herr; subst; simpl; set_solver.
  - intros old d m Hin Hd Hm.
    assert (Hold : matches newInput (Some old) = false) by (by rewrite <- Hin).
    subst w'. rewrite (setInput_recreate_run _ _ _ old d m) by done.
    destruct (stable_afterChildrenDisposed newInput opts
                (childrenDisposed newInput opts d m w)) as [_ (evs & Ht & _)].
    destruct (samePair_afterChildrenDisposed newInput opts s Hn
                (childrenDisposed newInput opts d m w)) as (Hi & Hde & _).
    rewrite Ht, Hi, Hde. repeat split; [|by destruct w as [[] ?]..].
    exists evs. simpl. by rewrite <- app_assoc.
  - intros Hin. rewrite Hin in Hmatch.
    subst w'. rewrite setInput_first_run by done.
    assert (Hst : stable samePair
                    (createEditorContainers >> setNewInput newInput opts)).
    { apply stable_bind; [by apply stable_createEditorContainers|intros _].
      by apply samePair_setNewInput with (s := s). }
    destruct (Hst (with_host (fun h => set_options opts
                                          (set_input (Some newInput) h)) w))
      as (Hi & Hd & Hm).
    rewrite Hi, Hd, Hm. by destruct w as [[] ?].
Qed.

(** ** A promise nobody chained on *)

Lemma settle_unobserved w p e err :
  promises w !! p = Some {| chain := AwaitInput e; listener := None |} ->
  exists w',
    settle p (inl err) w = Some w' /\
    host w' = host w /\ trace w' = trace w /\ joins w' = joins w /\ dom w' = dom w.
Proof.
  intros Hp. unfold settle. rewrite Hp. eexists. split; [reflexivity|]. by simpl.
Qed.

(** ** The master slot after a teardown *)

(** No statement of [disposeEditors] assigns [masterEditor]: whatever the
    master slot holds before a teardown, it holds afterwards. *)
Lemma disposeEditors_keeps_master : stable sameMaster disposeEditors.
Proof. unfold disposeEditors. auto 30 with stable. Qed.

Lemma clearInput_keeps_master : stable sameMaster clearInput.
Proof.
  unfold clearInput, BaseEditor_clearInput.
  pose proof disposeEditors_keeps_master. auto 30 with stable.
Qed.

(** ** Layout passes *)

Lemma dolayout_laidOut w dim p d m dc mc :
  detailsEditor (host w) = Some d ->
  masterEditor (host w) = Some m ->
  dimension (host w) = Some dim ->
  detailsEditorContainer (host w) = Some dc ->
  masterEditorContainer (host w) = Some mc ->
  dolayout p w = (laidOut d m dim p dc mc w, Return tt).
Proof.
  intros Hd Hm Hdim Hdc Hmc.
  destruct w as [h dm tr ne ps js]; destruct h.
  cbv [host detailsEditor masterEditor dimension detailsEditorContainer
       masterEditorContainer] in *.
  subst. unfold dolayout, laidOut. run_cbv. reflexivity.
Qed.

Lemma regionOf_laidOut_details d m dim p dc mc w :
  dc <> mc -> regionOf dc (dom (laidOut d m dim p dc mc w)) = Some (detailsRegion dim p).
Proof.
  intros Hne. destruct w as [h [cn st nx] tr ne ps js].
  unfold laidOut, regionOf. run_cbv.
  rewrite !(styleOf_insert_ne mc dc) by congruence.
  rewrite !styleOf_insert_eq. reflexivity.
Qed.

Lemma regionOf_laidOut_master d m dim p dc mc w :
  regionOf mc (dom (laidOut d m dim p dc mc w)) = Some (masterRegion dim p).
Proof.
  destruct w as [h [cn st nx] tr ne ps js].
  unfold laidOut, regionOf. run_cbv.
  rewrite !styleOf_insert_eq. reflexivity.
Qed.

(** One layout pass of a host that has both children, a dimension and
    two distinct containers. *)
Lemma dolayout_ready w dim p d m dc mc :
  detailsEditor (host w) = Some d ->
  masterEditor (host w) = Some m ->
  dimension (host w) = Some dim ->
  detailsEditorContainer (host w) = Some dc ->
  masterEditorContainer (host w) = Some mc ->
  dc <> mc ->
  exists w',
    dolayout p w = (w', Return tt) /\
    host w' = host w /\
    trace w' = trace w ++ layoutCalls d m dim p /\
    regionOf dc (dom w') = Some (detailsRegion dim p) /\
    regionOf mc (dom w') = Some (masterRegion dim p) /\
    childNodes (dom w') = childNodes (dom w) /\
    nextElement (dom w') = nextElement (dom w) /\
    promises w' = promises w /\ joins w' = joins w /\
    nextEditor w' = nextEditor w.
Proof.
  intros Hd Hm Hdim Hdc Hmc Hne.
  exists (laidOut d m dim p dc mc w).
  split; [by apply dolayout_laidOut|].
  split; [by destruct w|].
  split; [destruct w; unfold laidOut, layoutCalls; run_cbv;
          by rewrite <- app_assoc|].
  split; [by apply regionOf_laidOut_details|].
  split; [by apply regionOf_laidOut_master|].
  by destruct w as [h [cn st nx] tr ne ps js].
Qed.

Lemma dolayout_guard p w :
  detailsEditor (host w) = None \/ masterEditor (host w) = None ->
  dolayout p w = (w, Return tt).
Proof.
  intros Hg. destruct w as [h dm tr ne ps js]; destruct h; simpl in *.
  unfold dolayout. mrun.
  by destruct Hg; subst; [|destruct detailsEditor0].
Qed.

Lemma layout_passes_guard fired : forall w,
  detailsEditor (host w) = None \/ masterEditor (host w) = None ->
  foldr (fun pos k => dolayout pos >> k) (ret tt) fired w = (w, Return tt).
Proof.
  induction fired as [|p rest IH]; intros w Hg; simpl; [done|].
  unfold bind at 1. rewrite dolayout_guard by done. by apply IH.
Qed.

(** X1. While a child slot is empty, [layout] only remembers the
    dimension and the state the sash answers with: whatever positions
    the sash fires, no style is set, no call is made on a child, and
    nothing is thrown although no container may exist. *)
Theorem layout_without_children w dim :
  detailsEditor (host w) = None \/ masterEditor (host w) = None ->
  layout dim w
  = (with_host (fun h => set_sash (fst (setDimenesion (sash (host w)) dim))
                           (set_dimension (Some dim) h)) w, Return tt).
Proof.
  intros Hg. unfold layout.
  unfold bind at 1. simpl. unfold bind at 1. simpl.
  destruct (setDimenesion _ dim) as [s' fired] eqn:E.
  unfold bind at 1. simpl.
  rewrite layout_passes_guard; [by destruct w as [[] ?]|].
  by destruct w as [[] ?].
Qed.

Lemma layout_passes_ready d m dim dc mc fired : forall w,
  detailsEditor (host w) = Some d ->
  masterEditor (host w) = Some m ->
  dimension (host w) = Some dim ->
  detailsEditorContainer (host w) = Some dc ->
  masterEditorContainer (host w) = Some mc ->
  dc <> mc ->
  exists w',
    foldr (fun pos k => dolayout pos >> k) (ret tt) fired w = (w', Return tt) /\
    host w' = host w /\
    trace w' = trace w ++ concat (layoutCalls d m dim <$> fired) /\
    (forall p, last fired = Some p ->
       regionOf dc (dom w') = Some (detailsRegion dim p) /\
       regionOf mc (dom w') = Some (masterRegion dim p)).
Proof.
  induction fired as [|p rest IH]; intros w Hd Hm Hdim Hdc Hmc Hne; simpl.
  - exists w. repeat split; [by rewrite app_nil_r|done..].
  - destruct (dolayout_ready w dim p d m dc mc)
      as (w1 & Hrun & Hh & Ht & Hrd & Hrm & _); [done..|].
    destruct (IH w1) as (w' & Hrun' & Hh' & Ht' & Hlast); [by rewrite Hh..|done|].
    exists w'. unfold bind at 1. rewrite Hrun.
    split; [done|]. split; [congruence|].
    split; [by rewrite Ht', Ht, <- app_assoc|].
    intros q Hq. destruct rest as [|p' rest'].
    + simpl in *. unfold ret in Hrun'. simplify_eq. by split.
    + apply Hlast. by rewrite last_cons_cons in Hq.
Qed.

(** X2. [layout] on a host that has both children stores the new
    dimension before the sash is told, so every position the sash fires
    is laid out against the new dimension; the last one fired decides
    the regions of the two containers. *)
Theorem layout_ready_regions w dim d m dc mc s' fired p :
  detailsEditor (host w) = Some d ->
  masterEditor (host w) = Some m ->
  detailsEditorContainer (host w) = Some dc ->
  masterEditorContainer (host w) = Some mc ->
  dc <> mc ->
  setDimenesion (sash (host w)) dim = (s', fired ++ [p]) ->
  exists w',
    layout dim w = (w', Return tt) /\
    dimension (host w') = Some dim /\
    sash (host w') = s' /\
    regionOf dc (dom w') = Some (detailsRegion dim p) /\
    regionOf mc (dom w') = Some (masterRegion dim p) /\
    trace w' = trace w ++ concat (layoutCalls d m dim <$> (fired ++ [p])).
Proof.
  intros Hd Hm Hdc Hmc Hne Hs.
  unfold layout. unfold bind at 1. simpl. unfold bind at 1. simpl. rewrite Hs.
  unfold bind at 1. simpl.
  set (w1 := with_host (set_sash s') (with_host (set_dimension (Some dim)) w)).
  destruct (layout_passes_ready d m dim dc mc (fired ++ [p]) w1)
    as (w' & Hrun & Hh & Ht & Hlast); [by destruct w as [[] ?]..|done|].
  exists w'. split; [exact Hrun|].
  destruct (Hlast p) as [Hrd Hrm]; [by rewrite last_snoc|].
  rewrite Hh. repeat split; [done..|]. rewrite Ht. by destruct w as [[] ?].
Qed.

(** X3. A drag of the sash to [p] on a host that has both children: the
    sash state is stored, the two containers get the regions of [p] as
    the source computes them, whatever [p] is, and each child is told
    its new size once.  When the width and [p] are whole numbers of
    magnitude below 2^53 whose difference is below 2^53, the details
    container takes the width [p] from the left edge and the master
    container the rest of the width from [p] on. *)
Theorem drag_ready_regions w dim d m dc mc s' p :
  detailsEditor (host w) = Some d ->
  masterEditor (host w) = Some m ->
  dimension (host w) = Some dim ->
  detailsEditorContainer (host w) = Some dc ->
  masterEditorContainer (host w) = Some mc ->
  dc <> mc ->
  exists w',
    onPositionChange s' p w = (w', Return tt) /\
    sash (host w') = s' /\
    regionOf dc (dom w') = Some (detailsRegion dim p) /\
    regionOf mc (dom w') = Some (masterRegion dim p) /\
    trace w' = trace w ++ layoutCalls d m dim p /\
    forall a b : Z,
      width dim = px a -> p = px b ->
      (Z.abs a < 2 ^ 53)%Z -> (Z.abs b < 2 ^ 53)%Z ->
      (Z.abs (a - b) < 2 ^ 53)%Z ->
      detailsRegion dim p
      = {| left := px 0; rwidth := px b; rheight := height dim |} /\
      masterRegion dim p
      = {| left := px b; rwidth := px (a - b); rheight := height dim |}.
Proof.
  intros Hd Hm Hdim Hdc Hmc Hne.
  unfold onPositionChange. unfold bind at 1. simpl.
  destruct (dolayout_ready (with_host (set_sash s') w) dim p d m dc mc)
    as (w' & Hrun & Hh & Ht & Hrd & Hrm & _); [by destruct w as [[] ?]..|done|].
  exists w'. split; [exact Hrun|]. rewrite Hh, Hrd, Hrm, Ht.
  split; [by destruct w as [[] ?]|]. split; [done|]. split; [done|].
  split; [by destruct w as [[] ?]|].
  intros a b Ha Hb Hba Hbb Hbd. unfold detailsRegion, masterRegion.
  rewrite Ha, Hb. rewrite subtract_px by done.
  rewrite subtract_px by (try done; lia).
  split; [|done]. do 2 f_equal. lia.
Qed.

(** ** The commit of a created pair *)

Lemma onEditorsCreated_full d m w :
  onEditorsCreated d m w = afterCommit (committed d m w).
Proof.
  destruct w as [h dm tr ne ps js]; destruct h.
  unfold onEditorsCreated, afterCommit, committed, setEditorVisible,
    BaseEditor_setEditorVisible.
  mrun. rewrite <- app_assoc. reflexivity.
Qed.

Lemma onEditorsCreated_no_dimension d m w :
  dimension (host w) = None ->
  onEditorsCreated d m w = (committed d m w, Throw TypeError).
Proof.
  intros Hdim. rewrite onEditorsCreated_full.
  destruct w as [h dm tr ne ps js]; destruct h; simpl in *; subst.
  reflexivity.
Qed.

Lemma onEditorsCreated_ready d m w dim dc mc :
  dimension (host w) = Some dim ->
  detailsEditorContainer (host w) = Some dc ->
  masterEditorContainer (host w) = Some mc ->
  dc <> mc ->
  let p := getVerticalSashLeft (sash (host w)) in
  exists w',
    onEditorsCreated d m w = (w', Return tt) /\
    host w' = set_masterEditor (Some m) (set_detailsEditor (Some d) (host w)) /\
    trace w' = trace w
               ++ SetVisible m (visible (host w)) :: SetVisible d (visible (host w))
                  :: layoutCalls d m dim p ++ [Focus m] /\
    regionOf dc (dom w') = Some (detailsRegion dim p) /\
    regionOf mc (dom w') = Some (masterRegion dim p) /\
    joins w' = joins w /\
    nextEditor w' = nextEditor w.
Proof.
  intros Hdim Hdc Hmc Hne p. rewrite onEditorsCreated_full.
  destruct (dolayout_ready (committed d m w) dim p d m dc mc)
    as (w1 & Hrun & Hh & Ht & Hrd & Hrm & _ & _ & _ & Hj & Hn);
    [by destruct w as [[] ?]..|done|].
  exists (with_trace (fun t => t ++ [Focus m]) w1).
  split.
  { unfold afterCommit. unfold bind at 1. unfold bind at 1. simpl.
    replace (sash (host (committed d m w))) with (sash (host w))
      by (by destruct w as [[] ?]).
    fold p. rewrite Hrun. unfold focus, bind, get. rewrite Hh. simpl.
    reflexivity. }
  simpl. rewrite Hh, Ht, Hj, Hn. repeat split; [|done..].
  destruct w as [[] ?]. simpl. by rewrite <- !app_assoc.
Qed.

Lemma tryComplete_run j w d m :
  joins w !! j = Some (bothSettled (inr d) (inr m)) ->
  tryComplete j w
  = match onEditorsCreated d m w with
    | (w', Return _) => setResult j (inr tt) w'
    | (w', Throw e) => setResult j (inl [e]) w'
    end.
Proof. intros Hj. unfold tryComplete. by rewrite Hj. Qed.

(** X4. When the last side of a join succeeds on a host that has never
    been given a dimension, the two children are stored and given the
    visibility of the host, but the layout pass reads the width of an
    undefined dimension: the promise of [setInput] is rejected with a
    [TypeError], no container is styled and the master child is not
    focused. *)
Theorem commit_without_dimension w p j s e jn d m :
  promises w !! p = Some {| chain := AwaitInput e; listener := Some (j, s) |} ->
  joins w !! j = Some jn ->
  setSide s (inr e) jn = bothSettled (inr d) (inr m) ->
  dimension (host w) = None ->
  exists w',
    settle p (inr tt) w = Some w' /\
    outcome (Joined j) w' = Some (inl [TypeError]) /\
    detailsEditor (host w') = Some d /\
    masterEditor (host w') = Some m /\
    trace w' = trace w ++ [SetVisible m (visible (host w));
                           SetVisible d (visible (host w))] /\
    dom w' = dom w.
Proof.
  intros Hp Hj Hside Hdim.
  eexists; split; [unfold settle; rewrite Hp; reflexivity|].
  unfold finish. set (w1 := with_joins _ _).
  assert (Hj1 : joins w1 !! j = Some (bothSettled (inr d) (inr m)))
    by (subst w1; by rewrite (finish_joins_lookup _ _ _ _ _ jn), Hside).
  rewrite (tryComplete_run j w1 d m Hj1).
  rewrite onEditorsCreated_no_dimension by done.
  split.
  { unfold outcome, setResult.
    change (joins (with_joins ?f ?x)) with (f (joins x)).
    change (joins (committed d m w1)) with (joins w1).
    by rewrite list_lookup_alter_eq, Hj1. }
  by destruct w as [[] ?].
Qed.

Lemma finish_ready w p j s e jn d m dim dc mc :
  joins w !! j = Some jn ->
  setSide s (inr e) jn = bothSettled (inr d) (inr m) ->
  dimension (host w) = Some dim ->
  detailsEditorContainer (host w) = Some dc ->
  masterEditorContainer (host w) = Some mc ->
  dc <> mc ->
  let pos := getVerticalSashLeft (sash (host w)) in
  let w' := finish p (Some (j, s)) (inr e) w in
  outcome (Joined j) w' = Some (inr tt) /\
  host w' = set_masterEditor (Some m) (set_detailsEditor (Some d) (host w)) /\
  trace w' = trace w
             ++ SetVisible m (visible (host w)) :: SetVisible d (visible (host w))
                :: layoutCalls d m dim pos ++ [Focus m] /\
  regionOf dc (dom w') = Some (detailsRegion dim pos) /\
  regionOf mc (dom w') = Some (masterRegion dim pos) /\
  nextEditor w' = nextEditor w.
Proof.
  intros Hj Hside Hdim Hdc Hmc Hne pos w'. subst w'.
  unfold finish. set (w1 := with_joins _ _).
  assert (Hj1 : joins w1 !! j = Some (bothSettled (inr d) (inr m)))
    by (subst w1; by rewrite (finish_joins_lookup _ _ _ _ _ jn), Hside).
  rewrite (tryComplete_run j w1 d m Hj1).
  destruct (onEditorsCreated_ready d m w1 dim dc mc)
    as (w' & Hrun & Hh & Ht & Hrd & Hrm & Hjs & Hn); [done..|].
  rewrite Hrun.
  split.
  { unfold outcome, setResult.
    change (joins (with_joins ?f ?x)) with (f (joins x)).
    by rewrite list_lookup_alter_eq, Hjs, Hj1. }
  change (host (setResult ?j ?r ?x)) with (host x).
  change (trace (setResult ?j ?r ?x)) with (trace x).
  change (dom (setResult ?j ?r ?x)) with (dom x).
  change (nextEditor (setResult ?j ?r ?x)) with (nextEditor x).
  by rewrite Hh, Ht, Hrd, Hrm, Hn.
Qed.

(** X5. When the last side of a join succeeds on a host that has a
    dimension and its two containers, the promise of [setInput] is
    fulfilled and the commit makes its calls in this order: visibility of
    the host to the master child, then to the details child, the sizes
    at the current sash position to the details child, then to the
    master child, and focus to the master child only; the containers get
    the regions of that position and the rest of the host is as it was. *)
Theorem commit_ready w p j s e jn d m dim dc mc :
  promises w !! p = Some {| chain := AwaitInput e; listener := Some (j, s) |} ->
  joins w !! j = Some jn ->
  setSide s (inr e) jn = bothSettled (inr d) (inr m) ->
  dimension (host w) = Some dim ->
  detailsEditorContainer (host w) = Some dc ->
  masterEditorContainer (host w) = Some mc ->
  dc <> mc ->
  let pos := getVerticalSashLeft (sash (host w)) in
  exists w',
    settle p (inr tt) w = Some w' /\
    outcome (Joined j) w' = Some (inr tt) /\
    host w' = set_masterEditor (Some m) (set_detailsEditor (Some d) (host w)) /\
    trace w' = trace w
               ++ SetVisible m (visible (host w)) :: SetVisible d (visible (host w))
                  :: layoutCalls d m dim pos ++ [Focus m] /\
    regionOf dc (dom w') = Some (detailsRegion dim pos) /\
    regionOf mc (dom w') = Some (masterRegion dim pos).
Proof.
  intros Hp Hj Hside Hdim Hdc Hmc Hne pos.
  eexists; split; [unfold settle; rewrite Hp; reflexivity|].
  destruct (finish_ready w p j s e jn d m dim dc mc)
    as (Ho & Hh & Ht & Hrd & Hrm & _); done.
Qed.

(** ** The reuse branch without children *)

(** X6. A [setInput] whose pair matches the current input while the
    details slot is empty (the pair is still being created, or has been
    torn down) fails: the new pair and options are recorded as current,
    no call is made on any child, and the promise is rejected with a
    [TypeError]. *)
Theorem matching_setInput_without_details w newInput opts :
  matches newInput (input (host w)) = true ->
  detailsEditor (host w) = None ->
  setInput newInput opts w
  = (with_host (fun h => set_options opts (set_input (Some newInput) h)) w,
     Rejected [TypeError]).
Proof.
  intros Hm Hd.
  destruct w as [h dm tr ne ps js]; destruct h; simpl in *; subst.
  unfold setInput, updateInput, BaseEditor_setInput. simpl. rewrite Hm.
  reflexivity.
Qed.

(** ** Calls on a disposed child *)

Lemma clearInput_disposes_master w m :
  masterEditor (host w) = Some m ->
  exists evs, trace (fst (clearInput w)) = trace w ++ evs /\ In (Dispose m) evs.
Proof.
  intros Hm.
  assert (Hst : stable (grows anyEvent) (removeContainers >> BaseEditor_clearInput)).
  { apply stable_bind; [by apply stable_removeContainers|intros _].
    unfold BaseEditor_clearInput. auto 10 with stable. }
  assert (Hrun : exists w1 pre,
             fst (clearInput w)
             = fst ((removeContainers >> BaseEditor_clearInput) w1) /\
             trace w1 = trace w ++ pre ++ [Dispose m]).
  { set (pre := match detailsEditor (host w) with
                  | Some d => [Dispose d]
                  | None => []
                  end).
    exists (with_trace (fun t => t ++ pre ++ [Dispose m])
              (with_host (set_detailsEditor None) w)), pre.
    split; [|done]. subst pre.
    destruct w as [h dm tr ne ps js]; destruct h; simpl in *; subst.
    destruct detailsEditor0 as [d|];
      unfold clearInput, disposeEditors, removeContainers; mrun;
      rewrite <- ?app_assoc; reflexivity. }
  destruct Hrun as (w1 & pre & Hrun & Hpre).
  destruct (Hst w1) as [_ (evs & Ht & _)].
  rewrite Hrun, Ht, Hpre.
  exists (pre ++ [Dispose m] ++ evs). split; [by rewrite <- !app_assoc|].
  apply in_or_app. right. by left.
Qed.

(** X7. After [clearInput] the master slot still refers to the child the
    teardown has disposed, and the host goes on using it: [focus] calls
    its [focus], and [getControl] answers with its control. *)
Theorem master_used_after_clearInput w m :
  masterEditor (host w) = Some m ->
  let w1 := fst (clearInput w) in
  (exists evs, trace w1 = trace w ++ evs /\ In (Dispose m) evs) /\
  focus w1 = (with_trace (fun t => t ++ [Focus m]) w1, Return tt) /\
  getControl w1 = (w1, Return (Some m)).
Proof.
  intros Hm w1.
  assert (Hm1 : masterEditor (host w1) = Some m)
    by (subst w1; by rewrite (clearInput_keeps_master w)).
  split; [by apply clearInput_disposes_master|].
  unfold focus, getControl, bind, get. by rewrite Hm1.
Qed.

(** ** The containers and the child nodes of the parent *)

Lemma existsb_eqb_elem_of c (l : list nat) :
  existsb (Nat.eqb c) l = true <-> c ∈ l.
Proof.
  rewrite existsb_exists. split.
  - intros (x & Hin & Heq). apply Nat.eqb_eq in Heq. subst.
    by apply list_elem_of_In.
  - intros Hin. exists c. split; [by apply list_elem_of_In|apply Nat.eqb_refl].
Qed.

Lemma elem_of_remove_first c (l : list nat) x :
  NoDup l -> x ∈ remove_first c l <-> x ∈ l /\ x <> c.
Proof.
  induction l as [|y l IH]; intros Hnd; simpl.
  - split; [by intros ?%elem_of_nil|by intros [?%elem_of_nil _]].
  - apply NoDup_cons in Hnd as [Hy Hnd].
    destruct (Nat.eqb_spec y c) as [->|Hne].
    + rewrite elem_of_cons. split.
      * intros Hx. split; [by right|]. by intros ->.
      * by intros [[->|Hx] Hxc].
    + rewrite !elem_of_cons, IH by done. split.
      * intros [->|[Hx Hxc]]; split; auto.
      * intros [[->|Hx] Hxc]; auto.
Qed.

Lemma NoDup_remove_first c (l : list nat) : NoDup l -> NoDup (remove_first c l).
Proof.
  induction l as [|y l IH]; intros Hnd; simpl; [done|].
  apply NoDup_cons in Hnd as [Hy Hnd].
  destruct (Nat.eqb_spec y c); [done|].
  apply NoDup_cons. split; [|by apply IH].
  rewrite elem_of_remove_first by done. tauto.
Qed.

Lemma Forall_remove_first (P : nat -> Prop) c (l : list nat) :
  Forall P l -> Forall P (remove_first c l).
Proof.
  induction 1 as [|y l Hy Hl IH]; simpl; [done|].
  destruct (Nat.eqb y c); [done|by constructor].
Qed.

Lemma remove_first_fresh c (l : list nat) : c ∉ l -> remove_first c l = l.
Proof.
  induction l as [|y l IH]; intros Hc; simpl; [done|].
  apply not_elem_of_cons in Hc as [Hcy Hc].
  destruct (Nat.eqb_spec y c) as [->|Hne]; [done|].
  f_equal. by apply IH.
Qed.

Lemma remove_first_app_fresh c (l r : list nat) :
  c ∉ l -> remove_first c (l ++ r) = l ++ remove_first c r.
Proof.
  induction l as [|y l IH]; intros Hc; simpl; [done|].
  apply not_elem_of_cons in Hc as [Hcy Hc].
  destruct (Nat.eqb_spec y c) as [->|Hne]; [done|].
  f_equal. by apply IH.
Qed.

Lemma wfDom_shape w w' : shapeOf w' = shapeOf w -> wfDom w -> wfDom w'.
Proof.
  unfold shapeOf. intros [= Hd Hm Hc Hn] [H1 H2 H3 H4 H5].
  split; rewrite ?Hd, ?Hm, ?Hc, ?Hn; done.
Qed.

Lemma keepsShape_ret {A} (a : A) : keepsShape (ret a).
Proof. by intros w. Qed.

Lemma keepsShape_throw {A} e : keepsShape (@throw _ A e).
Proof. by intros w. Qed.

Lemma keepsShape_bind {A B} (m : M A) (k : A -> M B) :
  keepsShape m -> (forall a, keepsShape (k a)) -> keepsShape (bind m k).
Proof.
  intros Hm Hk w. unfold bind. specialize (Hm w).
  destruct (m w) as [w1 [a|e]]; simpl in *; [|done].
  by rewrite Hk.
Qed.

Lemma keepsShape_get {A} (f : Host -> A) : keepsShape (get f).
Proof. by intros w. Qed.

Lemma keepsShape_put f : keepsContainers f -> keepsShape (put f).
Proof.
  intros Hf w. unfold shapeOf. simpl. by destruct (Hf (host w)) as [-> ->].
Qed.

Lemma keepsShape_emit ev : keepsShape (emit ev).
Proof. by intros w. Qed.

Lemma keepsShape_deref {A} (o : option A) : keepsShape (deref o).
Proof. destruct o; [apply keepsShape_ret|apply keepsShape_throw]. Qed.

Lemma keepsShape_when_some {A} (o : option A) (k : A -> M unit) :
  (forall a, keepsShape (k a)) -> keepsShape (when_some o k).
Proof. intros Hk. destruct o; [apply Hk|apply keepsShape_ret]. Qed.

Lemma keepsShape_setStyle c f : keepsShape (setStyle c f).
Proof. by intros w. Qed.

Lemma keepsShape_newPromise c : keepsShape (newPromise c).
Proof. by intros w. Qed.

Create HintDb shape.
#[local] Hint Resolve keepsShape_ret keepsShape_throw keepsShape_get
  keepsShape_emit keepsShape_deref keepsShape_setStyle keepsShape_newPromise : shape.
#[local] Hint Extern 1 (keepsShape (bind _ _)) =>
  apply keepsShape_bind; [|intros] : shape.
#[local] Hint Extern 1 (keepsShape (when_some _ _)) =>
  apply keepsShape_when_some; intros : shape.
#[local] Hint Extern 1 (keepsShape (put _)) =>
  apply keepsShape_put; intros []; split; reflexivity : shape.

Lemma keepsShape_dolayout p : keepsShape (dolayout p).
Proof.
  unfold dolayout.
  apply keepsShape_bind; [auto with shape|intros d].
  apply keepsShape_bind; [auto with shape|intros m].
  destruct d, m; auto 20 with shape.
Qed.

Lemma keepsShape_setEditorVisible v pos : keepsShape (setEditorVisible v pos).
Proof.
  unfold setEditorVisible, BaseEditor_setEditorVisible. auto 20 with shape.
Qed.

Lemma keepsShape_focus : keepsShape focus.
Proof. unfold focus. auto 10 with shape. Qed.

Lemma keepsShape_layout dim : keepsShape (layout dim).
Proof.
  unfold layout.
  apply keepsShape_bind; [auto with shape|intros _].
  apply keepsShape_bind; [auto with shape|intros s].
  destruct (setDimenesion s dim) as [s' fired].
  apply keepsShape_bind; [auto with shape|intros _].
  induction fired as [|p rest IH]; simpl; [auto with shape|].
  apply keepsShape_bind; [apply keepsShape_dolayout|done].
Qed.

Lemma keepsShape_onPositionChange s' p : keepsShape (onPositionChange s' p).
Proof.
  unfold onPositionChange. pose proof keepsShape_dolayout. auto 10 with shape.
Qed.

Lemma keepsShape_onEditorsCreated d m : keepsShape (onEditorsCreated d m).
Proof.
  unfold onEditorsCreated.
  pose proof keepsShape_dolayout. pose proof keepsShape_setEditorVisible.
  pose proof keepsShape_focus. auto 20 with shape.
Qed.

Lemma keepsShape__createEditor i c o : keepsShape (_createEditor i c o).
Proof. unfold _createEditor. destruct (getEditor i); auto 10 with shape. Qed.

Lemma shapeOf_tryComplete j w : shapeOf (tryComplete j w) = shapeOf w.
Proof.
  unfold tryComplete.
  destruct (joins w !! j) as [[[d|] [m|] [res|]]|]; try done.
  destruct d as [ed|d], m as [em|m]; try done.
  pose proof (keepsShape_onEditorsCreated d m w) as Hc.
  by destruct (onEditorsCreated d m w) as [w' [u|e]].
Qed.

Lemma keepsShape_join pd pm : keepsShape (join pd pm).
Proof.
  intros w. unfold join; simpl. rewrite shapeOf_tryComplete.
  by destruct pd, pm.
Qed.

Lemma keepsShape_setNewInput newInput opts : keepsShape (setNewInput newInput opts).
Proof.
  unfold setNewInput.
  pose proof keepsShape__createEditor. pose proof keepsShape_join.
  auto 20 with shape.
Qed.

Lemma shapeOf_settle p r w w' : settle p r w = Some w' -> shapeOf w' = shapeOf w.
Proof.
  unfold settle, finish. intros Hs.
  destruct (promises w !! p) as [[[i c o|e|r0] l]|]; [| | done | done].
  - destruct r as [err|u]; simplify_eq; [|done].
    destruct l as [[j s]|]; [|done]. by rewrite shapeOf_tryComplete.
  - simplify_eq. destruct l as [[j s]|]; [|done]. by rewrite shapeOf_tryComplete.
Qed.

Lemma removeChild_in c w :
  c ∈ childNodes (dom w) ->
  removeChild c w
  = (with_trace (fun t => t ++ [RemoveChild c])
       (with_dom (fun d => {| childNodes := remove_first c (childNodes d);
                              styles := styles d;
                              nextElement := nextElement d |}) w), Return tt).
Proof.
  intros Hin. unfold removeChild.
  by rewrite (proj2 (existsb_eqb_elem_of c _) Hin).
Qed.

(** On a well-formed world the two containers are removed without
    failure, and the world stays well-formed. *)
Lemma removeContainers_total w :
  wfDom w ->
  exists w',
    removeContainers w = (w', Return tt) /\
    wfDom w' /\
    host w' = set_masterEditorContainer None
                (set_detailsEditorContainer None (host w)) /\
    childNodes (dom w')
    = without (masterEditorContainer (host w))
        (without (detailsEditorContainer (host w)) (childNodes (dom w))) /\
    nextElement (dom w') = nextElement (dom w) /\
    styles (dom w') = styles (dom w) /\
    trace w' = trace w
               ++ match detailsEditorContainer (host w) with
                  | Some c => [RemoveChild c] | None => []
                  end
               ++ match masterEditorContainer (host w) with
                  | Some c => [RemoveChild c] | None => []
                  end /\
    promises w' = promises w /\ joins w' = joins w /\
    nextEditor w' = nextEditor w.
Proof.
  intros [Hnd Hfr Hdc Hmc Hne].
  destruct w as [h dm tr ne ps js]; destruct h; destruct dm as [cn st nx].
  simpl in *.
  destruct detailsEditorContainer0 as [dc|], masterEditorContainer0 as [mc|].
  - assert (Hin1 : dc ∈ cn) by auto.
    assert (Hin2 : mc ∈ remove_first dc cn).
    { apply elem_of_remove_first; [done|]. split; [auto|].
      intros ->. by apply (Hne dc dc). }
    eexists. split.
    { unfold removeContainers, bind, get, when_some. simpl.
      rewrite removeChild_in by done. simpl.
      rewrite removeChild_in by done. reflexivity. }
    simpl. split; [|repeat split; by rewrite <- ?app_assoc, ?app_nil_r].
    split; simpl; [by do 2 apply NoDup_remove_first
                  |by do 2 apply Forall_remove_first|done..].
  - assert (Hin1 : dc ∈ cn) by auto.
    eexists. split.
    { unfold removeContainers, bind, get, when_some. simpl.
      rewrite removeChild_in by done. reflexivity. }
    simpl. split; [|repeat split; by rewrite <- ?app_assoc, ?app_nil_r].
    split; simpl; [by apply NoDup_remove_first
                  |by apply Forall_remove_first|done..].
  - assert (Hin2 : mc ∈ cn) by auto.
    eexists. split.
    { unfold removeContainers, bind, get, when_some. simpl.
      rewrite removeChild_in by done. reflexivity. }
    simpl. split; [|repeat split; by rewrite <- ?app_assoc, ?app_nil_r].
    split; simpl; [by apply NoDup_remove_first
                  |by apply Forall_remove_first|done..].
  - eexists. split; [reflexivity|]. simpl.
    split; [by split|repeat split; by rewrite <- ?app_assoc, ?app_nil_r].
Qed.

Lemma disposeEditors_total w :
  wfDom w ->
  exists w',
    disposeEditors w = (w', Return tt) /\
    wfDom w' /\
    host w' = set_masterEditorContainer None
                (set_detailsEditorContainer None
                   (set_detailsEditor None (host w))) /\
    childNodes (dom w')
    = without (masterEditorContainer (host w))
        (without (detailsEditorContainer (host w)) (childNodes (dom w))) /\
    nextElement (dom w') = nextElement (dom w) /\
    styles (dom w') = styles (dom w) /\
    trace w' = trace w ++ teardownCalls (host w) /\
    promises w' = promises w /\ joins w' = joins w /\
    nextEditor w' = nextEditor w.
Proof.
  intros Hwf.
  set (w1 := with_trace
               (fun t => t ++ match detailsEditor (host w) with
                              | Some e => [Dispose e] | None => []
                              end
                           ++ match masterEditor (host w) with
                              | Some e => [Dispose e] | None => []
                              end)
               (with_host (set_detailsEditor None) w)).
  assert (Hrun : disposeEditors w = removeContainers w1).
  { subst w1. destruct w as [h dm tr ne ps js]; destruct h.
    destruct detailsEditor0, masterEditor0;
      unfold disposeEditors, removeContainers; mrun;
      rewrite <- ?app_assoc, ?app_nil_r; reflexivity. }
  assert (Hwf1 : wfDom w1)
    by (apply (wfDom_shape w); [by destruct w as [[] ?]|done]).
  destruct (removeContainers_total w1 Hwf1)
    as (w' & Hr & Hwf' & Hh & Hc & Hn & Hs & Ht & Hp & Hj & He).
  exists w'. rewrite Hrun. split; [done|]. split; [done|].
  rewrite Hh, Hc, Hn, Hs, Ht, Hp, Hj, He. subst w1.
  destruct w as [h dm tr ne ps js]; destruct h. simpl.
  unfold teardownCalls. simpl. by rewrite <- !app_assoc.
Qed.

Lemma createEditorContainers_eq w :
  createEditorContainers w = (containersCreated w, Return tt).
Proof.
  unfold createEditorContainers, containersCreated. run_cbv. reflexivity.
Qed.

Lemma createEditorContainers_run w :
  let nx := nextElement (dom w) in
  exists w',
    createEditorContainers w = (w', Return tt) /\
    host w' = set_masterEditorContainer (Some (S nx))
                (set_detailsEditorContainer (Some nx) (host w)) /\
    childNodes (dom w') = childNodes (dom w) ++ [nx; S nx] /\
    nextElement (dom w') = S (S nx) /\
    style_position (styleOf nx (dom w')) = absolute /\
    style_position (styleOf (S nx) (dom w')) = absolute /\
    trace w' = trace w ++ [AppendChild nx; AppendChild (S nx)] /\
    promises w' = promises w /\ joins w' = joins w /\
    nextEditor w' = nextEditor w.
Proof.
  intros nx. subst nx. exists (containersCreated w).
  split; [apply createEditorContainers_eq|].
  destruct w as [h [cn st nx] tr ne ps js].
  unfold containersCreated. run_cbv.
  split; [reflexivity|]. split; [by rewrite <- app_assoc|].
  split; [reflexivity|]. split.
  { rewrite (styleOf_insert_ne (S nx) nx) by lia.
    rewrite (styleOf_insert_ne (S nx) nx) by lia.
    by rewrite styleOf_insert_eq. }
  split; [by rewrite styleOf_insert_eq|].
  split; [by rewrite <- app_assoc|]. by repeat split.
Qed.

Lemma fresh_not_child w c :
  wfDom w -> nextElement (dom w) <= c -> c ∉ childNodes (dom w).
Proof.
  intros [_ Hfr _ _ _] Hc Hin.
  rewrite Forall_forall in Hfr. specialize (Hfr c Hin). lia.
Qed.

Lemma preservesWf_createEditorContainers : preservesWf createEditorContainers.
Proof.
  intros w Hwf.
  destruct (createEditorContainers_run w)
    as (w' & Hr & Hh & Hc & Hn & _). rewrite Hr. simpl.
  pose proof (fresh_not_child w _ Hwf (Nat.le_refl _)) as Hf1.
  pose proof (fresh_not_child w (S (nextElement (dom w))) Hwf) as Hf2.
  destruct Hwf as [Hnd Hfr Hdc Hmc Hne].
  split; rewrite ?Hh, ?Hc, ?Hn.
  - apply NoDup_app. split; [done|]. split.
    + intros x Hx [->|[->|?%elem_of_nil]%elem_of_cons]%elem_of_cons;
        [by apply Hf1|apply Hf2; [lia|done]|done].
    + apply NoDup_cons. split; [|apply NoDup_singleton].
      intros ?%list_elem_of_singleton. lia.
  - apply Forall_app. split.
    + eapply Forall_impl; [exact Hfr|]. simpl. lia.
    + repeat constructor; lia.
  - destruct (host w). simpl. intros c [= <-].
    apply elem_of_app. right. by left.
  - destruct (host w). simpl. intros c [= <-].
    apply elem_of_app. right. right. by left.
  - destruct (host w). simpl. intros a b [= <-] [= <-]. lia.
Qed.

Lemma preservesWf_bind {A B} (m : M A) (k : A -> M B) :
  preservesWf m -> (forall a, preservesWf (k a)) -> preservesWf (bind m k).
Proof.
  intros Hm Hk w Hwf. unfold bind. specialize (Hm w Hwf).
  destruct (m w) as [w1 [a|e]]; simpl in *; [|done]. by apply Hk.
Qed.

Lemma keepsShape_preservesWf {A} (m : M A) : keepsShape m -> preservesWf m.
Proof. intros Hm w Hwf. by apply (wfDom_shape w). Qed.

Lemma preservesWf_disposeEditors : preservesWf disposeEditors.
Proof.
  intros w Hwf. destruct (disposeEditors_total w Hwf) as (w' & Hr & Hwf' & _).
  by rewrite Hr.
Qed.

Lemma preservesWf_clearInput : preservesWf clearInput.
Proof.
  unfold clearInput.
  apply preservesWf_bind; [apply preservesWf_disposeEditors|intros _].
  apply keepsShape_preservesWf. unfold BaseEditor_clearInput. auto 10 with shape.
Qed.

Lemma preservesWf_updateInput old newInput opts :
  preservesWf (updateInput old newInput opts).
Proof.
  unfold updateInput. destruct (negb _).
  - apply preservesWf_bind; [|intros _].
    { destruct old; [apply preservesWf_disposeEditors|].
      apply keepsShape_preservesWf, keepsShape_ret. }
    apply preservesWf_bind; [apply preservesWf_createEditorContainers|intros _].
    apply keepsShape_preservesWf, keepsShape_setNewInput.
  - apply keepsShape_preservesWf. unfold child_setInput. auto 20 with shape.
Qed.

Lemma wfDom_setInput newInput opts w :
  wfDom w -> wfDom (fst (setInput newInput opts w)).
Proof.
  intros Hwf. rewrite fst_setInput.
  apply (preservesWf_bind (BaseEditor_setInput newInput opts)
           (fun _ => updateInput (input (host w)) newInput opts)); [| |done].
  - apply keepsShape_preservesWf. unfold BaseEditor_setInput. auto 10 with shape.
  - intros _. apply preservesWf_updateInput.
Qed.

Lemma wfDom_act a w w' : act a w = Some w' -> wfDom w -> wfDom w'.
Proof.
  destruct a as [i o| |v pos| |dim|s' pos|p r]; simpl; intros Ha Hwf;
    simplify_eq.
  - by apply wfDom_setInput.
  - by apply preservesWf_clearInput.
  - by apply (keepsShape_preservesWf _ (keepsShape_setEditorVisible v pos)).
  - by apply (keepsShape_preservesWf _ keepsShape_focus).
  - by apply (keepsShape_preservesWf _ (keepsShape_layout dim)).
  - by apply (keepsShape_preservesWf _ (keepsShape_onPositionChange s' pos)).
  - apply (wfDom_shape w); [by eapply shapeOf_settle|done].
Qed.

Lemma wfDom_run acts : forall w w', run acts w = Some w' -> wfDom w -> wfDom w'.
Proof.
  induction acts as [|a rest IH]; intros w w' Hrun Hwf; simpl in Hrun.
  - by simplify_eq.
  - destruct (act a w) as [w1|] eqn:E; [|done]. simpl in Hrun.
    eapply IH; [exact Hrun|]. by eapply wfDom_act.
Qed.

Lemma wfDom_created s : wfDom (created s).
Proof.
  split; simpl; [apply NoDup_nil_2|constructor|done..].
Qed.

(** X8. Whatever the workbench, the sash and the producers of promises
    do to an editor after [createEditor], the containers its two fields
    refer to are child nodes of the parent and distinct from each other,
    and no child node is newer than the next fresh element. *)
Theorem reachable_containers_attached s acts w :
  run acts (created s) = Some w -> wfDom w.
Proof. intros Hrun. eapply wfDom_run; [exact Hrun|apply wfDom_created]. Qed.

(** X9. On every world the editor can reach, [clearInput] returns
    normally: [removeChild] is only ever asked for child nodes.  It makes
    exactly the calls of a teardown, clears the input, the details slot
    and the two container fields, and the containers it held are no
    longer child nodes of the parent. *)
Theorem clearInput_reachable s acts w :
  run acts (created s) = Some w ->
  exists w',
    clearInput w = (w', Return tt) /\
    input (host w') = None /\
    detailsEditor (host w') = None /\
    detailsEditorContainer (host w') = None /\
    masterEditorContainer (host w') = None /\
    trace w' = trace w ++ teardownCalls (host w) /\
    childNodes (dom w')
    = without (masterEditorContainer (host w))
        (without (detailsEditorContainer (host w)) (childNodes (dom w))) /\
    forall c, detailsEditorContainer (host w) = Some c \/
              masterEditorContainer (host w) = Some c ->
              c ∉ childNodes (dom w').
Proof.
  intros Hrun.
  assert (Hwf : wfDom w) by (eapply wfDom_run; [exact Hrun|apply wfDom_created]).
  destruct (disposeEditors_total w Hwf)
    as (w1 & Hr & Hwf1 & Hh & Hc & Hn & Hs & Ht & _).
  exists (with_host (fun h => set_options None (set_input None h)) w1).
  split.
  { unfold clearInput. unfold bind at 1. rewrite Hr.
    unfold BaseEditor_clearInput. mrun. by destruct w1 as [[] ?]. }
  simpl. rewrite Hh, Ht, Hc.
  repeat split; [by destruct (host w)..|].
  destruct Hwf as [Hnd _ Hdc Hmc Hne].
  intros c Hc'. unfold without.
  destruct (detailsEditorContainer (host w)) as [dc|] eqn:Ed,
           (masterEditorContainer (host w)) as [mc|] eqn:Em;
    destruct Hc' as [Hc'|Hc']; simplify_eq;
    rewrite ?elem_of_remove_first by (try apply NoDup_remove_first; done);
    tauto.
Qed.

Lemma setNewInput_returns newInput opts w :
  exists w',
    setNewInput newInput opts w = (w', Return (Joined (length (joins w)))).
Proof.
  unfold setNewInput, bind, get.
  destruct (_createEditor_run (details newInput) (detailsEditorContainer (host w))
              None w) as (w1 & pd & E1 & Hj1 & _).
  rewrite E1.
  destruct (_createEditor_run (master newInput) (masterEditorContainer (host w1))
              opts w1) as (w2 & pm & E2 & Hj2 & _).
  rewrite E2. unfold join. rewrite Hj2, Hj1. by eexists.
Qed.

(** X10. On every world the editor can reach, a [setInput] whose pair
    does not match the current input is not rejected by the teardown: it
    answers with the promise of a new join, and when it returns the
    parent has lost exactly the two containers the host held and gained
    two new ones at its end, details before master, which the two fields
    now refer to. *)
Theorem recreate_swaps_containers s acts w newInput opts old :
  run acts (created s) = Some w ->
  input (host w) = Some old ->
  matches newInput (Some old) = false ->
  let nx := nextElement (dom w) in
  exists w' j,
    setInput newInput opts w = (w', Joined j) /\
    childNodes (dom w')
    = without (masterEditorContainer (host w))
        (without (detailsEditorContainer (host w)) (childNodes (dom w)))
      ++ [nx; S nx] /\
    detailsEditorContainer (host w') = Some nx /\
    masterEditorContainer (host w') = Some (S nx) /\
    nextElement (dom w') = S (S nx).
Proof.
  intros Hrun Hin Hmatch nx.
  assert (Hwf : wfDom w) by (eapply wfDom_run; [exact Hrun|apply wfDom_created]).
  set (w0 := with_host (fun h => set_options opts (set_input (Some newInput) h)) w).
  assert (Hwf0 : wfDom w0)
    by (apply (wfDom_shape w); [by destruct w as [[] ?]|done]).
  destruct (disposeEditors_total w0 Hwf0)
    as (w1 & Hr1 & _ & Hh1 & Hc1 & Hn1 & _).
  destruct (createEditorContainers_run w1)
    as (w2 & Hr2 & Hh2 & Hc2 & Hn2 & _).
  destruct (setNewInput_returns newInput opts w2) as (w3 & Hr3).
  pose proof (keepsShape_setNewInput newInput opts w2) as Hsh.
  rewrite Hr3 in Hsh. unfold shapeOf in Hsh. simpl in Hsh.
  injection Hsh as Hd3 Hm3 Hc3 Hn3.
  exists w3, (length (joins w2)). split.
  { unfold setInput, updateInput. rewrite Hin, Hmatch. simpl.
    unfold BaseEditor_setInput.
    unfold bind at 1. unfold bind at 1. simpl.
    change (with_host (set_options opts) (with_host (set_input (Some newInput)) w))
      with w0.
    unfold bind at 1. rewrite Hr1. unfold bind at 1. rewrite Hr2.
    by rewrite Hr3. }
  rewrite Hd3, Hm3, Hc3, Hn3, Hh2, Hc2, Hn2, Hc1, Hn1.
  subst w0 nx. by destruct w as [[] ?].
Qed.

(** X11. On every world the editor can reach, [createEditorContainers]
    appends two elements that were not child nodes before, the details
    container first, gives both the absolute position, and stores them
    in the two fields. *)
Theorem createEditorContainers_fresh s acts w :
  run acts (created s) = Some w ->
  let nx := nextElement (dom w) in
  exists w',
    createEditorContainers w = (w', Return tt) /\
    (nx ∉ childNodes (dom w)) /\ (S nx ∉ childNodes (dom w)) /\
    childNodes (dom w') = childNodes (dom w) ++ [nx; S nx] /\
    detailsEditorContainer (host w') = Some nx /\
    masterEditorContainer (host w') = Some (S nx) /\
    style_position (styleOf nx (dom w')) = absolute /\
    style_position (styleOf (S nx) (dom w')) = absolute /\
    trace w' = trace w ++ [AppendChild nx; AppendChild (S nx)].
Proof.
  intros Hrun nx.
  assert (Hwf : wfDom w) by (eapply wfDom_run; [exact Hrun|apply wfDom_created]).
  destruct (createEditorContainers_run w)
    as (w' & Hr & Hh & Hc & Hn & Ha1 & Ha2 & Ht & _).
  exists w'. split; [done|].
  split; [by apply fresh_not_child|].
  split; [apply fresh_not_child; [done|subst nx; lia]|].
  rewrite Hh. by destruct (host w).
Qed.

(** ** What moves the sash and the dimension *)

#[local] Instance sameGeometry_frame :
  Frame sameGeometry (fun _ => True) keepsGeometry.
Proof.
  split; [split|..]; unfold sameGeometry.
  - by intros w.
  - intros w1 w2 w3 [? ?] [? ?]. split; congruence.
  - by intros f w.
  - by intros f w.
  - by intros f w.
  - by intros ev w _.
  - intros f w Hf. apply Hf.
Qed.

Lemma geometry_onEditorsCreated d m : stable sameGeometry (onEditorsCreated d m).
Proof.
  intros w. rewrite onEditorsCreated_run.
  etrans; [|by apply stable_afterCommit]. by destruct w as [[] ?].
Qed.

Lemma geometry_tryComplete j w : sameGeometry w (tryComplete j w).
Proof.
  unfold tryComplete.
  destruct (joins w !! j) as [[[d|] [m|] [res|]]|]; try reflexivity.
  destruct d as [ed|d], m as [em|m]; try done.
  pose proof (geometry_onEditorsCreated d m w) as Hc.
  by destruct (onEditorsCreated d m w) as [w' [u|e]].
Qed.

Lemma geometry_setNewInput newInput opts :
  stable sameGeometry (setNewInput newInput opts).
Proof.
  unfold setNewInput.
  apply stable_bind; [apply stable_get|intros dc].
  apply stable_bind; [by apply stable__createEditor|intros pd].
  apply stable_bind; [apply stable_get|intros mc].
  apply stable_bind; [by apply stable__createEditor|intros pm].
  intros w. unfold join; simpl.
  etrans; [|apply geometry_tryComplete]. by destruct pd, pm.
Qed.

Lemma geometry_disposeEditors : stable sameGeometry disposeEditors.
Proof. unfold disposeEditors. auto 30 with stable. Qed.

Lemma geometry_setInput newInput opts w :
  sameGeometry w (fst (setInput newInput opts w)).
Proof.
  rewrite fst_setInput.
  apply (stable_bind (R := sameGeometry)).
  { unfold BaseEditor_setInput. auto 10 with stable. }
  intros _. unfold updateInput. destruct (negb _).
  - apply stable_bind; [|intros _].
    { destruct (input (host w)); [apply geometry_disposeEditors|apply stable_ret]. }
    apply stable_bind; [by apply stable_createEditorContainers|intros _].
    apply geometry_setNewInput.
  - unfold child_setInput. auto 30 with stable.
Qed.

Lemma geometry_settle p r w w' : settle p r w = Some w' -> sameGeometry w w'.
Proof.
  unfold settle, finish. intros Hs.
  destruct (promises w !! p) as [[[i c o|e|r0] l]|]; [| | done | done].
  - destruct r as [err|u]; simplify_eq; [|done].
    destruct l as [[j s]|]; [|done].
    etrans; [|apply geometry_tryComplete]. done.
  - simplify_eq. destruct l as [[j s]|]; [|done].
    etrans; [|apply geometry_tryComplete]. done.
Qed.

Lemma geometry_act a w w' :
  isResize a = false -> act a w = Some w' -> sameGeometry w w'.
Proof.
  destruct a as [i o| |v pos| |dim|s' pos|p r]; simpl; intros Hr Ha;
    simplify_eq.
  - apply geometry_setInput.
  - assert (Hst : stable sameGeometry clearInput); [|apply Hst].
    unfold clearInput, BaseEditor_clearInput.
    pose proof geometry_disposeEditors. auto 10 with stable.
  - assert (Hst : stable sameGeometry (setEditorVisible v pos)); [|apply Hst].
    unfold setEditorVisible, BaseEditor_setEditorVisible. auto 20 with stable.
  - assert (Hst : stable sameGeometry focus); [|apply Hst].
    unfold focus. auto 10 with stable.
  - by eapply geometry_settle.
Qed.

(** X12. The sash and the stored dimension belong to [layout] and to
    the drag of the sash alone: through any succession of [setInput],
    [clearInput], [setEditorVisible], [focus] and settled promises, both
    are what they were. *)
Theorem geometry_only_resized acts : forall w w',
  forallb (fun a => negb (isResize a)) acts = true ->
  run acts w = Some w' ->
  sash (host w') = sash (host w) /\ dimension (host w') = dimension (host w).
Proof.
  induction acts as [|a rest IH]; intros w w' Hall Hrun; simpl in *.
  - by simplify_eq.
  - apply andb_prop in Hall as [Ha Hall]. apply negb_true_iff in Ha.
    destruct (act a w) as [w1|] eqn:E; [|done]. simpl in Hrun.
    destruct (geometry_act a w w1 Ha E) as [Hs Hd].
    destruct (IH w1 w' Hall Hrun) as [Hs' Hd']. split; congruence.
Qed.

(** ** The first input *)

(** X13. A [setInput] on a host without current input tears nothing
    down, whatever the host holds: it disposes no child and removes no
    container; it appends two new containers to the parent and goes on
    to create the pair. *)
Theorem first_setInput_tears_nothing_down w newInput opts :
  input (host w) = None ->
  matches newInput None = false ->
  let w' := fst (setInput newInput opts w) in
  let nx := nextElement (dom w) in
  (exists evs,
     trace w' = trace w ++ AppendChild nx :: AppendChild (S nx) :: evs /\
     Forall notDispose evs) /\
  childNodes (dom w') = childNodes (dom w) ++ [nx; S nx] /\
  detailsEditorContainer (host w') = Some nx /\
  masterEditorContainer (host w') = Some (S nx).
Proof.
  intros Hin Hmatch w' nx. subst w'. rewrite setInput_first_run by done.
  set (w0 := with_host _ w).
  destruct (createEditorContainers_run w0)
    as (w2 & Hr2 & Hh2 & Hc2 & Hn2 & _ & _ & Ht2 & _).
  assert (Hrun : fst ((createEditorContainers >> setNewInput newInput opts) w0)
                 = fst (setNewInput newInput opts w2))
    by (unfold bind; by rewrite Hr2).
  rewrite Hrun.
  destruct (stable_setNewInput newInput opts w2) as [_ (evs & Ht & Hnd)].
  pose proof (keepsShape_setNewInput newInput opts w2) as Hsh.
  unfold shapeOf in Hsh. injection Hsh as Hd3 Hm3 Hc3 Hn3.
  rewrite Ht, Hd3, Hm3, Hc3, Hh2, Hc2, Ht2. subst w0 nx.
  split; [|by destruct w as [[] ?]].
  exists evs. split; [|done]. simpl. by rewrite <- app_assoc.
Qed.

(** ** The creation of a pair, whatever the order of the answers *)

Lemma setNewInput_creating newInput opts dd dm w :
  getEditor (details newInput) = Some dd ->
  getEditor (master newInput) = Some dm ->
  let pd := length (promises w) in
  let j := length (joins w) in
  exists w',
    setNewInput newInput opts w = (w', Return (Joined j)) /\
    creating pd (S pd) j
      (AwaitInstance (details newInput) (detailsEditorContainer (host w)) None)
      (AwaitInstance (master newInput) (masterEditorContainer (host w)) opts) w' /\
    host w' = host w /\ dom w' = dom w /\
    trace w' = trace w ++ [CreateInstance dd; CreateInstance dm] /\
    nextEditor w' = nextEditor w.
Proof.
  intros Hd Hm pd j. subst pd j.
  destruct w as [h dm0 tr ne ps js]; destruct h.
  unfold setNewInput, _createEditor. rewrite Hd, Hm.
  unfold join, listen, memberState, newPromise. run_cbv.
  match goal with
  | |- context [(ps ++ [?a]) ++ [?b]] => set (P0 := a); set (P1 := b)
  end.
  assert (Hl0 : ((ps ++ [P0]) ++ [P1]) !! length ps = Some P0)
    by (rewrite <- app_assoc; by apply list_lookup_middle).
  assert (Hl1 : ((ps ++ [P0]) ++ [P1]) !! length (ps ++ [P0]) = Some P1)
    by (by apply list_lookup_middle).
  rewrite Hl0, Hl1. clear Hl0 Hl1. cbn [fmap option_fmap option_map].
  rewrite <- (app_assoc ps [P0] [P1]), length_app.
  rewrite alter_app_r_alt, Nat.sub_diag by lia.
  rewrite alter_app_r_alt by (simpl; lia).
  replace (length ps + length [P0] - length ps) with 1 by (simpl; lia).
  subst P0 P1. cbn [alter list_alter app chain].
  unfold tryComplete. cbn [joins]. rewrite list_lookup_middle by done.
  cbn [chain].
  eexists; split; [reflexivity|].
  split; [|by rewrite <- app_assoc].
  split; cbn [promises joins resultOf].
  - by apply list_lookup_middle.
  - rewrite lookup_app_r by lia.
    by replace (S (length ps) - length ps) with 1 by lia.
  - lia.
  - by apply list_lookup_middle.
Qed.

Lemma settle_instance_details pd pm j i c o sm w :
  creating pd pm j (AwaitInstance i c o) sm w ->
  exists w',
    settle pd (inr tt) w = Some w' /\
    creating pd pm j (AwaitInput (nextEditor w)) sm w' /\
    host w' = host w /\ dom w' = dom w /\
    trace w' = trace w ++ [Create (nextEditor w) c; SetInput (nextEditor w) i o] /\
    nextEditor w' = S (nextEditor w).
Proof.
  intros [Hd Hm Hne Hj].
  eexists; split; [unfold settle; rewrite Hd; reflexivity|].
  split; [|done]. split; cbn [promises joins with_promises with_trace
                              with_nextEditor resultOf]; [| |done..].
  - apply list_lookup_insert_eq. by eapply lookup_lt_Some.
  - by rewrite list_lookup_insert_ne.
Qed.

Lemma settle_instance_master pd pm j i c o sd w :
  creating pd pm j sd (AwaitInstance i c o) w ->
  exists w',
    settle pm (inr tt) w = Some w' /\
    creating pd pm j sd (AwaitInput (nextEditor w)) w' /\
    host w' = host w /\ dom w' = dom w /\
    trace w' = trace w ++ [Create (nextEditor w) c; SetInput (nextEditor w) i o] /\
    nextEditor w' = S (nextEditor w).
Proof.
  intros [Hd Hm Hne Hj].
  eexists; split; [unfold settle; rewrite Hm; reflexivity|].
  split; [|done]. split; cbn [promises joins with_promises with_trace
                              with_nextEditor resultOf]; [| |done..].
  - by rewrite list_lookup_insert_ne.
  - apply list_lookup_insert_eq. by eapply lookup_lt_Some.
Qed.

Lemma settle_input_details pd pm j e sm w :
  creating pd pm j (AwaitInput e) sm w ->
  resultOf sm = None ->
  exists w',
    settle pd (inr tt) w = Some w' /\
    creating pd pm j (Settled (inr e)) sm w' /\
    host w' = host w /\ dom w' = dom w /\ trace w' = trace w /\
    nextEditor w' = nextEditor w.
Proof.
  intros [Hd Hm Hne Hj] Hsm.
  eexists; split; [unfold settle; rewrite Hd; reflexivity|].
  unfold finish, tryComplete.
  cbn [joins with_joins with_promises].
  rewrite list_lookup_alter_eq, Hj. cbn [fmap option_fmap option_map setSide
    joinDetails joinMaster joinResult].
  rewrite Hsm. cbn [resultOf] in *.
  split; [|done].
  split; cbn [promises joins with_joins with_promises resultOf]; [| |done|].
  - apply list_lookup_insert_eq. by eapply lookup_lt_Some.
  - by rewrite list_lookup_insert_ne.
  - by rewrite list_lookup_alter_eq, Hj, Hsm.
Qed.

Lemma settle_input_master pd pm j e sd w :
  creating pd pm j sd (AwaitInput e) w ->
  resultOf sd = None ->
  exists w',
    settle pm (inr tt) w = Some w' /\
    creating pd pm j sd (Settled (inr e)) w' /\
    host w' = host w /\ dom w' = dom w /\ trace w' = trace w /\
    nextEditor w' = nextEditor w.
Proof.
  intros [Hd Hm Hne Hj] Hsd.
  eexists; split; [unfold settle; rewrite Hm; reflexivity|].
  unfold finish, tryComplete.
  cbn [joins with_joins with_promises].
  rewrite list_lookup_alter_eq, Hj. cbn [fmap option_fmap option_map setSide
    joinDetails joinMaster joinResult].
  rewrite Hsd. cbn [resultOf] in *.
  split; [|done].
  split; cbn [promises joins with_joins with_promises resultOf]; [| |done|].
  - by rewrite list_lookup_insert_ne.
  - apply list_lookup_insert_eq. by eapply lookup_lt_Some.
  - by rewrite list_lookup_alter_eq, Hj, Hsd.
Qed.

Lemma settle_last_details pd pm j d m w dim dc mc :
  creating pd pm j (AwaitInput d) (Settled (inr m)) w ->
  dimension (host w) = Some dim ->
  detailsEditorContainer (host w) = Some dc ->
  masterEditorContainer (host w) = Some mc ->
  dc <> mc ->
  exists w',
    settle pd (inr tt) w = Some w' /\
    outcome (Joined j) w' = Some (inr tt) /\
    host w' = set_masterEditor (Some m) (set_detailsEditor (Some d) (host w)) /\
    trace w' = trace w
               ++ SetVisible m (visible (host w)) :: SetVisible d (visible (host w))
                  :: layoutCalls d m dim (getVerticalSashLeft (sash (host w)))
                  ++ [Focus m] /\
    regionOf dc (dom w')
    = Some (detailsRegion dim (getVerticalSashLeft (sash (host w)))) /\
    regionOf mc (dom w')
    = Some (masterRegion dim (getVerticalSashLeft (sash (host w)))) /\
    nextEditor w' = nextEditor w.
Proof.
  intros [Hd Hm Hne Hj] Hdim Hdc Hmc Hcs.
  eexists; split; [unfold settle; rewrite Hd; reflexivity|].
  by apply (finish_ready w pd j DetailsSide d _ d m dim dc mc Hj).
Qed.

Lemma settle_last_master pd pm j d m w dim dc mc :
  creating pd pm j (Settled (inr d)) (AwaitInput m) w ->
  dimension (host w) = Some dim ->
  detailsEditorContainer (host w) = Some dc ->
  masterEditorContainer (host w) = Some mc ->
  dc <> mc ->
  exists w',
    settle pm (inr tt) w = Some w' /\
    outcome (Joined j) w' = Some (inr tt) /\
    host w' = set_masterEditor (Some m) (set_detailsEditor (Some d) (host w)) /\
    trace w' = trace w
               ++ SetVisible m (visible (host w)) :: SetVisible d (visible (host w))
                  :: layoutCalls d m dim (getVerticalSashLeft (sash (host w)))
                  ++ [Focus m] /\
    regionOf dc (dom w')
    = Some (detailsRegion dim (getVerticalSashLeft (sash (host w)))) /\
    regionOf mc (dom w')
    = Some (masterRegion dim (getVerticalSashLeft (sash (host w)))) /\
    nextEditor w' = nextEditor w.
Proof.
  intros [Hd Hm Hne Hj] Hdim Hdc Hmc Hcs.
  eexists; split; [unfold settle; rewrite Hm; reflexivity|].
  by apply (finish_ready w pm j MasterSide m _ d m dim dc mc Hj).
Qed.

Lemma creation_any_order pd pm j i1 c1 o1 i2 c2 o2 w sched dim dc mc :
  creating pd pm j (AwaitInstance i1 c1 o1) (AwaitInstance i2 c2 o2) w ->
  dimension (host w) = Some dim ->
  detailsEditorContainer (host w) = Some dc ->
  masterEditorContainer (host w) = Some mc ->
  dc <> mc ->
  sched ∈ settlementOrders pd pm ->
  let ne := nextEditor w in
  let pos := getVerticalSashLeft (sash (host w)) in
  exists w' d m creation,
    run sched w = Some w' /\
    outcome (Joined j) w' = Some (inr tt) /\
    host w' = set_masterEditor (Some m) (set_detailsEditor (Some d) (host w)) /\
    trace w' = trace w ++ creation
               ++ SetVisible m (visible (host w)) :: SetVisible d (visible (host w))
                  :: layoutCalls d m dim pos ++ [Focus m] /\
    regionOf dc (dom w') = Some (detailsRegion dim pos) /\
    regionOf mc (dom w') = Some (masterRegion dim pos) /\
    nextEditor w' = S (S ne) /\
    (d = ne /\ m = S ne /\
     creation = [Create d c1; SetInput d i1 o1; Create m c2; SetInput m i2 o2] \/
     m = ne /\ d = S ne /\
     creation = [Create m c2; SetInput m i2 o2; Create d c1; SetInput d i1 o1]).
Proof.
  intros Hc Hdim Hdc Hmc Hcs Hs ne pos. subst ne pos.
  unfold settlementOrders in Hs.
  repeat (apply elem_of_cons in Hs as [->|Hs]); [..|by apply elem_of_nil in Hs].
  - four_answers settle_instance_details settle_input_details
      settle_instance_master settle_last_master Hc.
    split; [reflexivity|]. split; cycle 1.
    { do 3 (split; [reflexivity|]). left. repeat split. }
    by rewrite <- !app_assoc.
  - four_answers settle_instance_details settle_instance_master
      settle_input_details settle_last_master Hc.
    split; [reflexivity|]. split; cycle 1.
    { do 3 (split; [reflexivity|]). left. repeat split. }
    by rewrite <- !app_assoc.
  - four_answers settle_instance_details settle_instance_master
      settle_input_master settle_last_details Hc.
    split; [reflexivity|]. split; cycle 1.
    { do 3 (split; [reflexivity|]). left. repeat split. }
    by rewrite <- !app_assoc.
  - four_answers settle_instance_master settle_input_master
      settle_instance_details settle_last_details Hc.
    split; [reflexivity|]. split; cycle 1.
    { do 3 (split; [reflexivity|]). right. repeat split. }
    by rewrite <- !app_assoc.
  - four_answers settle_instance_master settle_instance_details
      settle_input_master settle_last_details Hc.
    split; [reflexivity|]. split; cycle 1.
    { do 3 (split; [reflexivity|]). right. repeat split. }
    by rewrite <- !app_assoc.
  - four_answers settle_instance_master settle_instance_details
      settle_input_details settle_last_master Hc.
    split; [reflexivity|]. split; cycle 1.
    { do 3 (split; [reflexivity|]). right. repeat split. }
    by rewrite <- !app_assoc.
Qed.

Lemma setInput_sync w newInput opts :
  wfDom w ->
  matches newInput (input (host w)) = false ->
  let nx := nextElement (dom w) in
  exists w2,
    (BaseEditor_setInput newInput opts >>
     updateInput (input (host w)) newInput opts) w
    = setNewInput newInput opts w2 /\
    host w2
    = {| input := Some newInput; options := opts;
         visible := visible (host w); position := position (host w);
         dimension := dimension (host w);
         masterEditor := masterEditor (host w);
         masterEditorContainer := Some (S nx);
         detailsEditor := match input (host w) with
                          | Some _ => None
                          | None => detailsEditor (host w)
                          end;
         detailsEditorContainer := Some nx;
         sash := sash (host w) |} /\
    trace w2 = trace w
               ++ match input (host w) with
                  | Some _ => teardownCalls (host w)
                  | None => []
                  end
               ++ [AppendChild nx; AppendChild (S nx)] /\
    promises w2 = promises w /\ joins w2 = joins w /\
    nextEditor w2 = nextEditor w /\
    childNodes (dom w2)
    = match input (host w) with
      | Some _ => without (masterEditorContainer (host w))
                    (without (detailsEditorContainer (host w))
                       (childNodes (dom w)))
      | None => childNodes (dom w)
      end ++ [nx; S nx].
Proof.
  intros Hwf Hmatch nx.
  set (w0 := with_host (fun h => set_options opts (set_input (Some newInput) h)) w).
  assert (Hwf0 : wfDom w0)
    by (apply (wfDom_shape w); [by destruct w as [[] ?]|done]).
  assert (Hstart : (BaseEditor_setInput newInput opts >>
                    updateInput (input (host w)) newInput opts) w
                   = (when_some (input (host w)) (fun _ => disposeEditors) >>
                      createEditorContainers >> setNewInput newInput opts) w0).
  { unfold updateInput. rewrite Hmatch. by destruct w as [[] ?]. }
  rewrite Hstart. clear Hstart.
  destruct (input (host w)) as [old|] eqn:Hin.
  - destruct (disposeEditors_total w0 Hwf0)
      as (w1 & Hr1 & _ & Hh1 & Hc1 & Hn1 & _ & Ht1 & Hp1 & Hj1 & He1).
    destruct (createEditorContainers_run w1)
      as (w2 & Hr2 & Hh2 & Hc2 & _ & _ & _ & Ht2 & Hp2 & Hj2 & He2).
    exists w2. split.
    { unfold when_some. unfold bind at 1. rewrite Hr1.
      unfold bind at 1. by rewrite Hr2. }
    rewrite Hh2, Ht2, Hp2, Hj2, He2, Hc2, Hh1, Ht1, Hp1, Hj1, He1, Hc1, Hn1.
    subst w0 nx. destruct w as [[] ?]. simpl.
    by rewrite <- app_assoc.
  - destruct (createEditorContainers_run w0)
      as (w2 & Hr2 & Hh2 & Hc2 & _ & _ & _ & Ht2 & Hp2 & Hj2 & He2).
    exists w2. split.
    { unfold when_some. unfold bind at 1. unfold ret.
      unfold bind at 1. by rewrite Hr2. }
    rewrite Hh2, Ht2, Hp2, Hj2, He2, Hc2.
    subst w0 nx. by destruct w as [[] ?].
Qed.

(** X14. On every world the editor can reach, with a stored dimension,
    a [setInput] whose pair does not match the current input and whose
    two inputs have a registered editor answers with a pending promise,
    and in whichever order the producers then answer for the two sides
    the promise is fulfilled at the fourth answer: the host holds the
    new pair, two new children that take the two next editor numbers in
    the order in which their instances arrived, and the two new
    containers laid out at the sash position; the calls are those of the
    teardown (when there was an input), the two containers, the two
    instances asked for in the order details, master, the creation of
    the two children in the order of arrival, and the commit. *)
Theorem setInput_completes_in_any_order s acts w newInput opts dd dm dim sched :
  run acts (created s) = Some w ->
  matches newInput (input (host w)) = false ->
  getEditor (details newInput) = Some dd ->
  getEditor (master newInput) = Some dm ->
  dimension (host w) = Some dim ->
  sched ∈ settlementOrders (length (promises w)) (S (length (promises w))) ->
  let nx := nextElement (dom w) in
  let ne := nextEditor w in
  let pos := getVerticalSashLeft (sash (host w)) in
  exists w0 j w' d m creation,
    setInput newInput opts w = (w0, Joined j) /\
    outcome (Joined j) w0 = None /\
    run sched w0 = Some w' /\
    outcome (Joined j) w' = Some (inr tt) /\
    host w'
    = {| input := Some newInput; options := opts;
         visible := visible (host w); position := position (host w);
         dimension := Some dim;
         masterEditor := Some m; masterEditorContainer := Some (S nx);
         detailsEditor := Some d; detailsEditorContainer := Some nx;
         sash := sash (host w) |} /\
    regionOf nx (dom w') = Some (detailsRegion dim pos) /\
    regionOf (S nx) (dom w') = Some (masterRegion dim pos) /\
    trace w'
    = trace w
      ++ match input (host w) with
         | Some _ => teardownCalls (host w)
         | None => []
         end
      ++ [AppendChild nx; AppendChild (S nx);
          CreateInstance dd; CreateInstance dm]
      ++ creation
      ++ SetVisible m (visible (host w)) :: SetVisible d (visible (host w))
         :: layoutCalls d m dim pos ++ [Focus m] /\
    (d = ne /\ m = S ne /\
     creation = [Create d (Some nx); SetInput d (details newInput) None;
                 Create m (Some (S nx)); SetInput m (master newInput) opts] \/
     m = ne /\ d = S ne /\
     creation = [Create m (Some (S nx)); SetInput m (master newInput) opts;
                 Create d (Some nx); SetInput d (details newInput) None]).
Proof.
  intros Hreach Hmatch Hdd Hdm Hdim Hsched nx ne pos.
  assert (Hwf : wfDom w) by (eapply wfDom_run; [exact Hreach|apply wfDom_created]).
  destruct (setInput_sync w newInput opts Hwf Hmatch)
    as (w2 & Hsync & Hh2 & Ht2 & Hp2 & Hj2 & He2 & _).
  destruct (setNewInput_creating newInput opts dd dm w2 Hdd Hdm)
    as (w3 & Hr3 & Hc3 & Hh3 & Hd3 & Ht3 & He3).
  rewrite Hp2, Hj2 in Hc3.
  assert (Hdc : detailsEditorContainer (host w2) = Some nx) by (by rewrite Hh2).
  assert (Hmc : masterEditorContainer (host w2) = Some (S nx)) by (by rewrite Hh2).
  rewrite Hdc, Hmc in Hc3.
  destruct (creation_any_order _ _ _ _ _ _ _ _ _ w3 sched dim nx (S nx) Hc3)
    as (w' & d & m & creation & Hrun & Ho & Hh & Ht & Hrd & Hrm & _ & Hcr);
    [by rewrite Hh3, Hh2|by rewrite Hh3|by rewrite Hh3|lia|done|].
  exists w3, (length (joins w)), w', d, m, creation.
  split; [unfold setInput; by rewrite Hsync, Hr3, Hj2|].
  split; [unfold outcome; by rewrite (cr_join _ _ _ _ _ _ Hc3)|].
  split; [done|]. split; [done|].
  rewrite He3, He2 in Hcr.
  rewrite Hh, Ht, Hrd, Hrm, Hh3, Ht3, Hh2, Ht2.
  split; [by rewrite Hdim|]. split; [done|]. split; [done|].
  split; [|done]. cbn [visible sash]. by rewrite <- !app_assoc.
Qed.

(** ** What changes the current input *)

#[local] Instance sameInput_frame : Frame sameInput (fun _ => True) keepsInput.
Proof.
  split; [split|..]; unfold sameInput.
  - by intros w.
  - intros w1 w2 w3 [? ?] [? ?]. split; congruence.
  - by intros f w.
  - by intros f w.
  - by intros f w.
  - by intros ev w _.
  - intros f w Hf. apply Hf.
Qed.

Lemma input_dolayout p : stable sameInput (dolayout p).
Proof.
  unfold dolayout.
  apply stable_bind; [auto with stable|intros d].
  apply stable_bind; [auto with stable|intros m].
  destruct d, m; auto 20 with stable.
Qed.

Lemma input_layout dim : stable sameInput (layout dim).
Proof.
  unfold layout.
  apply stable_bind; [auto with stable|intros _].
  apply stable_bind; [auto with stable|intros s].
  destruct (setDimenesion s dim) as [s' fired].
  apply stable_bind; [auto with stable|intros _].
  induction fired as [|p rest IH]; simpl; [auto with stable|].
  apply stable_bind; [apply input_dolayout|done].
Qed.

Lemma input_onEditorsCreated d m : stable sameInput (onEditorsCreated d m).
Proof.
  intros w. rewrite onEditorsCreated_run.
  etrans; [|by apply stable_afterCommit]. by destruct w as [[] ?].
Qed.

Lemma input_tryComplete j w : sameInput w (tryComplete j w).
Proof.
  unfold tryComplete.
  destruct (joins w !! j) as [[[d|] [m|] [res|]]|]; try reflexivity.
  destruct d as [ed|d], m as [em|m]; try done.
  pose proof (input_onEditorsCreated d m w) as Hc.
  by destruct (onEditorsCreated d m w) as [w' [u|e]].
Qed.

Lemma input_settle p r w w' : settle p r w = Some w' -> sameInput w w'.
Proof.
  unfold settle, finish. intros Hs.
  destruct (promises w !! p) as [[[i c o|e|r0] l]|]; [| | done | done].
  - destruct r as [err|u]; simplify_eq; [|done].
    destruct l as [[j s]|]; [|done].
    etrans; [|apply input_tryComplete]. done.
  - simplify_eq. destruct l as [[j s]|]; [|done].
    etrans; [|apply input_tryComplete]. done.
Qed.

Lemma input_act a w w' :
  isInputChange a = false -> act a w = Some w' -> sameInput w w'.
Proof.
  destruct a as [i o| |v pos| |dim|s' pos|p r]; simpl; intros Hr Ha;
    simplify_eq.
  - assert (Hst : stable sameInput (setEditorVisible v pos)); [|apply Hst].
    unfold setEditorVisible, BaseEditor_setEditorVisible. auto 20 with stable.
  - assert (Hst : stable sameInput focus); [|apply Hst].
    unfold focus. auto 10 with stable.
  - apply input_layout.
  - assert (Hst : stable sameInput (onPositionChange s' pos)); [|apply Hst].
    unfold onPositionChange. pose proof input_dolayout. auto 10 with stable.
  - by eapply input_settle.
Qed.

(** X15. The current input and its options belong to [setInput] and
    [clearInput] alone: through any succession of [setEditorVisible],
    [focus], [layout], drags of the sash and settled promises (the
    commit of a created pair included) both are what they were. *)
Theorem input_only_set_or_cleared acts : forall w w',
  forallb (fun a => negb (isInputChange a)) acts = true ->
  run acts w = Some w' ->
  input (host w') = input (host w) /\ options (host w') = options (host w).
Proof.
  induction acts as [|a rest IH]; intros w w' Hall Hrun; simpl in *.
  - by simplify_eq.
  - apply andb_prop in Hall as [Ha Hall]. apply negb_true_iff in Ha.
    destruct (act a w) as [w1|] eqn:E; [|done]. simpl in Hrun.
    destruct (input_act a w w1 Ha E) as [Hi Ho].
    destruct (IH w1 w' Hall Hrun) as [Hi' Ho']. split; congruence.
Qed.

(** ** The parent holds the containers of the host and no other *)

Lemma tidy_kept w w' :
  shapeOf w' = shapeOf w -> sameInput w w' -> tidy w -> tidy w'.
Proof.
  unfold shapeOf, heldContainers. intros [= Hd Hm Hc Hn] [Hi _] [H1 H2].
  split; unfold heldContainers; rewrite ?Hd, ?Hm, ?Hc, ?Hi; done.
Qed.

Lemma without_held h :
  without (masterEditorContainer h)
    (without (detailsEditorContainer h) (heldContainers h)) = [].
Proof.
  unfold heldContainers, without, remove_first.
  destruct (detailsEditorContainer h) as [a|], (masterEditorContainer h) as [b|];
    simpl; by rewrite ?Nat.eqb_refl.
Qed.

Lemma input_setNewInput newInput opts :
  stable sameInput (setNewInput newInput opts).
Proof.
  unfold setNewInput.
  apply stable_bind; [apply stable_get|intros dc].
  apply stable_bind; [by apply stable__createEditor|intros pd].
  apply stable_bind; [apply stable_get|intros mc].
  apply stable_bind; [by apply stable__createEditor|intros pm].
  intros w. unfold join; simpl.
  etrans; [|apply input_tryComplete]. by destruct pd, pm.
Qed.

Lemma input_updateInput old newInput opts :
  stable sameInput (updateInput old newInput opts).
Proof.
  unfold updateInput. destruct (negb _).
  - apply stable_bind; [|intros _].
    { destruct old; [|apply stable_ret].
      unfold disposeEditors. auto 30 with stable. }
    apply stable_bind; [by apply stable_createEditorContainers|intros _].
    apply input_setNewInput.
  - unfold child_setInput. auto 30 with stable.
Qed.

Lemma input_after_setInput newInput opts w :
  host (fst ((BaseEditor_setInput newInput opts >>
              updateInput (input (host w)) newInput opts) w))
  = host (fst (updateInput (input (host w)) newInput opts
                 (with_host (fun h => set_options opts
                                        (set_input (Some newInput) h)) w))).
Proof. by destruct w as [[] ?]. Qed.

(** X16. Whatever the host holds and however the call ends (fulfilled,
    pending or rejected), when [setInput] returns the current input is
    the new pair and the current options are the new options. *)
Theorem setInput_records_input newInput opts w :
  let w' := fst (setInput newInput opts w) in
  input (host w') = Some newInput /\ options (host w') = opts.
Proof.
  intros w'. subst w'. rewrite fst_setInput, input_after_setInput.
  set (w0 := with_host _ w).
  destruct (input_updateInput (input (host w)) newInput opts w0) as [Hi Ho].
  rewrite Hi, Ho. subst w0. by destruct w as [[] ?].
Qed.

Lemma shape_setInput_matching newInput opts w :
  matches newInput (input (host w)) = true ->
  shapeOf (fst (setInput newInput opts w)) = shapeOf w.
Proof.
  intros Hm. rewrite fst_setInput.
  apply (keepsShape_bind (BaseEditor_setInput newInput opts)
           (fun _ => updateInput (input (host w)) newInput opts)).
  - unfold BaseEditor_setInput. auto 10 with shape.
  - intros _. unfold updateInput. rewrite Hm. simpl.
    unfold child_setInput. auto 20 with shape.
Qed.

Lemma tidy_setInput newInput opts w :
  wfDom w -> tidy w -> tidy (fst (setInput newInput opts w)).
Proof.
  intros Hwf [Hnodes Hidle].
  assert (Hin : input (host (fst (setInput newInput opts w))) = Some newInput).
  { rewrite fst_setInput, input_after_setInput.
    set (w0 := with_host _ w).
    destruct (input_updateInput (input (host w)) newInput opts w0) as [Hi _].
    rewrite Hi. subst w0. by destruct w as [[] ?]. }
  split; [|by rewrite Hin].
  destruct (matches newInput (input (host w))) eqn:Hm.
  - pose proof (shape_setInput_matching newInput opts w Hm) as Hsh.
    unfold shapeOf in Hsh. injection Hsh as Hd Hmc Hc _.
    unfold heldContainers. by rewrite Hd, Hmc, Hc.
  - destruct (setInput_sync w newInput opts Hwf Hm)
      as (w2 & Hsync & Hh2 & _ & _ & _ & _ & Hc2).
    rewrite fst_setInput, Hsync.
    pose proof (keepsShape_setNewInput newInput opts w2) as Hsh.
    unfold shapeOf in Hsh. injection Hsh as Hd Hmc Hc _.
    unfold heldContainers. rewrite Hd, Hmc, Hc, Hh2, Hc2. simpl.
    destruct (input (host w)).
    + by rewrite Hnodes, without_held.
    + destruct Hidle as [Hd0 Hm0]; [done|].
      rewrite Hnodes. unfold heldContainers. by rewrite Hd0, Hm0.
Qed.

Lemma tidy_clearInput w : wfDom w -> tidy w -> tidy (fst (clearInput w)).
Proof.
  intros Hwf [Hnodes Hidle].
  destruct (disposeEditors_total w Hwf)
    as (w1 & Hr & _ & Hh & Hc & _).
  assert (Hrun : fst (clearInput w)
                 = with_host (fun h => set_options None (set_input None h)) w1).
  { unfold clearInput. unfold bind at 1. rewrite Hr.
    unfold BaseEditor_clearInput. mrun. by destruct w1 as [[] ?]. }
  rewrite Hrun. split; simpl.
  - rewrite Hc, Hh, Hnodes, without_held. by destruct (host w).
  - rewrite Hh. by destruct (host w).
Qed.

Lemma tidy_act a w w' : act a w = Some w' -> wfDom w -> tidy w -> tidy w'.
Proof.
  intros Ha Hwf Ht. destruct (isInputChange a) eqn:Hic.
  - destruct a; try done; simpl in Ha; simplify_eq.
    + by apply tidy_setInput.
    + by apply tidy_clearInput.
  - apply (tidy_kept w); [|by apply (input_act a)|done].
    destruct a as [i o| |v pos| |dim|s' pos|p r]; try done;
      simpl in Ha; simplify_eq.
    + apply keepsShape_setEditorVisible.
    + apply keepsShape_focus.
    + apply keepsShape_layout.
    + apply keepsShape_onPositionChange.
    + by eapply shapeOf_settle.
Qed.

Lemma tidy_run acts : forall w w',
  run acts w = Some w' -> wfDom w -> tidy w -> wfDom w' /\ tidy w'.
Proof.
  induction acts as [|a rest IH]; intros w w' Hrun Hwf Ht; simpl in Hrun.
  - by simplify_eq.
  - destruct (act a w) as [w1|] eqn:E; [|done]. simpl in Hrun.
    eapply IH; [exact Hrun|by eapply wfDom_act|by eapply tidy_act].
Qed.

(** X17. Whatever the workbench, the sash and the producers of promises
    do to an editor after [createEditor], the child nodes the editor has
    appended to its parent and not removed are exactly the containers
    the host holds, details before master: no container of an earlier
    pair is left behind; and a host without current input holds no
    container, so none of its nodes is in the parent. *)
Theorem reachable_parent_holds_containers s acts w :
  run acts (created s) = Some w ->
  childNodes (dom w) = heldContainers (host w) /\
  (input (host w) = None ->
   detailsEditorContainer (host w) = None /\
   masterEditorContainer (host w) = None /\
   childNodes (dom w) = []).
Proof.
  intros Hrun.
  destruct (tidy_run acts (created s) w Hrun (wfDom_created s)) as [_ [Hn Hi]].
  { by split. }
  split; [done|]. intros Hin. destruct (Hi Hin) as [Hd Hm].
  repeat split; [done..|]. rewrite Hn. unfold heldContainers. by rewrite Hd, Hm.
Qed.

(** ** The two slots across a run *)

#[local] Instance slotsKept_frame : Frame slotsKept (fun _ => True) keepsSlots.
Proof.
  split; [split|..]; unfold slotsKept.
  - by intros w.
  - intros w1 w2 w3 [? ?] [? ?]. split; auto.
  - by intros f w.
  - by intros f w.
  - by intros f w.
  - by intros ev w _.
  - intros f w Hf. destruct (Hf (host w)) as [Hm Hd]. simpl.
    rewrite Hm. split; [done|]. intros Hw Hd'. apply Hw.
    destruct Hd as [<-|Hd]; [done|]. rewrite Hd in Hd'. by destruct Hd'.
Qed.

Lemma slots_dolayout p : stable slotsKept (dolayout p).
Proof.
  unfold dolayout.
  apply stable_bind; [auto with stable|intros d].
  apply stable_bind; [auto with stable|intros m].
  destruct d, m; auto 20 with stable.
Qed.

Lemma slots_layout dim : stable slotsKept (layout dim).
Proof.
  unfold layout.
  apply stable_bind; [auto with stable|intros _].
  apply stable_bind; [auto with stable|intros s].
  destruct (setDimenesion s dim) as [s' fired].
  apply stable_bind; [auto with stable|intros _].
  induction fired as [|p rest IH]; simpl; [auto with stable|].
  apply stable_bind; [apply slots_dolayout|done].
Qed.

Lemma slots_tryComplete j w : slotsKept w (tryComplete j w).
Proof.
  unfold tryComplete.
  destruct (joins w !! j) as [[[d|] [m|] [res|]]|]; try reflexivity.
  destruct d as [ed|d], m as [em|m]; try done.
  destruct (onEditorsCreated_commits d m w) as (_ & Hm & _).
  destruct (onEditorsCreated d m w) as [w' [u|e]]; simpl in Hm;
    (split; intros; simpl; by rewrite Hm).
Qed.

Lemma slots_setNewInput newInput opts :
  stable slotsKept (setNewInput newInput opts).
Proof.
  unfold setNewInput.
  apply stable_bind; [apply stable_get|intros dc].
  apply stable_bind; [by apply stable__createEditor|intros pd].
  apply stable_bind; [apply stable_get|intros mc].
  apply stable_bind; [by apply stable__createEditor|intros pm].
  intros w. unfold join; simpl.
  etrans; [|apply slots_tryComplete]. by destruct pd, pm.
Qed.

Lemma slots_disposeEditors : stable slotsKept disposeEditors.
Proof. unfold disposeEditors. auto 30 with stable. Qed.

Lemma slots_setInput newInput opts w :
  slotsKept w (fst (setInput newInput opts w)).
Proof.
  rewrite fst_setInput.
  apply (stable_bind (R := slotsKept)).
  { unfold BaseEditor_setInput. auto 10 with stable. }
  intros _. unfold updateInput. destruct (negb _).
  - apply stable_bind; [|intros _].
    { destruct (input (host w)); [apply slots_disposeEditors|apply stable_ret]. }
    apply stable_bind; [|intros _; apply slots_setNewInput].
    apply stable_createEditorContainers; try done;
      unfold keepsSlots; intros;
      match goal with h : Host |- _ => destruct h end; simpl; auto.
  - unfold child_setInput. auto 30 with stable.
Qed.

Lemma slots_settle p r w w' : settle p r w = Some w' -> slotsKept w w'.
Proof.
  unfold settle, finish. intros Hs.
  destruct (promises w !! p) as [[[i c o|e|r0] l]|]; [| | done | done].
  - destruct r as [err|u]; simplify_eq; [|done].
    destruct l as [[j s]|]; [|done].
    etrans; [|apply slots_tryComplete]. done.
  - simplify_eq. destruct l as [[j s]|]; [|done].
    etrans; [|apply slots_tryComplete]. done.
Qed.

Lemma slots_act a w w' : act a w = Some w' -> slotsKept w w'.
Proof.
  destruct a as [i o| |v pos| |dim|s' pos|p r]; simpl; intros Ha; simplify_eq.
  - apply slots_setInput.
  - assert (Hst : stable slotsKept clearInput); [|apply Hst].
    unfold clearInput, BaseEditor_clearInput.
    pose proof slots_disposeEditors. auto 10 with stable.
  - assert (Hst : stable slotsKept (setEditorVisible v pos)); [|apply Hst].
    unfold setEditorVisible, BaseEditor_setEditorVisible. auto 20 with stable.
  - assert (Hst : stable slotsKept focus); [|apply Hst].
    unfold focus. auto 10 with stable.
  - apply slots_layout.
  - assert (Hst : stable slotsKept (onPositionChange s' pos)); [|apply Hst].
    unfold onPositionChange. pose proof slots_dolayout. auto 10 with stable.
  - by eapply slots_settle.
Qed.

Lemma slots_run acts : forall w w', run acts w = Some w' -> slotsKept w w'.
Proof.
  induction acts as [|a rest IH]; intros w w' Hrun; simpl in Hrun.
  - by simplify_eq.
  - destruct (act a w) as [w1|] eqn:E; [|done]. simpl in Hrun.
    etrans; [by eapply slots_act|by apply IH].
Qed.

(** X18. Nothing empties the master slot: once the host holds a master
    child, it holds one after any succession of [setInput],
    [clearInput], [setEditorVisible], [focus], [layout], drags of the
    sash and settled promises. *)
Theorem master_slot_never_emptied acts w w' m :
  run acts w = Some w' ->
  masterEditor (host w) = Some m ->
  exists m', masterEditor (host w') = Some m'.
Proof.
  intros Hrun Hm. destruct (slots_run acts w w' Hrun) as [Hkeep _].
  apply Hkeep. by rewrite Hm.
Qed.

(** X19. Whatever happens to an editor after [createEditor], a host
    that holds a details child holds a master child. *)
Theorem details_slot_implies_master s acts w d :
  run acts (created s) = Some w ->
  detailsEditor (host w) = Some d ->
  exists m, masterEditor (host w) = Some m.
Proof.
  intros Hrun Hd. destruct (slots_run acts (created s) w Hrun) as [_ Hinv].
  apply Hinv; [|by rewrite Hd]. simpl. by intros [? ?].
Qed.

(** ** The same pair asked for twice *)

(** X20. On every world the editor can reach, when [setInput] is
    called with a pair that does not match the current input and, before
    any of its promises is settled, called again with the same pair,
    the second call takes the reuse branch (the pair is the current
    input already) while no child exists yet: it is rejected with a
    [TypeError] and makes no call on any child.  This holds when the
    host had a current input or an empty details slot to start with. *)
Theorem second_setInput_before_commit_rejects
    s acts w newInput opts opts' dd dm :
  run acts (created s) = Some w ->
  matches newInput (input (host w)) = false ->
  matches newInput (Some newInput) = true ->
  getEditor (details newInput) = Some dd ->
  getEditor (master newInput) = Some dm ->
  is_Some (input (host w)) \/ detailsEditor (host w) = None ->
  let w1 := fst (setInput newInput opts w) in
  setInput newInput opts' w1
  = (with_host (fun h => set_options opts' (set_input (Some newInput) h)) w1,
     Rejected [TypeError]).
Proof.
  intros Hreach Hmatch Hself Hdd Hdm Hstart w1.
  assert (Hwf : wfDom w) by (eapply wfDom_run; [exact Hreach|apply wfDom_created]).
  destruct (setInput_sync w newInput opts Hwf Hmatch)
    as (w2 & Hsync & Hh2 & _).
  destruct (setNewInput_creating newInput opts dd dm w2 Hdd Hdm)
    as (w3 & Hr3 & _ & Hh3 & _).
  assert (Hw1 : host w1 = host w2).
  { subst w1. by rewrite fst_setInput, Hsync, Hr3. }
  assert (Hin : input (host w1) = Some newInput) by (by rewrite Hw1, Hh2).
  assert (Hd : detailsEditor (host w1) = None).
  { rewrite Hw1, Hh2. simpl. destruct Hstart as [[old Hold]|Hnone].
    - by rewrite Hold.
    - by destruct (input (host w)). }
  clearbody w1. clear Hw1.
  destruct w1 as [h1 dm1 tr1 ne1 ps1 js1]; destruct h1; simpl in *; subst.
  unfold setInput, updateInput, BaseEditor_setInput. simpl. rewrite Hself.
  reflexivity.
Qed.

End Properties.

(** ** The statements at work *)



(** [setInput pairA] on the editor that shows [pairA]. *)
Lemma reuse_details_first_without_options_witness :
  trace (fst (setInput pairA (Some 8) showingA))
  = trace showingA ++ [SetInput 0 1 None; SetInput 1 2 (Some 8)].
Proof.
  apply (@reuse_details_first_without_options workbench showingA pairA (Some 8) 0 1);
    reflexivity.
Defined.

(** Two matching calls in a row on the editor that shows [pairA]. *)
Lemma matching_inputs_reuse_children_witness :
  let calls := [(pairA, Some 8); (pairA, None)] in
  let r := setInputs calls showingA in
  trace r.1 = trace showingA ++ concat (delivered 0 1 <$> calls) /\
  r.2 = replicate (length calls) Fulfilled /\
  detailsEditor (host r.1) = Some 0 /\
  masterEditor (host r.1) = Some 1 /\
  detailsEditorContainer (host r.1) = detailsEditorContainer (host showingA) /\
  masterEditorContainer (host r.1) = masterEditorContainer (host showingA) /\
  dom r.1 = dom showingA /\
  joins r.1 = joins showingA /\
  nextEditor r.1 = nextEditor showingA.
Proof.
  intros calls r.
  apply (@matching_inputs_reuse_children workbench calls showingA 0 1 r.1 r.2);
    [reflexivity|reflexivity|vm_compute; repeat split|apply surjective_pairing].
Defined.

(** [setInput pairB] on the editor that shows [pairA]. *)
Lemma recreate_disposes_old_pair_first_witness :
  let w' := fst (setInput pairB None showingA) in
  (exists evs,
     trace w' = trace showingA ++ Dispose 0 :: Dispose 1 :: evs /\
     Forall notDispose evs) /\
  sash (host w') = sash (host showingA) /\
  forall sched w'', settleAll sched w' = Some w'' -> grows notDispose w' w''.
Proof.
  apply (@recreate_disposes_old_pair_first workbench showingA pairB None pairA 0 1);
    reflexivity.
Defined.

(** C4, as stated, fails when the children exist on a host without
    current input, which [updateInput] takes for a host without
    children ([if (oldInput)]).  [setInput pairA], [clearInput], then the
    four promises of [pairA] are settled: its children (editors 0 and 1)
    are in the two slots and the input is absent.  [setInput pairB],
    which does not match, then disposes nothing: it appends the two
    containers and asks for the two instances; when the children of
    [pairB] (editors 2 and 3) are committed they take the slots, and
    editors 0 and 1 have never been disposed. *)
Lemma recreate_without_input_counterexample :
  run orphaning (@created workbench (px 220)) = Some orphaned /\
  (input (host orphaned), detailsEditor (host orphaned),
   masterEditor (host orphaned)) = (None, Some 0, Some 1) /\
  valueEquality pairB (input (host orphaned)) = false /\
  trace (fst (setInput pairB None orphaned))
  = trace orphaned ++ [AppendChild 2; AppendChild 3;
                       CreateInstance 1003; CreateInstance 1004] /\
  settleAll [(2, ok); (3, ok); (2, ok); (3, ok)]
    (fst (setInput pairB None orphaned)) = Some orphanedThenB /\
  (detailsEditor (host orphanedThenB), masterEditor (host orphanedThenB))
  = (Some 2, Some 3) /\
  disposals 0 (trace orphanedThenB) = 0 /\
  disposals 1 (trace orphanedThenB) = 0.
Proof.
  split; [vm_compute; reflexivity|]. split; [vm_compute; reflexivity|].
  split; [vm_compute; reflexivity|]. split; [vm_compute; reflexivity|].
  split; [vm_compute; reflexivity|]. split; [vm_compute; reflexivity|].
  split; vm_compute; reflexivity.
Qed.

(** The last promise of [pairA] is settled after [pairB] was committed. *)
Lemma stale_creation_is_committed_witness :
  exists w',
    settle 1 ok raceBeforeLast = Some w' /\
    detailsEditor (host w') = Some 2 /\
    masterEditor (host w') = Some 3 /\
    exists evs,
      trace w' = trace raceBeforeLast
                 ++ SetVisible 3 (visible (host raceBeforeLast))
                    :: SetVisible 2 (visible (host raceBeforeLast)) :: evs /\
      Forall notDispose evs.
Proof.
  apply (@stale_creation_is_committed workbench raceBeforeLast 1 0 MasterSide 3
           {| joinDetails := Some (inr 2); joinMaster := None; joinResult := None |}
           2 3); reflexivity.
Defined.

(** C1, as stated, fails.  [setInput pairA], then [setInput pairB], which
    does not match; the children of [pairB] (editors 0 and 1) are
    committed first.  When the creation of [pairA] resolves afterwards,
    its children (editors 2 and 3) replace those of [pairB] in the slots
    although the current input is [pairB]; they are made visible, laid
    out and focused, and they are never disposed. *)
Lemma stale_creation_counterexample :
  settleAll [(2, ok); (3, ok); (2, ok); (3, ok); (0, ok); (1, ok); (0, ok); (1, ok)]
    (fst (setInput pairB None (fst (setInput pairA (Some 7) opened))))
  = Some raceOver /\
  valueEquality pairB (Some pairA) = false /\
  (input (host raceBcommitted), detailsEditor (host raceBcommitted),
   masterEditor (host raceBcommitted)) = (Some pairB, Some 0, Some 1) /\
  (input (host raceOver), detailsEditor (host raceOver),
   masterEditor (host raceOver)) = (Some pairB, Some 2, Some 3) /\
  callsOn 2 (trace raceOver)
  = [Create 2 (Some 0); SetInput 2 (details pairA) None; SetVisible 2 true;
     Layout 2 {| width := px 220; height := px 600 |}] /\
  callsOn 3 (trace raceOver)
  = [Create 3 (Some 1); SetInput 3 (master pairA) (Some 7); SetVisible 3 true;
     Layout 3 {| width := px 580; height := px 600 |}; Focus 3] /\
  ~ discarded 2 raceOver /\ ~ discarded 3 raceOver.
Proof.
  split; [vm_compute; reflexivity|].
  split; [reflexivity|]. split; [vm_compute; reflexivity|].
  split; [vm_compute; reflexivity|]. split; [vm_compute; reflexivity|].
  split; [vm_compute; reflexivity|].
  split; intros (Hd & _); vm_compute in Hd; discriminate.
Qed.

(** The master side of [setInput pairU] succeeds, its details side has
    failed. *)
Lemma partial_failure_rejects_without_disposal_witness :
  exists w',
    settle 2 ok askedUcreated = Some w' /\
    outcome (Joined 1) w' = Some (inl [NoEditorError 100]) /\
    host w' = host askedUcreated /\ trace w' = trace askedUcreated /\
    dom w' = dom askedUcreated.
Proof.
  apply (@partial_failure_rejects_without_disposal workbench askedUcreated 2 1
           MasterSide (AwaitInput 2) ok (inr 2)
           {| joinDetails := Some (inl (NoEditorError 100)); joinMaster := None;
              joinResult := None |}
           (inl (NoEditorError 100)) (inr 2) (NoEditorError 100));
    [reflexivity..|left; split; [reflexivity|by exists 2]].
Defined.

(** C5, as stated, fails.  In [setInput pairU] the details side has no
    registered editor and the master side succeeds: the promise is
    rejected with the no-editor error, but the master child that was
    created (editor 2, inside container 3) is never disposed. *)
Lemma partial_failure_counterexample :
  let w := settled [(2, ok)] askedUcreated in
  registry (details pairU) = None /\
  registry (master pairU) = Some 1005 /\
  valueEquality pairU (input (host showingA)) = false /\
  settleAll [(2, ok); (2, ok)] (fst (setInput pairU None showingA)) = Some w /\
  snd (setInput pairU None showingA) = Joined 1 /\
  outcome (Joined 1) w = Some (inl [NoEditorError 100]) /\
  callsOn 2 (trace w) = [Create 2 (Some 3); SetInput 2 (master pairU) None] /\
  disposals 2 (trace w) = 0.
Proof. vm_compute. repeat split. Qed.

(** [setInput pairU] on the editor that shows [pairA]. *)
Lemma no_editor_rejects_after_teardown_witness :
  let err := NoEditorError 100 in
  let w' := fst (setInput pairU None showingA) in
  (forall c o w0,
     @_createEditor workbench 100 c o w0 = (w0, Return (WrapError err))) /\
  (forall j,
     snd (setInput pairU None showingA) = Joined j ->
     exists jn,
       joins w' !! j = Some jn /\
       sideResult DetailsSide jn = Some (inl err) /\
       (joinResult jn = None \/
        exists errs, joinResult jn = Some (inl errs) /\ err ∈ errs)) /\
  (forall (w1 : @World workbench) p c s' r res jn j rd rm,
     promises w1 !! p = Some {| chain := c; listener := Some (j, s') |} ->
     settledAs c r = Some res ->
     joins w1 !! j = Some jn ->
     sideResult DetailsSide jn = Some (inl err) ->
     s' <> DetailsSide ->
     setSide s' res jn = bothSettled rd rm ->
     exists w2,
       settle p r w1 = Some w2 /\
       (exists errs, outcome (Joined j) w2 = Some (inl errs) /\ err ∈ errs) /\
       host w2 = host w1 /\ trace w2 = trace w1) /\
  (forall old d m,
     input (host showingA) = Some old ->
     detailsEditor (host showingA) = Some d ->
     masterEditor (host showingA) = Some m ->
     (exists evs, trace w' = trace showingA ++ Dispose d :: Dispose m :: evs) /\
     detailsEditor (host w') = None /\
     input (host w') = Some pairU) /\
  (input (host showingA) = None ->
     detailsEditor (host w') = detailsEditor (host showingA) /\
     masterEditor (host w') = masterEditor (host showingA) /\
     input (host w') = Some pairU).
Proof.
  apply (@no_editor_rejects_after_teardown workbench showingA pairU None DetailsSide);
    reflexivity.
Defined.

(** C6, as stated, fails.  The editor shows [pairA] (children 0 and 1);
    [setInput pairU], whose details input has no registered editor, is
    rejected with the no-editor error, and the host is not in its prior
    state: both children of [pairA] have been disposed, the details slot
    is empty and the current input is [pairU]. *)
Lemma no_editor_counterexample :
  let w := settled [(2, ok); (2, ok)] askedU in
  settleAll [(2, ok); (2, ok)] (fst (setInput pairU None showingA)) = Some w /\
  registry (details pairU) = None /\
  outcome (snd (setInput pairU None showingA)) w = Some (inl [NoEditorError 100]) /\
  (input (host showingA), detailsEditor (host showingA)) = (Some pairA, Some 0) /\
  (input (host w), detailsEditor (host w)) = (Some pairU, None) /\
  disposals 0 (trace w) = 1 /\
  disposals 1 (trace w) = 1 /\
  host w <> host showingA.
Proof.
  split; [vm_compute; reflexivity|].
  split; [reflexivity|]. split; [vm_compute; reflexivity|].
  split; [vm_compute; reflexivity|]. split; [vm_compute; reflexivity|].
  split; [vm_compute; reflexivity|]. split; [vm_compute; reflexivity|].
  intros Heq. apply (f_equal detailsEditor) in Heq. vm_compute in Heq. discriminate.
Qed.

(** ** Where the code departs from what it is meant to do *)

(** C7.  On the reuse branch the promises of the two children are
    dropped: [setInput] answers with a complete promise at once, and when
    the details child later fails to take its input (promise 2) the
    promise stays fulfilled and nothing in the host changes. *)
Theorem reuse_swallows_child_failure :
  valueEquality pairA (input (host showingA)) = true /\
  snd (setInput pairA (Some 8) showingA) = Fulfilled /\
  callsOn 0 (trace reusedA)
  = callsOn 0 (trace showingA) ++ [SetInput 0 (details pairA) None] /\
  promises reusedA !! 2 = Some {| chain := AwaitInput 0; listener := None |} /\
  forall err, exists w,
    settle 2 (inl err) reusedA = Some w /\
    outcome (snd (setInput pairA (Some 8) showingA)) w = Some (inr tt) /\
    host w = host reusedA /\ trace w = trace reusedA /\ joins w = joins reusedA.
Proof.
  assert (Hp : snd (setInput pairA (Some 8) showingA) = Fulfilled)
    by (vm_compute; reflexivity).
  assert (Hl : promises reusedA !! 2
               = Some {| chain := AwaitInput 0; listener := None |})
    by (vm_compute; reflexivity).
  split; [vm_compute; reflexivity|]. split; [exact Hp|].
  split; [vm_compute; reflexivity|]. split; [exact Hl|].
  intros err. rewrite Hp.
  destruct (settle_unobserved reusedA 2 0 err Hl) as (w & Hs & Hh & Ht & Hj & _).
  exists w. split; [exact Hs|]. split; [reflexivity|].
  split; [exact Hh|]. split; [exact Ht|exact Hj].
Qed.

(** C8.  [disposeEditors] clears [detailsEditor] twice and [masterEditor]
    never: after [clearInput] on an editor that shows a pair, the details
    slot is empty while the master slot still holds the child that has
    just been disposed. *)
Theorem clearInput_keeps_disposed_master :
  let w := exec clearInput showingA in
  (detailsEditor (host showingA), masterEditor (host showingA))
  = (Some 0, Some 1) /\
  (input (host w), detailsEditor (host w), masterEditor (host w))
  = (None, None, Some 1) /\
  disposals 1 (trace w) = 1 /\
  (detailsEditorContainer (host w), masterEditorContainer (host w))
  = (None, None).
Proof. vm_compute. repeat split. Qed.

(** C9.  For the same reason a second teardown disposes the master child
    a second time; the details child and the two containers are handled
    once. *)
Theorem second_teardown_disposes_master_again :
  let w1 := exec disposeEditors showingA in
  let w2 := exec disposeEditors w1 in
  snd (disposeEditors showingA) = Return tt /\
  snd (disposeEditors w1) = Return tt /\
  disposals 1 (trace w1) = 1 /\
  disposals 1 (trace w2) = 2 /\
  disposals 0 (trace w2) = 1 /\
  trace w2 = trace showingA
             ++ [Dispose 0; Dispose 1; RemoveChild 0; RemoveChild 1; Dispose 1].
Proof. vm_compute. repeat split. Qed.

(** ** The properties of the rest of the class at work *)

(** A resize of the opened editor, which has no children yet. *)
Lemma layout_without_children_witness :
  let dim := {| width := px 1024; height := px 768 |} in
  layout dim opened
  = (with_host (fun h => @set_sash workbench (px 220)
                           (set_dimension (Some dim) h))
       opened, Return tt).
Proof.
  intros dim. apply (@layout_without_children workbench opened dim).
  left. reflexivity.
Defined.

(** A resize of the editor that shows [pairA]. *)
Lemma layout_ready_regions_witness :
  let dim := {| width := px 1024; height := px 768 |} in
  exists w',
    layout dim showingA = (w', Return tt) /\
    dimension (host w') = Some dim /\
    sash (host w') = px 220 /\
    regionOf 0 (dom w') = Some (detailsRegion dim (px 220)) /\
    regionOf 1 (dom w') = Some (masterRegion dim (px 220)) /\
    trace w' = trace showingA ++ concat (layoutCalls 0 1 dim <$> ([] ++ [px 220])).
Proof.
  apply (@layout_ready_regions workbench showingA
           {| width := px 1024; height := px 768 |} 0 1 0 1 (px 220) [] (px 220));
    [reflexivity..|lia|reflexivity].
Defined.

(** The sash of the editor that shows [pairA] is dragged to 300: the
    details container takes 300, the master container 500. *)
Lemma drag_ready_regions_witness :
  let dim := {| width := px 800; height := px 600 |} in
  exists w',
    @onPositionChange workbench (px 300) (px 300) showingA = (w', Return tt) /\
    sash (host w') = px 300 /\
    regionOf 0 (dom w')
    = Some {| left := px 0; rwidth := px 300; rheight := px 600 |} /\
    regionOf 1 (dom w')
    = Some {| left := px 300; rwidth := px 500; rheight := px 600 |} /\
    trace w' = trace showingA ++ layoutCalls 0 1 dim (px 300).
Proof.
  intros dim.
  destruct (@drag_ready_regions workbench showingA dim 0 1 0 1 (px 300) (px 300))
    as (w' & Hrun & Hs & Hd & Hm & Ht & Hwhole); [reflexivity..|lia|].
  destruct (Hwhole 800 300)%Z as (Hrd & Hrm); [reflexivity..|lia|lia|lia|].
  exists w'. split; [exact Hrun|]. split; [exact Hs|].
  split; [by rewrite Hd, Hrd|]. split; [by rewrite Hm, Hrm|exact Ht].
Defined.

(** The last promise of [pairA] on an editor that was never laid out. *)
Lemma commit_without_dimension_witness :
  exists w',
    settle 1 (inr tt) unsizedBeforeLastA = Some w' /\
    outcome (Joined 0) w' = Some (inl [TypeError]) /\
    detailsEditor (host w') = Some 0 /\
    masterEditor (host w') = Some 1 /\
    trace w' = trace unsizedBeforeLastA
               ++ [SetVisible 1 (visible (host unsizedBeforeLastA));
                   SetVisible 0 (visible (host unsizedBeforeLastA))] /\
    dom w' = dom unsizedBeforeLastA.
Proof.
  apply (@commit_without_dimension workbench unsizedBeforeLastA 1 0 MasterSide 1
           {| joinDetails := Some (inr 0); joinMaster := None; joinResult := None |}
           0 1); vm_compute; reflexivity.
Defined.

(** The last promise of [pairA] on the opened editor. *)
Lemma commit_ready_witness :
  let pos := getVerticalSashLeft (sash (host beforeLastA)) in
  exists w',
    settle 1 (inr tt) beforeLastA = Some w' /\
    outcome (Joined 0) w' = Some (inr tt) /\
    host w' = set_masterEditor (Some 1) (set_detailsEditor (Some 0) (host beforeLastA)) /\
    trace w' = trace beforeLastA
               ++ SetVisible 1 (visible (host beforeLastA))
                  :: SetVisible 0 (visible (host beforeLastA))
                  :: layoutCalls 0 1 {| width := px 800; height := px 600 |} pos
                  ++ [Focus 1] /\
    regionOf 0 (dom w') = Some (detailsRegion {| width := px 800; height := px 600 |} pos) /\
    regionOf 1 (dom w') = Some (masterRegion {| width := px 800; height := px 600 |} pos).
Proof.
  apply (@commit_ready workbench beforeLastA 1 0 MasterSide 1
           {| joinDetails := Some (inr 0); joinMaster := None; joinResult := None |}
           0 1 {| width := px 800; height := px 600 |} 0 1);
    [vm_compute; reflexivity..|lia].
Defined.

(** [setInput pairA] again while [pairA] is being created. *)
Lemma matching_setInput_without_details_witness :
  setInput pairA (Some 8) askedA
  = (with_host (fun h => set_options (Some 8) (set_input (Some pairA) h)) askedA,
     Rejected [TypeError]).
Proof.
  apply (@matching_setInput_without_details workbench askedA pairA (Some 8));
    vm_compute; reflexivity.
Defined.

(** [clearInput] on the editor that shows [pairA], then [focus] and
    [getControl]. *)
Lemma master_used_after_clearInput_witness :
  let w1 := fst (clearInput showingA) in
  (exists evs, trace w1 = trace showingA ++ evs /\ In (Dispose 1) evs) /\
  focus w1 = (with_trace (fun t => t ++ [Focus 1]) w1, Return tt) /\
  getControl w1 = (w1, Return (Some 1)).
Proof.
  apply (@master_used_after_clearInput workbench showingA 1). reflexivity.
Defined.

(** The editor that shows [pairA] is reached from [createEditor]. *)
Lemma reachable_containers_attached_witness : wfDom showingA.
Proof.
  apply (@reachable_containers_attached workbench (px 220) showing showingA).
  vm_compute. reflexivity.
Defined.

Lemma clearInput_reachable_witness :
  exists w',
    clearInput showingA = (w', Return tt) /\
    input (host w') = None /\
    detailsEditor (host w') = None /\
    detailsEditorContainer (host w') = None /\
    masterEditorContainer (host w') = None /\
    trace w' = trace showingA ++ teardownCalls (host showingA) /\
    childNodes (dom w')
    = without (masterEditorContainer (host showingA))
        (without (detailsEditorContainer (host showingA))
           (childNodes (dom showingA))) /\
    forall c, detailsEditorContainer (host showingA) = Some c \/
              masterEditorContainer (host showingA) = Some c ->
              c ∉ childNodes (dom w').
Proof.
  apply (@clearInput_reachable workbench (px 220) showing showingA).
  vm_compute. reflexivity.
Defined.

(** [setInput pairB] on the editor that shows [pairA]. *)
Lemma recreate_swaps_containers_witness :
  let nx := nextElement (dom showingA) in
  exists w' j,
    setInput pairB None showingA = (w', Joined j) /\
    childNodes (dom w')
    = without (masterEditorContainer (host showingA))
        (without (detailsEditorContainer (host showingA))
           (childNodes (dom showingA)))
      ++ [nx; S nx] /\
    detailsEditorContainer (host w') = Some nx /\
    masterEditorContainer (host w') = Some (S nx) /\
    nextElement (dom w') = S (S nx).
Proof.
  apply (@recreate_swaps_containers workbench (px 220) showing showingA pairB None pairA);
    vm_compute; reflexivity.
Defined.

Lemma createEditorContainers_fresh_witness :
  let nx := nextElement (dom showingA) in
  exists w',
    createEditorContainers showingA = (w', Return tt) /\
    (nx ∉ childNodes (dom showingA)) /\ (S nx ∉ childNodes (dom showingA)) /\
    childNodes (dom w') = childNodes (dom showingA) ++ [nx; S nx] /\
    detailsEditorContainer (host w') = Some nx /\
    masterEditorContainer (host w') = Some (S nx) /\
    style_position (styleOf nx (dom w')) = absolute /\
    style_position (styleOf (S nx) (dom w')) = absolute /\
    trace w' = trace showingA ++ [AppendChild nx; AppendChild (S nx)].
Proof.
  apply (@createEditorContainers_fresh workbench (px 220) showing showingA).
  vm_compute. reflexivity.
Defined.

(** Another pair is asked for, one of its instances arrives, the input
    is cleared: the sash and the dimension are those of [showingA]. *)
Lemma geometry_only_resized_witness :
  sash (host (after replacing showingA)) = sash (host showingA) /\
  dimension (host (after replacing showingA)) = dimension (host showingA).
Proof.
  apply (@geometry_only_resized workbench replacing showingA
           (after replacing showingA)); vm_compute; reflexivity.
Defined.

(** The first [setInput] of the opened editor. *)
Lemma first_setInput_tears_nothing_down_witness :
  let w' := fst (setInput pairA (Some 7) opened) in
  let nx := nextElement (dom opened) in
  (exists evs,
     trace w' = trace opened ++ AppendChild nx :: AppendChild (S nx) :: evs /\
     Forall notDispose evs) /\
  childNodes (dom w') = childNodes (dom opened) ++ [nx; S nx] /\
  detailsEditorContainer (host w') = Some nx /\
  masterEditorContainer (host w') = Some (S nx).
Proof.
  apply (@first_setInput_tears_nothing_down workbench opened pairA (Some 7));
    reflexivity.
Defined.

(** The first [setInput] of the opened editor; the instance of the
    master side arrives first, then that of the details side, then the
    details child has its input, then the master child. *)
Lemma setInput_completes_in_any_order_witness :
  let sched := [ASettle 1 (inr tt); ASettle 0 (inr tt);
                ASettle 0 (inr tt); ASettle 1 (inr tt)] in
  let dim := {| width := px 800; height := px 600 |} in
  let nx := nextElement (dom opened) in
  let ne := nextEditor opened in
  let pos := getVerticalSashLeft (sash (host opened)) in
  exists w0 j w' d m creation,
    setInput pairA (Some 7) opened = (w0, Joined j) /\
    outcome (Joined j) w0 = None /\
    run sched w0 = Some w' /\
    outcome (Joined j) w' = Some (inr tt) /\
    host w'
    = {| input := Some pairA; options := Some 7;
         visible := visible (host opened); position := position (host opened);
         dimension := Some dim;
         masterEditor := Some m; masterEditorContainer := Some (S nx);
         detailsEditor := Some d; detailsEditorContainer := Some nx;
         sash := sash (host opened) |} /\
    regionOf nx (dom w') = Some (detailsRegion dim pos) /\
    regionOf (S nx) (dom w') = Some (masterRegion dim pos) /\
    trace w'
    = trace opened
      ++ match input (host opened) with
         | Some _ => teardownCalls (host opened)
         | None => []
         end
      ++ [AppendChild nx; AppendChild (S nx);
          CreateInstance 1001; CreateInstance 1002]
      ++ creation
      ++ SetVisible m (visible (host opened)) :: SetVisible d (visible (host opened))
         :: layoutCalls d m dim pos ++ [Focus m] /\
    (d = ne /\ m = S ne /\
     creation = [Create d (Some nx); SetInput d (details pairA) None;
                 Create m (Some (S nx)); SetInput m (master pairA) (Some 7)] \/
     m = ne /\ d = S ne /\
     creation = [Create m (Some (S nx)); SetInput m (master pairA) (Some 7);
                 Create d (Some nx); SetInput d (details pairA) None]).
Proof.
  intros sched dim.
  apply (@setInput_completes_in_any_order workbench (px 220) opening opened pairA
           (Some 7) 1001 1002 dim sched);
    [vm_compute; reflexivity..|].
  vm_compute. repeat constructor.
Defined.

(** A resize, a drag and a change of visibility leave the input of
    [showingA] alone. *)
Lemma input_only_set_or_cleared_witness :
  input (host (after resizing showingA)) = input (host showingA) /\
  options (host (after resizing showingA)) = options (host showingA).
Proof.
  apply (@input_only_set_or_cleared workbench resizing showingA
           (after resizing showingA)); vm_compute; reflexivity.
Defined.

Lemma reachable_parent_holds_containers_witness :
  childNodes (dom showingA) = heldContainers (host showingA) /\
  (input (host showingA) = None ->
   detailsEditorContainer (host showingA) = None /\
   masterEditorContainer (host showingA) = None /\
   childNodes (dom showingA) = []).
Proof.
  apply (@reachable_parent_holds_containers workbench (px 220) showing showingA).
  vm_compute. reflexivity.
Defined.

(** The master child of [pairA] is still in its slot after [replacing]. *)
Lemma master_slot_never_emptied_witness :
  exists m', masterEditor (host (after replacing showingA)) = Some m'.
Proof.
  apply (@master_slot_never_emptied workbench replacing showingA
           (after replacing showingA) 1); vm_compute; reflexivity.
Defined.

Lemma details_slot_implies_master_witness :
  exists m, masterEditor (host showingA) = Some m.
Proof.
  apply (@details_slot_implies_master workbench (px 220) showing showingA 0);
    vm_compute; reflexivity.
Defined.

(** [setInput pairA] twice in a row on the opened editor. *)
Lemma second_setInput_before_commit_rejects_witness :
  let w1 := fst (setInput pairA (Some 7) opened) in
  setInput pairA (Some 8) w1
  = (with_host (fun h => set_options (Some 8) (set_input (Some pairA) h)) w1,
     Rejected [TypeError]).
Proof.
  apply (@second_setInput_before_commit_rejects workbench (px 220) opening opened
           pairA (Some 7) (Some 8) 1001 1002);
    [vm_compute; reflexivity..|].
  right. reflexivity.
Defined.
